(** * PyCDT: the anisotropic (Kumagai-Oba) finite-size charge correction

    A shallow embedding of [pycdt/corrections/kumagai_correction.py],
    the properties its specification states about it, and further
    properties of the functions of the module.

    Conventions of the model.
    - Python floats and NumPy float64 values are real numbers ([R]); the
      constants [hart_to_ev] and [ang_to_bohr] are the decimal fractions
      the source writes.  Rounding, overflow and the infinities are not
      modelled.  Where NumPy yields [nan] for an undefined value that a
      property talks about (the mean of an empty list), the value is an
      [npfloat] with an explicit [NaN].  A property that states what a
      sum returns keeps the arguments in the range where no float
      operation yields nan or an infinity and [math.exp] does not raise
      OverflowError: the quadratic forms under a square root, in a
      denominator or in the exponent are positive by hypothesis.
    - [math.erfc] is the complementary error function, defined below from
      the Riemann integral of the gaussian; [math.exp], [np.sqrt] and
      [np.pi] are [exp], [sqrt] and [PI].
    - The dielectric tensor is the 3x3 array; [np.linalg.inv] raises
      LinAlgError on a singular one.
    - A Python exception is the [Raise] case of [result]; a function that
      logs an error and returns [None] returns [Ret None].
    - pymatgen objects (lattice, site, structure) are records holding the
      attributes the source reads.  The functions of
      [pycdt.corrections.utils] that the module calls ([find_defect_pos],
      [closestsites], [genrecip]) are parameters.
    - A loop that Python leaves by a test on floats is a function by
      recursion on the number of passes left; where the number is not
      fixed by the source it is computed from the inputs and shown to be
      enough.
    - Logging and plotting have no effect on any value returned and are
      left out; a file that is read is given by its text, and the two
      reads of [KumagaiCorrection.potalign] by what they return or
      raise. *)

From Stdlib Require Import Reals Lra Lia ZArith List String.
From stdpp Require Import base option list gmap.
Import ListNotations.

Local Open Scope R_scope.

(** ** Exceptions and results *)

Inductive exn : Set :=
| TypeError | ValueError | IndexError | KeyError | NameError | AttributeError
| LinAlgError | IOError.

Inductive result (A : Type) : Type :=
| Ret (a : A)
| Raise (e : exn).
Arguments Ret {A} a.
Arguments Raise {A} e.

#[global] Instance result_ret : MRet result := fun A a => Ret a.
#[global] Instance result_bind : MBind result :=
  fun A B f c => match c with Ret a => f a | Raise e => Raise e end.
#[global] Instance result_fmap : FMap result :=
  fun A B f c => match c with Ret a => Ret (f a) | Raise e => Raise e end.

(** An operand of float arithmetic: [None] in its place raises TypeError. *)
Definition float_operand (o : option R) : result R :=
  match o with Some x => Ret x | None => Raise TypeError end.

(** A local variable that is read: NameError when it was never bound. *)
Definition local_var {A : Type} (o : option A) : result A :=
  match o with Some x => Ret x | None => Raise NameError end.

(** [d[key]]: a missing key raises KeyError. *)
Definition dict_item {A : Type} (o : option A) : result A :=
  match o with Some x => Ret x | None => Raise KeyError end.

(** [x < y] and [x > y] as truth values. *)
Definition Rltb (x y : R) : bool := if Rlt_dec x y then true else false.
Definition Rgtb (x y : R) : bool := if Rgt_dec x y then true else false.

(** Truth value of a float: [if x:] holds when x is not zero. *)
Definition truthy (x : R) : bool := if Req_dec_T x 0 then false else true.

(** ** Vectors and 3x3 matrices (NumPy arrays of shape (3,) and (3,3)) *)

Definition vec : Type := R * R * R.
Definition mat3 : Type := vec * vec * vec.

Definition vadd (u v : vec) : vec :=
  let '(u1, u2, u3) := u in let '(v1, v2, v3) := v in (u1 + v1, u2 + v2, u3 + v3).
Definition vsub (u v : vec) : vec :=
  let '(u1, u2, u3) := u in let '(v1, v2, v3) := v in (u1 - v1, u2 - v2, u3 - v3).
Definition smul (c : R) (v : vec) : vec :=
  let '(v1, v2, v3) := v in (c * v1, c * v2, c * v3).
Definition dot (u v : vec) : R :=
  let '(u1, u2, u3) := u in let '(v1, v2, v3) := v in u1 * v1 + u2 * v2 + u3 * v3.
Definition cross (u v : vec) : vec :=
  let '(u1, u2, u3) := u in let '(v1, v2, v3) := v in
  (u2 * v3 - u3 * v2, u3 * v1 - u1 * v3, u1 * v2 - u2 * v1).
Definition norm (v : vec) : R := sqrt (dot v v).
Definition vzero : vec := (0, 0, 0).

(** [np.dot(M, v)] for a matrix given by its rows. *)
Definition mat_vec (M : mat3) (v : vec) : vec :=
  let '(r1, r2, r3) := M in (dot r1 v, dot r2 v, dot r3 v).

(** [np.linalg.det]. *)
Definition det3 (M : mat3) : R :=
  let '(r1, r2, r3) := M in dot r1 (cross r2 r3).

(** [np.linalg.inv]: the adjugate over the determinant; a singular matrix
    raises LinAlgError. *)
Definition inv3 (M : mat3) : mat3 :=
  let '((a, b, c), (d, e, f), (g, h, i)) := M in
  let dt := det3 M in
  (((e * i - f * h) / dt, (c * h - b * i) / dt, (b * f - c * e) / dt),
   ((f * g - d * i) / dt, (a * i - c * g) / dt, (c * d - a * f) / dt),
   ((d * h - e * g) / dt, (b * g - a * h) / dt, (a * e - b * d) / dt)).

Definition np_linalg_inv (M : mat3) : result mat3 :=
  if Req_dec_T (det3 M) 0 then Raise LinAlgError else Ret (inv3 M).

(** ** [math.erfc] *)

Definition gauss (t : R) : R := exp (- (t * t)).

Lemma gauss_continuity : continuity gauss.
Proof.
  unfold gauss.
  apply (continuity_comp (fun t => - (t * t)) exp).
  - apply continuity_opp.
    apply continuity_mult; apply derivable_continuous, derivable_id.
  - apply derivable_continuous, derivable_exp.
Qed.

Lemma gauss_integrable (a b : R) : Riemann_integrable gauss a b.
Proof.
  destruct (Rle_dec a b) as [Hab | Hab].
  - apply continuity_implies_RiemannInt; [exact Hab | intros; apply gauss_continuity].
  - apply RiemannInt_P1, continuity_implies_RiemannInt;
      [lra | intros; apply gauss_continuity].
Qed.

Definition erf (x : R) : R := 2 / sqrt PI * RiemannInt (gauss_integrable 0 x).
Definition erfc (x : R) : R := 1 - erf x.

(** ** Indexing *)

(** [l[i]] for a Python integer index: a negative index counts from the
    end, an index out of range raises IndexError. *)
Definition py_index {A : Type} (l : list A) (i : Z) : result A :=
  let n := Z.of_nat (length l) in
  let i' := (if i <? 0 then i + n else i)%Z in
  if (i' <? 0)%Z then Raise IndexError
  else match l !! Z.to_nat i' with
       | Some a => Ret a
       | None => Raise IndexError
       end.

(** A three-dimensional NumPy array, as nested lists. *)
Definition array3 (A : Type) : Type := list (list (list A)).

Definition array3_index {A : Type} (g : array3 A) (i j k : Z) : result A :=
  plane ← py_index g i; row ← py_index plane j; py_index row k.

(** [range(lo, hi)]. *)
Definition py_range (lo hi : Z) : list Z :=
  map (fun n => lo + Z.of_nat n)%Z (seq 0 (Z.to_nat (hi - lo))).

(** ** pymatgen objects *)

Record Lattice : Type := {
  matrix : mat3;                       (* rows a1, a2, a3, in angstrom *)
  abc : vec;                           (* lengths of the rows *)
  volume : R;
  reciprocal_lattice : mat3;           (* rows b1, b2, b3, in 1/angstrom *)
  get_fractional_coords : vec -> vec;
  get_wigner_seitz_cell : list (list vec) (* facets, each a list of vertices *)
}.

Record Site : Type := {
  coords : vec;
  frac_coords : vec;
  species_string : string
}.

Record Structure : Type := {
  lattice : Lattice;
  sites : list Site
}.

(** ** Module constants *)

Definition hart_to_ev : R := 272114 / 10000.
Definition ang_to_bohr : R := 18897 / 10000.

(** ** [kumagai_init] *)

Definition kumagai_init (structure : Structure) (dieltens : mat3)
  : result (mat3 * mat3 * R * R * mat3) :=
  let angset := matrix (lattice structure) in
  let '(r1, r2, r3) := angset in
  let a1 := smul ang_to_bohr r1 in
  let a2 := smul ang_to_bohr r2 in
  let a3 := smul ang_to_bohr r3 in
  let vol := dot a1 (cross a2 a3) in
  let determ := det3 dieltens in
  invdiel ← np_linalg_inv dieltens;
  Ret (angset, (a1, a2, a3), vol, determ, invdiel).

(** ** [real_sum] *)

Definition Nmaxlength : Z := 40.

(** One summand: erfc(gamma sqrt(rv.D^-1.rv)) / sqrt(det(D) rv.D^-1.rv).
    Where NumPy gives nan or an infinity (the root of a negative number,
    a quotient by zero) the real number found here has no meaning: the
    properties that state what the sum is keep the form rv.D^-1.rv and
    the determinant positive. *)
Definition real_summand (invdiel : mat3) (determ gamma : R) (r_vec : vec) : R :=
  let loc_res := dot r_vec (mat_vec invdiel r_vec) in
  let nmr := erfc (gamma * sqrt loc_res) in
  let dmr := sqrt (determ * loc_res) in
  nmr / dmr.

Definition lattice_vector (a1 a2 a3 : vec) (i j k : Z) : vec :=
  vadd (vadd (smul (IZR i) a1) (smul (IZR j) a2)) (smul (IZR k) a3).

(** The three nested loops over [range(-N, N + 1)], started at 0.0. *)
Definition triple_loop (N : Z) (body : R -> Z -> Z -> Z -> R) : R :=
  fold_left (fun acc i =>
    fold_left (fun acc j =>
      fold_left (fun acc k => body acc i j k)
                (py_range (- N) (N + 1)) acc)
              (py_range (- N) (N + 1)) acc)
            (py_range (- N) (N + 1)) 0.

(** The value of [r_sum] after the loops of one pass of the while loop. *)
Definition shell_sum (a1 a2 a3 r : vec) (invdiel : mat3) (determ gamma : R)
    (N : Z) : R :=
  if truthy (norm r) then
    triple_loop N (fun acc i j k =>
      acc + real_summand invdiel determ gamma
              (vsub (lattice_vector a1 a2 a3 i j k) r))
  else
    triple_loop N (fun acc i j k =>
      if ((i =? j) && (j =? k) && (k =? 0))%Z then acc
      else acc + real_summand invdiel determ gamma
                   (lattice_vector a1 a2 a3 i j k)).

(** The while loop.  [todo] is [Nmaxlength - N], so that [N < Nmaxlength]
    holds exactly when [todo] is a successor; [r_sum] is the variable of
    that name, returned when the loop is left. *)
Fixpoint real_sum_while (shell : Z -> R) (realpre tolerance : R)
    (todo : nat) (r_sums : list (Z * R)) (r_sum : R) : result (option R) :=
  match todo with
  | O => Ret (Some r_sum)
  | S todo' =>
      let N := (Nmaxlength - Z.of_nat todo)%Z in
      let r_sum := shell N in
      let r_sums := r_sums ++ [(N, realpre * r_sum)] in
      if (N =? Nmaxlength - 1)%Z then Ret None
      else if (3 <? length r_sums)%nat then
        last1 ← py_index r_sums (-1);
        last2 ← py_index r_sums (-2);
        if Rlt_dec (Rabs (Rabs (snd last1) - Rabs (snd last2))) tolerance
        then Ret (Some (snd last1))
        else real_sum_while shell realpre tolerance todo' r_sums r_sum
      else real_sum_while shell realpre tolerance todo' r_sums r_sum
  end.

Definition real_sum (a1 a2 a3 r : vec) (q : R) (dieltens : mat3)
    (gamma tolerance : R) : result (option R) :=
  invdiel ← np_linalg_inv dieltens;
  let determ := det3 dieltens in
  let realpre := q / sqrt determ in
  let tolerance := tolerance / hart_to_ev in
  real_sum_while (shell_sum a1 a2 a3 r invdiel determ gamma) realpre tolerance
                 (Z.to_nat (Nmaxlength - 2)) [] 0.

(** ** [anisotropic_pc_energy] *)

Definition anisotropic_pc_energy (structure : Structure) (g_sum : array3 R)
    (dieltens : mat3) (q gamma tolerance : R) : result R :=
  '(angset, (a1, a2, a3), vol, determ, invdiel) ← kumagai_init structure dieltens;
  g000 ← array3_index g_sum 0 0 0;
  let g_part := q * g000 in
  r_part ← real_sum a1 a2 a3 vzero q dieltens gamma tolerance;
  let selfint := q * PI / (vol * (gamma ^ 2)) in
  let surfterm := 2 * gamma * q / sqrt (PI * determ) in
  r_part ← float_operand r_part;
  Ret (- q * (1 / 2) * hart_to_ev * (r_part + g_part - selfint - surfterm)).

(** ** [getgridind] (the default [gridavg = 0.0]: one index per axis) *)

(** [while r < 0: r += 1], run for the number of passes the loop takes. *)
Fixpoint add_while_negative (passes : nat) (r : R) : R :=
  match passes with
  | O => r
  | S passes' => if Rlt_dec r 0 then add_while_negative passes' (r + 1) else r
  end.

(** [while r >= 1: r -= 1]. *)
Fixpoint sub_while_ge_one (passes : nat) (r : R) : R :=
  match passes with
  | O => r
  | S passes' => if Rge_dec r 1 then sub_while_ge_one passes' (r - 1) else r
  end.

Definition wrap_unit (r : R) : R :=
  if Rlt_dec r 0 then add_while_negative (Z.to_nat (- Zfloor r)) r
  else if Rge_dec r 1 then sub_while_ge_one (Z.to_nat (Zfloor r)) r
  else r.

(** [np.argmin]: the first index of the least entry. *)
Fixpoint argmin_from (l : list R) (i best : nat) (bestv : R) : nat :=
  match l with
  | [] => best
  | y :: l' =>
      if Rlt_dec y bestv then argmin_from l' (S i) i y
      else argmin_from l' (S i) best bestv
  end.

Definition np_argmin (l : list R) : result nat :=
  match l with
  | [] => Raise ValueError
  | y :: l' => Ret (argmin_from l' 1 0 y)
  end.

(** The grid coordinates [x] along one axis. *)
Definition grid_points (abc_i : R) (num_pts : Z) : list R :=
  map (fun now_num => IZR now_num / IZR num_pts * abc_i) (py_range 0 num_pts).

(** One pass of the loop over the axes: the index along axis i. *)
Definition grid_index_axis (abc_i : R) (num_pts : Z) (r_i : R) : result Z :=
  let r_i := wrap_unit r_i * abc_i in
  let x := grid_points abc_i num_pts in
  x1 ← py_index x 1;
  x0 ← py_index x 0;
  let dx := x1 - x0 in
  let x_rprojection_delta_abs := map (fun xn => Rabs (xn - r_i)) x in
  ind ← np_argmin x_rprojection_delta_abs;
  d ← py_index x_rprojection_delta_abs (Z.of_nat ind);
  if Rgt_dec d (dx * (11 / 10)) then Raise ValueError
  else Ret (Z.of_nat ind).

Definition getgridind (structure : Structure) (dim : Z * Z * Z) (r : vec)
  : result (Z * Z * Z) :=
  let '(abc1, abc2, abc3) := abc (lattice structure) in
  let '(dim1, dim2, dim3) := dim in
  let '(r1, r2, r3) := r in
  i ← grid_index_axis abc1 dim1 r1;
  j ← grid_index_axis abc2 dim2 r2;
  k ← grid_index_axis abc3 dim3 r3;
  Ret (i, j, k).

(** ** [get_g_sum_at_r] and [anisotropic_madelung_potential] *)

Definition get_g_sum_at_r (g_sum : array3 R) (structure : Structure)
    (dim : Z * Z * Z) (r : vec) : result R :=
  let fraccoord := get_fractional_coords (lattice structure) r in
  '(i, j, k) ← getgridind structure dim fraccoord;
  array3_index g_sum i j k.

Definition anisotropic_madelung_potential (structure : Structure)
    (dim : Z * Z * Z) (g_sum : array3 R) (r : vec) (dieltens : mat3)
    (q gamma tolerance : R) : result R :=
  '(angset, (a1, a2, a3), vol, determ, invdiel) ← kumagai_init structure dieltens;
  g_at_r ← get_g_sum_at_r g_sum structure dim r;
  let recippartreal := q * g_at_r in
  directpart ← real_sum a1 a2 a3 r q dieltens gamma tolerance;
  let selfint := q * PI / (vol * (gamma ^ 2)) in
  directpart ← float_operand directpart;
  Ret (hart_to_ev * (directpart + recippartreal - selfint)).

(** ** [wigner_seitz_radius] *)

Definition vec_mean (vs : list vec) : vec :=
  smul (/ INR (length vs)) (fold_left vadd vs vzero).

(** [min] of a list of floats; the empty list raises ValueError. *)
Definition py_min (l : list R) : result R :=
  match l with
  | [] => Raise ValueError
  | x :: l' => Ret (fold_left Rmin l' x)
  end.

Definition wigner_seitz_radius (structure : Structure) : result R :=
  let wz := get_wigner_seitz_cell (lattice structure) in
  let dist := map (fun facet => norm (vec_mean facet)) wz in
  py_min dist.

(** ** NumPy scalars that may be nan *)

Inductive npfloat : Type :=
| Real (x : R)
| NaN.

(** [np.mean] of a list of floats: nan for the empty list. *)
Definition np_mean (l : list R) : npfloat :=
  match l with
  | [] => NaN
  | _ :: _ => Real (fold_right Rplus 0 l / INR (length l))
  end.

Definition np_scale (c : R) (x : npfloat) : npfloat :=
  match x with Real v => Real (c * v) | NaN => NaN end.

Definition np_add (x y : npfloat) : npfloat :=
  match x, y with Real u, Real v => Real (u + v) | _, _ => NaN end.

(** [round(x, 5)] of Python 2: to five decimals, halves away from zero. *)
Definition py_round5 (x : R) : R :=
  if Rle_dec 0 x then IZR (Zfloor (x * 100000 + / 2)) / 100000
  else - (IZR (Zfloor (- x * 100000 + / 2)) / 100000).

Definition np_round5 (x : npfloat) : npfloat :=
  match x with Real v => Real (py_round5 v) | NaN => NaN end.

(** A loop whose body may raise. *)
Fixpoint for_each {A S : Type} (body : S -> A -> result S) (l : list A) (s : S)
  : result S :=
  match l with
  | [] => Ret s
  | a :: l' => s' ← body s a; for_each body l' s'
  end.

(** ** [disttrans], [KumagaiCorrection] *)

(** The entry of one site in the dictionary [disttrans] builds; the last
    three keys are added by [potalign]. *)
Record SiteRecord : Type := {
  dist : R;
  cart : vec;
  cart_reldef : vec;
  siteobj : vec * vec * string;
  bulk_site_index : Z;
  def_site_index : Z;
  OutsideWS : option bool;
  Vpc : option R;
  Vqb : option R
}.

Definition set_OutsideWS (b : bool) (s : SiteRecord) : SiteRecord :=
  {| dist := dist s; cart := cart s; cart_reldef := cart_reldef s;
     siteobj := siteobj s; bulk_site_index := bulk_site_index s;
     def_site_index := def_site_index s;
     OutsideWS := Some b; Vpc := Vpc s; Vqb := Vqb s |}.

Definition set_Vpc_Vqb (v_pc v_qb : R) (s : SiteRecord) : SiteRecord :=
  {| dist := dist s; cart := cart s; cart_reldef := cart_reldef s;
     siteobj := siteobj s; bulk_site_index := bulk_site_index s;
     def_site_index := def_site_index s;
     OutsideWS := OutsideWS s; Vpc := Some v_pc; Vqb := Some v_qb |}.

(** [np.array_equal] on two coordinate triples. *)
Definition array_equal (u v : vec) : bool :=
  let '(u1, u2, u3) := u in let '(v1, v2, v3) := v in
  if Req_dec_T u1 v1 then
    if Req_dec_T u2 v2 then if Req_dec_T u3 v3 then true else false else false
  else false.

(** [list.sort(key=itemgetter(0))] is stable; an entry is put behind the
    entries whose key is not greater. *)
Fixpoint insert_by_key {A : Type} (x : R * A) (l : list (R * A)) : list (R * A) :=
  match l with
  | [] => [x]
  | y :: l' => if Rlt_dec (fst x) (fst y) then x :: y :: l'
               else y :: insert_by_key x l'
  end.

Definition sort_by_key {A : Type} (l : list (R * A)) : list (R * A) :=
  fold_left (fun sorted x => insert_by_key x sorted) l [].

(** What [correction] returns: one float or the list of three. *)
Inductive CorrectionResult : Type :=
| Scalar (x : npfloat)
| Triple (pc potalign full : npfloat).

Section Disttrans.

(** [find_defect_pos] and [closestsites] of [pycdt.corrections.utils]:
    the positions of the defect in the bulk and in the defect cell
    ([None] where there is none), and, for a position, the closest
    site of each structure with its index. *)
Variable find_defect_pos : Structure -> Structure -> option vec * option vec.
Variable closestsites :
  Structure -> Structure -> vec -> (Site * Z) * (Site * Z).

Definition returnclosestr (defstruct : Structure) (defcell_def_ccoord v : vec)
  : result (R * (vec * vec)) :=
  let '(l1, l2, l3) := matrix (lattice defstruct) in
  let trylist := [-1; 0; 1]%Z in
  let listvals :=
    flat_map (fun i => flat_map (fun j => map (fun k =>
      let transvec := lattice_vector l1 l2 l3 i j k in
      let rnew := vsub v (vadd defcell_def_ccoord transvec) in
      (norm rnew, (rnew, transvec))) trylist) trylist) trylist in
  py_index (sort_by_key listvals) 0.

(** The loop over [sitelist], once the defect position is known in the
    bulk cell ([def_ccoord]) and in the defect cell. *)
Definition disttrans_sites (struct defstruct : Structure)
    (def_ccoord defcell_def_ccoord : vec) : result (gmap Z SiteRecord) :=
  let sitelist :=
    if (length (sites defstruct) <=? length (sites struct))%nat
    then sites struct else sites defstruct in
  for_each (fun grid_sites i =>
    if array_equal (coords i) def_ccoord then Ret grid_sites
    else
      let '((_, blkindex), (defsite0, defindex)) :=
        closestsites struct defstruct (coords i) in
      let dcart_coord := coords defsite0 in
      closeimage ← returnclosestr defstruct defcell_def_ccoord dcart_coord;
      let cart_reldef := fst (snd closeimage) in
      let defdist := fst closeimage in
      Ret (<[blkindex :=
             {| dist := defdist; cart := dcart_coord;
                cart_reldef := cart_reldef;
                siteobj := (coords i, frac_coords i, species_string i);
                bulk_site_index := blkindex;
                def_site_index := defindex;
                OutsideWS := None; Vpc := None; Vqb := None |}]>
           grid_sites))
    sitelist ∅.

Definition disttrans (struct defstruct : Structure) (dim : Z * Z * Z)
  : result (option (gmap Z SiteRecord)) :=
  match find_defect_pos struct defstruct with
  | (None, None) => Ret None
  | (None, Some defsite) =>
      Some <$> disttrans_sites struct defstruct defsite defsite
  | (Some blksite, None) =>
      Some <$> disttrans_sites struct defstruct blksite blksite
  | (Some blksite, Some defsite) =>
      Some <$> disttrans_sites struct defstruct blksite defsite
  end.

End Disttrans.

Module KumagaiCorrection.

(** The object state after [__init__].  [bulk_potential] and
    [defect_potential] stand for the two sources of the site potentials
    ([outcar_blk] and [outcar_def], or [locpot_blk] and [locpot_def]):
    each is what [read_ES_avg] or [read_ES_avg_fromlocpot] does on it
    when [potalign] calls it, the ['potential'] entry of the dictionary
    returned or the exception raised (IOError for a file that cannot be
    opened, IndexError or ValueError for a file that is cut short,
    AttributeError for an object that was never given). *)
Record self : Type := {
  dieltens : mat3;
  q : R;
  gamma : R;
  g_sum : array3 R;
  structure : Structure;
  defstructure : Structure;
  madetol : R;
  dim : Z * Z * Z;
  bulk_potential : result (list R);
  defect_potential : result (list R)
}.

Section Methods.

Variable find_defect_pos : Structure -> Structure -> option vec * option vec.
Variable closestsites :
  Structure -> Structure -> vec -> (Site * Z) * (Site * Z).

Definition pc (s : self) : result R :=
  anisotropic_pc_energy (structure s) (g_sum s) (dieltens s)
                        (q s) (gamma s) (madetol s).

(** The second loop of [potalign]: the potentials of one site. *)
Definition site_potentials (s : self) (puredat defdat : list R)
    (title : bool)
    (d : gmap Z SiteRecord) (i : Z) : result (gmap Z SiteRecord) :=
  rec ← dict_item (d !! i);
  if negb title && negb (default false (OutsideWS rec)) then Ret d
  else
    let j := def_site_index rec in
    let k := bulk_site_index rec in
    vj ← py_index defdat j;
    vk ← py_index puredat k;
    let v_qb := vj - vk in
    v_pc ← anisotropic_madelung_potential
             (structure s) (dim s) (g_sum s) (cart_reldef rec)
             (dieltens s) (q s) (gamma s) (madetol s);
    let v_qb := v_qb * -1 in
    Ret (<[i := set_Vpc_Vqb v_pc v_qb rec]> d).

(** The third loop: the differences of the sites outside the radius. *)
Definition collect_forcorrection (title : bool)
    (d : gmap Z SiteRecord) (forcorrection : list R) (i : Z)
  : result (list R) :=
  rec ← dict_item (d !! i);
  if negb title && negb (default false (OutsideWS rec)) then Ret forcorrection
  else if default false (OutsideWS rec) then
    v_qb ← dict_item (Vqb rec);
    v_pc ← dict_item (Vpc rec);
    Ret (forcorrection ++ [v_qb - v_pc])
  else Ret forcorrection.

(** [potalign(title)].  [title] is the truth value of the argument;
    drawing or writing the plot data, done when it is true, is outside
    the model.  The keys of the dictionary are walked in the order of
    [map_to_list].  The site potentials of the bulk cell and then of
    the defect cell are read on every call, after the sites have been
    marked and before the loop that uses them. *)
Definition potalign (s : self) (title : bool) : result npfloat :=
  _ ← kumagai_init (structure s) (dieltens s);
  potinddict ← disttrans find_defect_pos closestsites
                 (structure s) (defstructure s) (dim s);
  wsrad ← wigner_seitz_radius (structure s);
  potinddict ← match potinddict with
               | Some d => Ret d
               | None => Raise AttributeError
               end;
  let keys := map fst (map_to_list potinddict) in
  let potinddict :=
    (fun rec =>
       set_OutsideWS (Rgtb (dist rec) wsrad) rec)
      <$> potinddict in
  puredat ← bulk_potential s;
  defdat ← defect_potential s;
  potinddict ← for_each (site_potentials s puredat defdat title)
                 keys potinddict;
  forcorrection ← for_each (collect_forcorrection title potinddict) keys [];
  Ret (np_scale (- q s) (np_mean forcorrection)).

(** [correction(title, partflag)]. *)
Definition correction (s : self) (title : bool) (partflag : string)
  : result CorrectionResult :=
  if negb (truthy (q s)) then
    if String.eqb partflag "AllSplit"
    then Ret (Triple (Real 0) (Real 0) (Real 0))
    else Ret (Scalar (Real 0))
  else
    energy_pc ← (if negb (String.eqb partflag "potalign")
                 then Some <$> pc s else Ret None);
    potalign_v ← (if negb (String.eqb partflag "pc")
                  then Some <$> potalign s title else Ret None);
    if String.eqb partflag "pc" then
      e ← local_var energy_pc; Ret (Scalar (Real (py_round5 e)))
    else if String.eqb partflag "potalign" then
      p ← local_var potalign_v; Ret (Scalar (np_round5 p))
    else if String.eqb partflag "All" then
      e ← local_var energy_pc; p ← local_var potalign_v;
      Ret (Scalar (np_round5 (np_add (Real e) p)))
    else
      e ← local_var energy_pc; p ← local_var potalign_v;
      Ret (Triple (Real (py_round5 e)) (np_round5 p)
                  (np_round5 (np_add (Real e) p))).

End Methods.

End KumagaiCorrection.

(** ** Complex numbers and [np.fft.fftn] *)

Definition C : Type := R * R.
Definition C0 : C := (0, 0).
Definition Cadd (z w : C) : C := (fst z + fst w, snd z + snd w).
Definition Cmul (z w : C) : C :=
  (fst z * fst w - snd z * snd w, fst z * snd w + snd z * fst w).
Definition Cscale (c : R) (z : C) : C := (c * fst z, c * snd z).
Definition Cre (z : C) : R := fst z.
Definition Cim (z : C) : R := snd z.
Definition of_real (x : R) : C := (x, 0).
(** exp(i theta). *)
Definition cis (theta : R) : C := (cos theta, sin theta).

Definition Csum (l : list C) : C := fold_right Cadd C0 l.

Definition array3_map {A B : Type} (f : A -> B) (g : array3 A) : array3 B :=
  map (map (map f)) g.

(** The array of shape (n1, n2, n3) whose entry at (a, b, c) is f a b c. *)
Definition array3_tabulate {A : Type} (n1 n2 n3 : nat) (f : nat -> nat -> nat -> A)
  : array3 A :=
  map (fun a => map (fun b => map (fun c => f a b c) (seq 0 n3)) (seq 0 n2))
      (seq 0 n1).

(** The shape of an array, read off its first plane and row. *)
Definition array3_shape {A : Type} (g : array3 A) : nat * nat * nat :=
  (length g, length (default [] (head g)),
   length (default [] (head (default [] (head g))))).

(** The forward discrete Fourier transform over the three axes:
    out[p,q,r] = sum over a,b,c of g[a,b,c] exp(-2 pi i (pa/n1 + qb/n2 + rc/n3)).
    An axis without a point raises ValueError. *)
Definition np_fft_fftn (g : array3 C) : result (array3 C) :=
  let '(n1, n2, n3) := array3_shape g in
  if ((n1 =? 0) || (n2 =? 0) || (n3 =? 0))%nat then Raise ValueError
  else
    Ret (array3_tabulate n1 n2 n3 (fun p q r =>
      Csum (imap (fun a plane =>
        Csum (imap (fun b row =>
          Csum (imap (fun c z =>
            Cmul z (cis (- (2 * PI * (INR p * INR a / INR n1
                                      + INR q * INR b / INR n2
                                      + INR r * INR c / INR n3)))))
            row)) plane)) g))).

(** [np.zeros(dim)]: a negative dimension raises ValueError. *)
Definition np_zeros {A : Type} (zero : A) (dim : Z * Z * Z) : result (array3 A) :=
  let '(nx, ny, nz) := dim in
  if ((nx <? 0) || (ny <? 0) || (nz <? 0))%Z then Raise ValueError
  else Ret (replicate (Z.to_nat nx)
              (replicate (Z.to_nat ny) (replicate (Z.to_nat nz) zero))).

(** The position an index names in a list of length n: a negative index
    counts from the end, IndexError out of range. *)
Definition py_position (n : nat) (i : Z) : result nat :=
  let i' := (if i <? 0 then i + Z.of_nat n else i)%Z in
  if ((i' <? 0) || (Z.of_nat n <=? i'))%Z then Raise IndexError
  else Ret (Z.to_nat i').

(** [g[i, j, k] = v]. *)
Definition array3_set {A : Type} (g : array3 A) (i j k : Z) (v : A)
  : result (array3 A) :=
  a ← py_position (length g) i;
  plane ← py_index g i;
  b ← py_position (length plane) j;
  row ← py_index plane j;
  c ← py_position (length row) k;
  Ret (<[a := <[b := <[c := v]> row]> plane]> g).

(** ** [KumagaiBulkInit] *)

(** The second component of what [do_summation] returns: [None], the
    string ['Try Again'], or a float. *)
Inductive optgamma_val : Type :=
| OptNone
| TryAgain
| OptFloat (g : R).

Module KumagaiBulkInit.

Record self : Type := {
  structure : Structure;
  dim : Z * Z * Z;
  epsilon : mat3;
  encut : R;
  tolerance : R;
  gamma : option R
}.

Section Methods.

(** [genrecip] of [pycdt.corrections.utils]: the reciprocal lattice
    vectors below an energy cutoff. *)
Variable genrecip : vec -> vec -> vec -> Z -> list vec.

Section FindOptimalGamma.

Variable s : self.
Variables a1 a2 a3 : vec.
Variable vol : R.

(** [get_recippart(encut, gamma)].  [math.exp] is [exp], as in
    [reciprocal_sum]. *)
Definition get_recippart (encut : Z) (gamma : R) : R * R :=
  let recippart :=
    fold_left (fun recippart rec =>
      let Gdotdiel := dot rec (mat_vec (epsilon s) rec) in
      let summand := exp (- Gdotdiel / (4 * (gamma ^ 2))) / Gdotdiel in
      recippart + summand)
      (genrecip a1 a2 a3 encut) 0 in
  (recippart * (4 * PI / vol), 0).

(** The while loop of [do_summation]; [None] when the passes
    given do not finish it. *)
Fixpoint converge_while (passes : nat) (gamma : R) (encut_now : Z)
    (converge : R * R) (recippartreal recippartimag : R)
  : option (result (Z * (R * R) * R * R)) :=
  if Rgt_dec (Rabs (Rabs (fst converge) - Rabs (snd converge)) * hart_to_ev)
             (tolerance s)
  then
    match passes with
    | O => None
    | S passes' =>
        let encut_now := (encut_now + 10)%Z in
        let '(recippartreal, recippartimag) := get_recippart encut_now gamma in
        let converge := (snd converge, recippartreal) in
        if Rgt_dec (IZR encut_now) (encut s) then Some (Raise ValueError)
        else converge_while passes' gamma encut_now converge
                            recippartreal recippartimag
    end
  else Some (Ret (encut_now, converge, recippartreal, recippartimag)).

(** Passes that always finish the loop: each one raises the cutoff
    by 10 and the loop raises once it is above [self.encut]. *)
Definition converge_passes : nat := S (Z.to_nat (Zfloor (encut s / 10))).

Definition do_summation (gamma : R)
  : option (result (option R * optgamma_val)) :=
  let optgam : option R := None in
  let encut_now := 20%Z in
  let '(recippartreal1, recippartimag1) := get_recippart encut_now gamma in
  let encut_now := (encut_now + 10)%Z in
  let '(recippartreal, recippartimag) := get_recippart encut_now gamma in
  let converge := (recippartreal1, recippartreal) in
  match converge_while converge_passes gamma encut_now converge
                       recippartreal recippartimag with
  | None => None
  | Some (Raise e) => Some (Raise e)
  | Some (Ret (encut_now, converge, recippartreal, recippartimag)) =>
      if Rgt_dec (Rabs recippartimag * hart_to_ev) (tolerance s)
      then Some (Ret (None, OptNone))
      else if Rltb (Rabs (snd converge) * hart_to_ev) 1
              && negb (bool_decide (is_Some optgam))
      then Some (Ret (None, TryAgain))
      else Some (Ret (Some recippartreal, OptFloat gamma))
  end.

(** [optgamma == gamma]. *)
Definition optgamma_eq (optgamma : optgamma_val) (gamma : R) : bool :=
  match optgamma with
  | OptFloat g => if Req_dec_T g gamma then true else false
  | _ => false
  end.

(** ['Try Again' in optgamma]: TypeError unless [optgamma] is a string. *)
Definition try_again_in (optgamma : optgamma_val) : result bool :=
  match optgamma with
  | TryAgain => Ret true
  | _ => Raise TypeError
  end.

(** The outer while loop; [None] when the passes given do not
    finish it. *)
Fixpoint gamma_while (passes : nat) (gamma : R)
  : option (result (option optgamma_val)) :=
  match passes with
  | O => None
  | S passes' =>
      match do_summation gamma with
      | None => None
      | Some (Raise e) => Some (Raise e)
      | Some (Ret (recippartreal, optgamma)) =>
          if optgamma_eq optgamma gamma then
            if Rgt_dec gamma 50 then Some (Ret None)
            else Some (Ret (Some optgamma))
          else
            match try_again_in optgamma with
            | Raise e => Some (Raise e)
            | Ret true =>
                let gamma := gamma * (3 / 2) in
                if Rgt_dec gamma 50 then Some (Ret None)
                else gamma_while passes' gamma
            | Ret false => Some (Ret None)
            end
      end
  end.

End FindOptimalGamma.

(** Passes that finish the outer loop from a positive [gamma]. *)
Definition gamma_passes (gamma : R) : nat := S (Z.to_nat (up (100 / gamma))).

(** [find_optimal_gamma()], for a cell of positive volume. *)
Definition find_optimal_gamma (s : self)
  : option (result (option optgamma_val)) :=
  match kumagai_init (structure s) (epsilon s) with
  | Raise e => Some (Raise e)
  | Ret (angset, (a1, a2, a3), vol, determ, invdiel) =>
      let gamma := 5 / Rpower vol (1 / 3) in
      gamma_while s a1 a2 a3 vol (gamma_passes gamma) gamma
  end.

(** The signed indices along one axis: [np.arange(n)] with the
    entries from [n/2] on lowered by [n]. *)
Definition signed_indices (n : Z) : list Z :=
  fold_left (fun ind i => <[Z.to_nat i := (i - n)%Z]> ind)
            (py_range (n / 2) n) (py_range 0 n).

(** [reciprocal_sum()].  The largest imaginary part is only logged; on
    a grid without a point [np.fft.fftn] has raised before it is
    taken.  [math.exp] is [exp]: the OverflowError that it raises on an
    argument above 709.78 is outside the model, and the properties
    below keep the exponent negative. *)
Definition reciprocal_sum (s : self) : result (array3 R) :=
  let over_atob := 1 / ang_to_bohr in
  let atob3 := ang_to_bohr ^ 3 in
  let latt := lattice (structure s) in
  let vol := volume latt * atob3 in
  let '(b1, b2, b3) := reciprocal_lattice latt in
  let b1 := smul over_atob b1 in
  let b2 := smul over_atob b2 in
  let b3 := smul over_atob b3 in
  let '(nx, ny, nz) := dim s in
  let ind1 := signed_indices nx in
  let ind2 := signed_indices ny in
  let ind3 := signed_indices nz in
  g_array ← np_zeros C0 (dim s);
  gamma ← float_operand (gamma s);
  let gamm2 := 4 * (gamma ^ 2) in
  g_array ← for_each (fun g_array i =>
    for_each (fun g_array j =>
      for_each (fun g_array k =>
        let g := lattice_vector b1 b2 b3 i j k in
        let g_eps_g := dot g (mat_vec (epsilon s) g) in
        if ((i =? j) && (j =? k) && (k =? 0))%Z then Ret g_array
        else array3_set g_array i j k
                        (of_real (exp (- g_eps_g / gamm2) / g_eps_g)))
        ind3 g_array) ind2 g_array) ind1 g_array;
  r_array ← np_fft_fftn g_array;
  let over_vol := 4 * PI / vol in
  let r_array := array3_map (Cscale over_vol) r_array in
  let r_arr_real := array3_map Cre r_array in
  Ret r_arr_real.

End Methods.

End KumagaiBulkInit.

(** * The rest of the module

    The functions of [kumagai_correction.py] beside the ones above:
    [getgridind] with a sampling radius, [read_ES_avg] on the text of
    the file, [read_ES_avg_fromlocpot] and the constructor of
    [KumagaiBulkInit]. *)

(** ** [getgridind] with a sampling radius *)

(** What a function returns or raises, with the OverflowError of [int]
    on an infinite float beside the exceptions of [exn]. *)
Inductive outcome (A : Type) : Type :=
| Returns (a : A)
| Raises (e : exn)
| RaisesOverflowError.
Arguments Returns {A} a.
Arguments Raises {A} e.
Arguments RaisesOverflowError {A}.

#[global] Instance outcome_ret : MRet outcome := fun A a => Returns a.
#[global] Instance outcome_bind : MBind outcome :=
  fun A B f c =>
    match c with
    | Returns a => f a
    | Raises e => Raises e
    | RaisesOverflowError => RaisesOverflowError
    end.

(** A result as an outcome. *)
Definition of_result {A : Type} (c : result A) : outcome A :=
  match c with Ret a => Returns a | Raise e => Raises e end.

(** What [getgridind] returns: the list of the three indices, or, with a
    sampling radius, the list of the index triples within the radius. *)
Inductive grdind : Type :=
| GridIndex (ind : Z * Z * Z)
| GridIndices (l : list (Z * Z * Z)).

(** One pass of the loop over the axes, for any [gridavg]: the index
    along the axis and, when [gridavg] is not zero, the radius in grid
    steps [int(np.ceil(gridavg / dx))] with the grid step [dx].  The
    lengths of the lattice are NumPy floats: with a grid step of zero
    the quotient is infinite and [int] raises OverflowError. *)
Definition grid_axis (gridavg abc_i : R) (num_pts : Z) (r_i : R)
  : outcome (Z * option (Z * R)) :=
  let r_i := wrap_unit r_i * abc_i in
  let x := grid_points abc_i num_pts in
  x1 ← of_result (py_index x 1);
  x0 ← of_result (py_index x 0);
  let dx := x1 - x0 in
  let x_rprojection_delta_abs := map (fun xn => Rabs (xn - r_i)) x in
  ind ← of_result (np_argmin x_rprojection_delta_abs);
  d ← of_result (py_index x_rprojection_delta_abs (Z.of_nat ind));
  if Rgt_dec d (dx * (11 / 10)) then Raises ValueError
  else if truthy gridavg then
    if Req_dec_T dx 0 then RaisesOverflowError
    else Returns (Z.of_nat ind, Some (Zceil (gridavg / dx), dx))
  else Returns (Z.of_nat ind, None).

(** The three loops over the index offsets: the index triples around
    [grdind] whose grid displacement is shorter than [gridavg], wrapped
    into the grid. *)
Definition indices_within (gridavg : R) (dim grdind radvals : Z * Z * Z)
    (dxvals : vec) : list (Z * Z * Z) :=
  let '(dim0, dim1, dim2) := dim in
  let '(ind0, ind1, ind2) := grdind in
  let '(rad0, rad1, rad2) := radvals in
  let '(dx0, dx1, dx2) := dxvals in
  flat_map (fun i =>
    flat_map (fun j =>
      flat_map (fun k =>
        let dtoc := (IZR i * dx0, IZR j * dx1, IZR k * dx2) in
        if Rlt_dec (norm dtoc) gridavg then
          [((i + ind0) mod dim0, (j + ind1) mod dim1, (k + ind2) mod dim2)%Z]
        else [])
        (py_range (- rad2) (rad2 + 1)))
      (py_range (- rad1) (rad1 + 1)))
    (py_range (- rad0) (rad0 + 1)).

(** [getgridind(structure, dim, r, gridavg)]. *)
Definition getgridind_gridavg (structure : Structure) (dim : Z * Z * Z) (r : vec)
    (gridavg : R) : outcome grdind :=
  let '(abc1, abc2, abc3) := abc (lattice structure) in
  let '(dim1, dim2, dim3) := dim in
  let '(r1, r2, r3) := r in
  a1 ← grid_axis gridavg abc1 dim1 r1;
  a2 ← grid_axis gridavg abc2 dim2 r2;
  a3 ← grid_axis gridavg abc3 dim3 r3;
  match a1, a2, a3 with
  | (i, Some (rad0, dx0)), (j, Some (rad1, dx1)), (k, Some (rad2, dx2)) =>
      Returns (GridIndices
                 (indices_within gridavg dim (i, j, k) (rad0, rad1, rad2)
                                 (dx0, dx1, dx2)))
  | (i, _), (j, _), (k, _) => Returns (GridIndex (i, j, k))
  end.

(** ** [read_ES_avg]

    The function reads the file at a path; the model takes the text that
    [file.read()] returns.  [int] and [float] of a word are parameters. *)

(** The character of the line feed. *)
Definition newline : Ascii.ascii := Ascii.ascii_of_nat 10.

(** [sub in s] on strings. *)
Fixpoint py_in (sub s : string) : bool :=
  String.prefix sub s
  || match s with
     | EmptyString => false
     | String _ s' => py_in sub s'
     end.

(** [s.split(sep)] for a separator of one character. *)
Fixpoint py_split_on (sep : Ascii.ascii) (s : string) : list string :=
  match s with
  | EmptyString => [EmptyString]
  | String c s' =>
      if Ascii.eqb c sep then EmptyString :: py_split_on sep s'
      else match py_split_on sep s' with
           | [] => [String c EmptyString]
           | word :: words => String c word :: words
           end
  end.

(** The whitespace of [str.split()]: the space and the characters from
    the tabulator to the carriage return. *)
Definition py_isspace (c : Ascii.ascii) : bool :=
  let n := Ascii.nat_of_ascii c in
  (n =? 32)%nat || ((9 <=? n)%nat && (n <=? 13)%nat).

(** [s.split()] from a position where the characters of [word], last
    one first, have been read since the last whitespace. *)
Fixpoint py_split_from (s : string) (word : list Ascii.ascii) : list string :=
  match s with
  | EmptyString =>
      match word with
      | [] => []
      | _ :: _ => [string_of_list_ascii (rev word)]
      end
  | String c s' =>
      if py_isspace c then
        match word with
        | [] => py_split_from s' []
        | _ :: _ => string_of_list_ascii (rev word) :: py_split_from s' []
        end
      else py_split_from s' (c :: word)
  end.

(** [s.split()]: the words between runs of whitespace. *)
Definition py_split (s : string) : list string := py_split_from s [].

(** [l[::2]]. *)
Fixpoint every_second {A : Type} (l : list A) : list A :=
  match l with
  | x :: _ :: l' => x :: every_second l'
  | _ => l
  end.

(** [map(f, l)] of Python 2 for an [f] that may raise. *)
Fixpoint py_map {A B : Type} (f : A -> result B) (l : list A) : result (list B) :=
  match l with
  | [] => Ret []
  | x :: l' => y ← f x; ys ← py_map f l'; Ret (y :: ys)
  end.

(** The dictionary that [read_ES_avg] returns. *)
Record outcar_ES_data : Type := {
  outcar_sampling_radii : list R;
  outcar_ngxf_dims : list Z;
  outcar_potential : list R
}.

(** The body of the loop over the numbered lines, on
    [(start_line, end_line, ngxf_line)]. *)
Definition scan_line (st : Z * Z * Z) (line_num : Z) (line : string) : Z * Z * Z :=
  let '(start_line, end_line, ngxf_line) := st in
  if py_in "dimension x,y,z NGXF" line then (start_line, end_line, line_num)
  else if py_in "average (electrostatic) potential at core" line
       then (line_num, 0%Z, ngxf_line)
  else if negb (start_line =? 0)%Z && (end_line =? 0)%Z
          && (length (py_split line) =? 0)%nat
       then (start_line, line_num, ngxf_line)
  else st.

(** [for line_num, line in enumerate(out_dat)], from the line
    [line_num] on. *)
Fixpoint scan_lines (line_num : Z) (out_dat : list string) (st : Z * Z * Z)
  : Z * Z * Z :=
  match out_dat with
  | [] => st
  | line :: rest => scan_lines (line_num + 1) rest (scan_line st line_num line)
  end.

Section ReadESAvg.

(** [int] and [float] of a string. *)
Variable py_int : string -> result Z.
Variable py_float : string -> result R.

(** [read_ES_avg], of the text of the file. *)
Definition read_ES_avg (tmp_out_dat : string) : result outcar_ES_data :=
  let out_dat := py_split_on newline tmp_out_dat in
  let '(start_line, end_line, ngxf_line) := scan_lines 0 out_dat (0, 0, 0)%Z in
  ngxf ← py_index out_dat ngxf_line;
  let ngxlineout := py_split ngxf in
  ngxf_dims ← py_map py_int (every_second (take 5 (drop 3 ngxlineout)));
  rad ← py_index out_dat (start_line + 1);
  let rad_line := py_split rad in
  radii ← py_map py_float (drop 5 rad_line);
  pot ← for_each (fun pot line_num =>
                    l ← py_index out_dat line_num;
                    let line := py_split l in
                    avg_es ← py_map py_float (every_second (drop 1 line));
                    Ret (pot ++ avg_es))
                 (py_range (start_line + 3) end_line) [];
  Ret {| outcar_sampling_radii := radii; outcar_ngxf_dims := ngxf_dims;
         outcar_potential := pot |}.

End ReadESAvg.

(** ** [read_ES_avg_fromlocpot] *)

Module Locpot.

(** The attributes of a pymatgen Locpot that are read: the structure,
    the grid dimensions and the array [data["total"]]. *)
Record self : Type := {
  structure : Structure;
  dim : Z * Z * Z;
  data_total : array3 R
}.

End Locpot.

(** The dictionary that [read_ES_avg_fromlocpot] returns. *)
Record ES_data : Type := {
  sampling_radii : gmap string R;
  ngxf_dims : Z * Z * Z;
  potential : list npfloat
}.

(** The sampling radii: 1.0 for every species of the structure, a
    species named by its string. *)
Definition unit_radii (structure : Structure) : gmap string R :=
  list_to_map (map (fun site => (species_string site, 1)) (sites structure)).

(** The values of the array at the index triples. *)
Definition sample_values (data : array3 R) (indexlist : list (Z * Z * Z))
  : result (list R) :=
  for_each (fun samplevals '(u, v, w) =>
              x ← array3_index data u v w; Ret (samplevals ++ [x]))
           indexlist [].

(** The loop over the sites, from the list [pot] built so far.  The
    list of three indices that [getgridind] returns without a radius
    cannot be unpacked into triples. *)
Fixpoint site_averages (locpot : Locpot.self) (radii : gmap string R)
    (l : list Site) (pot : list npfloat) : outcome (list npfloat) :=
  match l with
  | [] => Returns pot
  | site :: l' =>
      radius ← of_result (dict_item (radii !! species_string site));
      indexlist ← getgridind_gridavg (Locpot.structure locpot) (Locpot.dim locpot)
                     (frac_coords site) radius;
      match indexlist with
      | GridIndex _ => Raises TypeError
      | GridIndices indexlist =>
          samplevals ← of_result (sample_values (Locpot.data_total locpot) indexlist);
          site_averages locpot radii l' (pot ++ [np_mean samplevals])
      end
  end.

Definition read_ES_avg_fromlocpot (locpot : Locpot.self) : outcome ES_data :=
  let structure := Locpot.structure locpot in
  let radii := unit_radii structure in
  pot ← site_averages locpot radii (sites structure) [];
  Returns {| sampling_radii := radii; ngxf_dims := Locpot.dim locpot;
             potential := pot |}.

(** ** [KumagaiBulkInit.__init__] *)

(** What [find_optimal_gamma] hands back, as the attribute [self.gamma]:
    the float, or [None]. *)
Definition gamma_attribute (optgamma : option optgamma_val) : option R :=
  match optgamma with
  | Some (OptFloat g) => Some g
  | _ => None
  end.

(** [KumagaiBulkInit(structure, dim, epsilon, encut, tolerance,
    optgamma)]: the object and its attribute [g_sum].  [optgamma] is
    [None] for the default [False]; a gamma of zero counts as not
    given. *)
Definition KumagaiBulkInit__init__
    (genrecip : vec -> vec -> vec -> Z -> list vec)
    (structure : Structure) (dim : Z * Z * Z) (epsilon : mat3)
    (encut tolerance : R) (optgamma : option R)
  : option (result (KumagaiBulkInit.self * array3 R)) :=
  let self gamma :=
    {| KumagaiBulkInit.structure := structure; KumagaiBulkInit.dim := dim;
       KumagaiBulkInit.epsilon := epsilon; KumagaiBulkInit.encut := encut;
       KumagaiBulkInit.tolerance := tolerance; KumagaiBulkInit.gamma := gamma |} in
  let found :=
    if negb (match optgamma with Some g => truthy g | None => false end)
    then match KumagaiBulkInit.find_optimal_gamma genrecip (self None) with
         | None => None
         | Some c => Some (gamma_attribute <$> c)
         end
    else Some (Ret optgamma) in
  match found with
  | None => None
  | Some c =>
      Some (gamma ← c;
            g_sum ← KumagaiBulkInit.reciprocal_sum (self gamma);
            Ret (self gamma, g_sum))
  end.

(** ** [KumagaiCorrection.__init__]: a scalar dielectric constant *)

(** [np.identity(3) * dielectric_tensor]: the tensor that the
    constructor stores, and that [kumagai_init] works with, when the
    dielectric constant is one number. *)
Definition np_identity3_times (c : R) : mat3 :=
  ((1 * c, 0 * c, 0 * c), (0 * c, 1 * c, 0 * c), (0 * c, 0 * c, 1 * c)).

(** * Definitions for the properties *)

(** ** The cell in Bohr *)

(** The rows of the lattice matrix times [ang_to_bohr], as
    [kumagai_init] derives them. *)
Definition bohr_rows (structure : Structure) : mat3 :=
  let '(r1, r2, r3) := matrix (lattice structure) in
  (smul ang_to_bohr r1, smul ang_to_bohr r2, smul ang_to_bohr r3).

(** The volume [a1 . (a2 x a3)] of the cell in Bohr. *)
Definition bohr_volume (structure : Structure) : R := det3 (bohr_rows structure).

(** ** The shells of the real-space sum *)

(** The entry of [r_sums] for shell N. *)
Definition scaled_shell (shell : Z -> R) (realpre : R) (N : Z) : R :=
  realpre * shell N.

(** The change of the absolute value from shell N - 1 to shell N. *)
Definition shell_change (shell : Z -> R) (realpre : R) (N : Z) : R :=
  Rabs (Rabs (scaled_shell shell realpre N)
        - Rabs (scaled_shell shell realpre (N - 1))).

(** The loop without its list: the first shell, from the fourth pass
    on and below the cap, whose change is under the tolerance. *)
Fixpoint first_accepted (shell : Z -> R) (realpre tolerance : R) (todo : nat)
  : option R :=
  match todo with
  | O => None
  | S todo' =>
      let N := (Nmaxlength - Z.of_nat todo)%Z in
      if (N =? Nmaxlength - 1)%Z then None
      else if (5 <=? N)%Z && Rltb (shell_change shell realpre N) tolerance
           then Some (scaled_shell shell realpre N)
           else first_accepted shell realpre tolerance todo'
  end.



(** ** The images of the defect *)

(** The first entry has the least key. *)
Definition head_least {A : Type} (l : list (R * A)) : Prop :=
  match l with
  | [] => True
  | h :: _ => forall y, In y l -> fst h <= fst y
  end.

(** The displacement of v from the image of the defect moved by the
    lattice translation (i, j, k). *)
Definition image_displacement (defstruct : Structure)
    (defcell_def_ccoord v : vec) (i j k : Z) : vec :=
  let '(l1, l2, l3) := matrix (lattice defstruct) in
  vsub v (vadd defcell_def_ccoord (lattice_vector l1 l2 l3 i j k)).

(** The site of the defect cell that [closestsites] pairs with a position. *)
Definition paired_defect_site
    (closestsites : Structure -> Structure -> vec -> (Site * Z) * (Site * Z))
    (struct defstruct : Structure) (pos : vec) : Site :=
  fst (snd (closestsites struct defstruct pos)).

(** ** The records of [potalign] *)

(** Every key of the list names a record marked as not outside. *)
Definition all_marked_inside (keys : list Z) (d : gmap Z SiteRecord) : Prop :=
  forall i, In i keys ->
            exists rec, d !! i = Some rec /\ OutsideWS rec = Some false.

(** ** The grid index of a position *)

(** The index is that of a grid point nearest to the position, wrapped
    into the cell, among the grid points of the axis. *)
Definition nearest_grid_index (abc_i : R) (num_pts : Z) (f : R) (ind : Z) : Prop :=
  (0 <= ind < num_pts)%Z
  /\ forall m : Z,
       (0 <= m < num_pts)%Z ->
       Rabs (IZR ind / IZR num_pts * abc_i - wrap_unit f * abc_i)
       <= Rabs (IZR m / IZR num_pts * abc_i - wrap_unit f * abc_i).

(** ** The table the loops of [reciprocal_sum] leave *)

(** The signed multiple that the grid index a stands for on an axis of
    n points: the indices from n/2 on are lowered by n. *)
Definition signed_index (n a : Z) : Z :=
  if (a <? n / 2)%Z then a else (a - n)%Z.

(** The body of the innermost loop: an entry is skipped or assigned. *)
Definition grid_body {A : Type} (skip : Z -> Z -> Z -> bool)
    (val : Z -> Z -> Z -> A) (g : array3 A) (i j k : Z) : result (array3 A) :=
  if skip i j k then Ret g else array3_set g i j k (val i j k).

(** The position (a, b, c) is passed when the loops stand at (a0, b0, c0). *)
Definition passed (a0 b0 c0 a b c : nat) : bool :=
  ((a <? a0) || ((a =? a0) && ((b <? b0) || ((b =? b0) && (c <? c0)))))%nat.

(** The entry that the loops leave at the position (a, b, c). *)
Definition grid_entry {A : Type} (zero : A) (n1 n2 n3 : nat)
    (skip : Z -> Z -> Z -> bool) (val : Z -> Z -> Z -> A) (a b c : nat) : A :=
  let i := signed_index (Z.of_nat n1) (Z.of_nat a) in
  let j := signed_index (Z.of_nat n2) (Z.of_nat b) in
  let k := signed_index (Z.of_nat n3) (Z.of_nat c) in
  if skip i j k then zero else val i j k.

(** The array when the loops stand at (a0, b0, c0). *)
Definition partial_grid {A : Type} (zero : A) (n1 n2 n3 : nat)
    (skip : Z -> Z -> Z -> bool) (val : Z -> Z -> Z -> A) (a0 b0 c0 : nat)
  : array3 A :=
  array3_tabulate n1 n2 n3 (fun a b c =>
    if passed a0 b0 c0 a b c then grid_entry zero n1 n2 n3 skip val a b c
    else zero).

(** The function whose table an assignment to one entry leaves. *)
Definition update3 {A : Type} (f : nat -> nat -> nat -> A) (a b c : nat) (v : A)
  : nat -> nat -> nat -> A :=
  fun a' b' c' =>
    if ((a' =? a) && (b' =? b) && (c' =? c))%nat then v else f a' b' c'.

(** The entry of the reciprocal array at the grid position (a, b, c):
    zero where the three signed indices are zero, and otherwise
    exp(-g.D.g / 4 gamma^2) / (g.D.g) for g = i b1 + j b2 + k b3, with
    the signed indices i, j, k and b1, b2, b3 per Bohr. *)
Definition reciprocal_entry (s : KumagaiBulkInit.self) (gamma : R) (a b c : nat) : C :=
  let '(nx, ny, nz) := KumagaiBulkInit.dim s in
  let '(b1, b2, b3) := reciprocal_lattice (lattice (KumagaiBulkInit.structure s)) in
  let b1 := smul (1 / ang_to_bohr) b1 in
  let b2 := smul (1 / ang_to_bohr) b2 in
  let b3 := smul (1 / ang_to_bohr) b3 in
  let i := signed_index nx (Z.of_nat a) in
  let j := signed_index ny (Z.of_nat b) in
  let k := signed_index nz (Z.of_nat c) in
  let g := lattice_vector b1 b2 b3 i j k in
  let g_eps_g := dot g (mat_vec (KumagaiBulkInit.epsilon s) g) in
  if ((i =? j) && (j =? k) && (k =? 0))%Z then C0
  else of_real (exp (- g_eps_g / (4 * gamma ^ 2)) / g_eps_g).

(** The quadratic form g.D.g of [reciprocal_sum] for the signed indices
    (i, j, k): g = i b1 + j b2 + k b3 with b1, b2, b3 per Bohr. *)
Definition reciprocal_form (s : KumagaiBulkInit.self) (i j k : Z) : R :=
  let '(b1, b2, b3) := reciprocal_lattice (lattice (KumagaiBulkInit.structure s)) in
  let g := lattice_vector (smul (1 / ang_to_bohr) b1) (smul (1 / ang_to_bohr) b2)
             (smul (1 / ang_to_bohr) b3) i j k in
  dot g (mat_vec (KumagaiBulkInit.epsilon s) g).

(** The objects on which every float operation of [reciprocal_sum] has
    a finite result: gamma and the volume are not zero, and the form
    g.D.g is positive for every index triple of the loops other than
    (0, 0, 0), so that [math.exp] is called on a negative number and
    nothing is divided by zero. *)
Definition finite_reciprocal_terms (s : KumagaiBulkInit.self) (gamma : R) : Prop :=
  let '(nx, ny, nz) := KumagaiBulkInit.dim s in
  gamma <> 0
  /\ volume (lattice (KumagaiBulkInit.structure s)) <> 0
  /\ forall i j k : Z,
       In i (KumagaiBulkInit.signed_indices nx) ->
       In j (KumagaiBulkInit.signed_indices ny) ->
       In k (KumagaiBulkInit.signed_indices nz) ->
       ~ (i = 0 /\ j = 0 /\ k = 0)%Z ->
       0 < reciprocal_form s i j k.

(** ** The grid and its indices *)

(** No axis of the cell has a negative length. *)
Definition nonneg_lengths (structure : Structure) : Prop :=
  let '(abc1, abc2, abc3) := abc (lattice structure) in
  0 <= abc1 /\ 0 <= abc2 /\ 0 <= abc3.

(** Every axis of the cell has a positive length. *)
Definition positive_lengths (structure : Structure) : Prop :=
  let '(abc1, abc2, abc3) := abc (lattice structure) in
  0 < abc1 /\ 0 < abc2 /\ 0 < abc3.

(** The grid has at least two points along every axis. *)
Definition two_points_per_axis (dim : Z * Z * Z) : Prop :=
  let '(dim1, dim2, dim3) := dim in (2 <= dim1 /\ 2 <= dim2 /\ 2 <= dim3)%Z.

(** The index triple names a point of the grid. *)
Definition in_grid (dim : Z * Z * Z) (ind : Z * Z * Z) : Prop :=
  let '(dim1, dim2, dim3) := dim in
  let '(i, j, k) := ind in
  (0 <= i < dim1 /\ 0 <= j < dim2 /\ 0 <= k < dim3)%Z.

(** The array has an entry at every point of the grid. *)
Definition covers_grid (data : array3 R) (dim : Z * Z * Z) : Prop :=
  forall ind : Z * Z * Z,
    in_grid dim ind ->
    let '(u, v, w) := ind in exists x : R, array3_index data u v w = Ret x.

(** The sum of f over the positions of a grid of shape (n1, n2, n3). *)
Definition grid_sum (n1 n2 n3 : nat) (f : nat -> nat -> nat -> R) : R :=
  fold_right Rplus 0
    (map (fun a => fold_right Rplus 0
       (map (fun b => fold_right Rplus 0 (map (fun c => f a b c) (seq 0 n3)))
            (seq 0 n2)))
       (seq 0 n1)).

(** The sum that [np_fft_fftn] forms at the position (p, q, r) of the
    table of f. *)
Definition fourier_sum (n1 n2 n3 : nat) (f : nat -> nat -> nat -> C) (p q r : nat) : C :=
  Csum (map (fun a =>
    Csum (map (fun b =>
      Csum (map (fun c =>
        Cmul (f a b c)
             (cis (- (2 * PI * (INR p * INR a / INR n1
                                + INR q * INR b / INR n2
                                + INR r * INR c / INR n3)))))
        (seq 0 n3))) (seq 0 n2))) (seq 0 n1)).

(** ** The table of [disttrans] *)

(** The positions of the defect in the bulk cell and in the defect cell
    that [disttrans] measures from: a position that was not found is
    replaced by the other. *)
Definition defect_positions (found : option vec * option vec)
  : option (vec * vec) :=
  match found with
  | (None, None) => None
  | (None, Some defsite) => Some (defsite, defsite)
  | (Some blksite, None) => Some (blksite, blksite)
  | (Some blksite, Some defsite) => Some (blksite, defsite)
  end.

(** What [disttrans] keeps of a site: the record at the key is the
    record of a site that is not at the defect, paired by [closestsites]
    with the sites of the two cells; its displacement is that from an
    image of the defect in the cell or a neighbouring one, and no such
    image is closer. *)
Definition site_record_of
    (closestsites : Structure -> Structure -> vec -> (Site * Z) * (Site * Z))
    (struct defstruct : Structure) (def_ccoord defcell_def_ccoord : vec)
    (blkindex : Z) (rec : SiteRecord) : Prop :=
  exists (site : Site) (i j k : Z),
    (In site (sites struct) \/ In site (sites defstruct))
    /\ array_equal (coords site) def_ccoord = false
    /\ (-1 <= i <= 1)%Z /\ (-1 <= j <= 1)%Z /\ (-1 <= k <= 1)%Z
    /\ rec
       = {| dist := norm (image_displacement defstruct defcell_def_ccoord
                            (coords (paired_defect_site closestsites struct defstruct
                                       (coords site))) i j k);
            cart := coords (paired_defect_site closestsites struct defstruct
                              (coords site));
            cart_reldef := image_displacement defstruct defcell_def_ccoord
                             (coords (paired_defect_site closestsites struct defstruct
                                        (coords site))) i j k;
            siteobj := (coords site, frac_coords site, species_string site);
            bulk_site_index := blkindex;
            def_site_index := snd (snd (closestsites struct defstruct (coords site)));
            OutsideWS := None; Vpc := None; Vqb := None |}
    /\ snd (fst (closestsites struct defstruct (coords site))) = blkindex
    /\ forall i' j' k' : Z,
         (-1 <= i' <= 1)%Z -> (-1 <= j' <= 1)%Z -> (-1 <= k' <= 1)%Z ->
         dist rec
         <= norm (image_displacement defstruct defcell_def_ccoord (cart rec) i' j' k').

(** ** The sites that [potalign] samples *)

(** The difference that [potalign] appends for a site, from the site
    potentials [puredat] and [defdat] that it has read for the bulk and
    the defect cell: minus the difference of the site potentials of the
    defect and the bulk cell, less the Madelung potential at the site. *)
Definition sampled_difference (s : KumagaiCorrection.self)
    (puredat defdat : list R) (rec : SiteRecord) : result R :=
  vj ← py_index defdat (def_site_index rec);
  vk ← py_index puredat (bulk_site_index rec);
  v_pc ← anisotropic_madelung_potential
           (KumagaiCorrection.structure s) (KumagaiCorrection.dim s)
           (KumagaiCorrection.g_sum s) (cart_reldef rec)
           (KumagaiCorrection.dieltens s) (KumagaiCorrection.q s)
           (KumagaiCorrection.gamma s) (KumagaiCorrection.madetol s);
  Ret ((vj - vk) * -1 - v_pc).

(** The records of a table farther from the defect than the radius, in
    the order in which the keys are walked. *)
Definition records_outside (wsrad : R) (potinddict : gmap Z SiteRecord)
  : list SiteRecord :=
  filter (fun rec => Rgtb (dist rec) wsrad = true) (map snd (map_to_list potinddict)).

(** The first loop of [potalign] on one record. *)
Definition mark_outside (wsrad : R) (rec : SiteRecord) : SiteRecord :=
  set_OutsideWS (Rgtb (dist rec) wsrad) rec.

(** What the second loop leaves of a record that the first loop has
    marked: the mark, and for a site outside the radius the two
    potentials, with the difference that [sampled_difference] gives. *)
Definition sampled_record (s : KumagaiCorrection.self)
    (puredat defdat : list R) (wsrad : R) (rec rec' : SiteRecord) : Prop :=
  OutsideWS rec' = Some (Rgtb (dist rec) wsrad)
  /\ (Rgtb (dist rec) wsrad = true ->
      exists v_qb v_pc : R,
        Vqb rec' = Some v_qb /\ Vpc rec' = Some v_pc
        /\ sampled_difference s puredat defdat rec = Ret (v_qb - v_pc)).

(** ** The lines that [read_ES_avg] reads *)

(** A line that starts a block of site potentials: the second test of
    the loop holds and the first does not. *)
Definition potential_header (line : string) : bool :=
  negb (py_in "dimension x,y,z NGXF" line)
  && py_in "average (electrostatic) potential at core" line.

(** The number of the line that the grid dimensions are read from: the
    last line with the dimensions, or the first line of the text when
    no line has them. *)
Definition last_ngxf_line (out_dat : list string) (ngxf_line : Z) : Prop :=
  (Forall (fun line => py_in "dimension x,y,z NGXF" line = false) out_dat
   /\ ngxf_line = 0%Z)
  \/ exists (pre : list string) (line : string) (post : list string),
       out_dat = pre ++ line :: post
       /\ py_in "dimension x,y,z NGXF" line = true
       /\ Forall (fun line => py_in "dimension x,y,z NGXF" line = false) post
       /\ ngxf_line = Z.of_nat (length pre).

(** The potentials of one line of a block: every second word, from the
    second on, as a float. *)
Definition line_potentials (py_float : string -> result R) (line : string)
  : result (list R) :=
  py_map py_float (every_second (drop 1 (py_split line))).

(** The potentials of the lines of a block, in the order of the lines. *)
Fixpoint block_potentials (py_float : string -> result R) (body : list string)
  : result (list R) :=
  match body with
  | [] => Ret []
  | line :: body' =>
      avg_es ← line_potentials py_float line;
      pot ← block_potentials py_float body';
      Ret (avg_es ++ pot)
  end.

(** ** Inversion *)

(** [-r]. *)
Definition vopp (v : vec) : vec := let '(x, y, z) := v in (- x, - y, - z).

(** The position that the index [-p] of Python names on an axis of n
    points. *)
Definition mirror (n p : nat) : nat := if (p =? 0)%nat then 0%nat else (n - p)%nat.

(** ** The sampling sphere *)

(** The sampling sphere fits into the cell: along every axis the
    [2 rad + 1] offsets that [getgridind] tries, with
    [rad = int(np.ceil(gridavg / dx))], are not more than the grid
    points. *)
Definition sphere_fits (gridavg : R) (structure : Structure) (dim : Z * Z * Z)
  : Prop :=
  let '(abc1, abc2, abc3) := abc (lattice structure) in
  let '(dim1, dim2, dim3) := dim in
  (2 * Zceil (gridavg / (abc1 / IZR dim1)) + 1 <= dim1
   /\ 2 * Zceil (gridavg / (abc2 / IZR dim2)) + 1 <= dim2
   /\ 2 * Zceil (gridavg / (abc3 / IZR dim3)) + 1 <= dim3)%Z.

(** * Stand-ins for [pycdt.corrections.utils] *)

(** Some site of the structure has the coordinates c. *)
Definition has_site_at (st : Structure) (c : vec) : bool :=
  existsb (fun s => array_equal (coords s) c) (sites st).

(** Modelled from the spec: [find_defect_pos], which is not among the
    sources.  The defect is the site present in one structure and absent,
    by coordinate, from the other - a vacancy when a site of the bulk is
    absent from the defect cell, an interstitial when a site of the
    defect cell is absent from the bulk - or else the site whose species
    differs at a matched coordinate. *)
Definition find_defect_pos_model (struct defstruct : Structure)
  : option vec * option vec :=
  let missing :=
    find (fun s => negb (has_site_at defstruct (coords s))) (sites struct) in
  let added :=
    find (fun d => negb (has_site_at struct (coords d))) (sites defstruct) in
  match missing, added with
  | None, None =>
      match find (fun s =>
              existsb (fun d => array_equal (coords s) (coords d)
                                && negb (String.eqb (species_string s)
                                                    (species_string d)))
                      (sites defstruct))
              (sites struct) with
      | Some s => (Some (coords s), Some (coords s))
      | None => (None, None)
      end
  | _, _ => (coords <$> missing, coords <$> added)
  end.

(** The closest site found so far and its index. *)
Fixpoint closest_site_from (pos : vec) (l : list Site) (i : Z) (best : Site * Z)
  : Site * Z :=
  match l with
  | [] => best
  | s :: l' =>
      if Rlt_dec (norm (vsub (coords s) pos)) (norm (vsub (coords (fst best)) pos))
      then closest_site_from pos l' (i + 1) (s, i)
      else closest_site_from pos l' (i + 1) best
  end.

(** The site of a structure closest to a position. *)
Definition closest_site (st : Structure) (pos : vec) : Site * Z :=
  match sites st with
  | [] => ({| coords := pos; frac_coords := pos; species_string := "" |}, (-1)%Z)
  | s :: l => closest_site_from pos l 1 (s, 0%Z)
  end.

(** Modelled from the spec: [closestsites], which is not among the
    sources.  For a position, the site of each structure closest to it
    by Cartesian distance, the first one found when several are, with
    its index. *)
Definition closestsites_model (struct defstruct : Structure) (pos : vec)
  : (Site * Z) * (Site * Z) :=
  (closest_site struct pos, closest_site defstruct pos).

(** A stand-in for [genrecip]: one reciprocal vector, of length 10 per
    Bohr, below every cutoff. *)
Definition single_vector_genrecip : vec -> vec -> vec -> Z -> list vec :=
  fun _ _ _ _ => [(10, 0, 0)].

(** * Examples *)

(** ** A cubic cell of side one angstrom *)

(** The identity as dielectric tensor. *)
Definition I3 : mat3 := ((1, 0, 0), (0, 1, 0), (0, 0, 1)).

(** The Wigner-Seitz cell of the cubic lattice: the six faces of the
    cube of side 1 around the origin. *)
Definition cube_facets : list (list vec) :=
  let h := 1 / 2 in
  [ [(h, h, h); (h, - h, h); (h, - h, - h); (h, h, - h)];
    [(- h, h, h); (- h, - h, h); (- h, - h, - h); (- h, h, - h)];
    [(h, h, h); (- h, h, h); (- h, h, - h); (h, h, - h)];
    [(h, - h, h); (- h, - h, h); (- h, - h, - h); (h, - h, - h)];
    [(h, h, h); (- h, h, h); (- h, - h, h); (h, - h, h)];
    [(h, h, - h); (- h, h, - h); (- h, - h, - h); (h, - h, - h)] ].

(** The cubic lattice of side one angstrom. *)
Definition cubic_lattice : Lattice :=
  {| matrix := I3;
     abc := (1, 1, 1);
     volume := 1;
     reciprocal_lattice := ((2 * PI, 0, 0), (0, 2 * PI, 0), (0, 0, 2 * PI));
     get_fractional_coords := fun v => v;
     get_wigner_seitz_cell := cube_facets |}.

(** A silicon atom at (x, y, z). *)
Definition cubic_site (x y z : R) : Site :=
  {| coords := (x, y, z); frac_coords := (x, y, z); species_string := "Si" |}.

(** The bulk cell: one atom at the origin and one at the body centre. *)
Definition cubic_bulk : Structure :=
  {| lattice := cubic_lattice;
     sites := [cubic_site 0 0 0; cubic_site (1 / 2) (1 / 2) (1 / 2)] |}.

(** The displacement to the body centre of the cubic cell. *)
Definition body_centre : vec := (1 / 2, 1 / 2, 1 / 2).

(** A reciprocal grid of shape (2, 2, 2). *)
Definition example_g_sum : array3 R :=
  [[[5000; 0]; [0; 0]]; [[0; 0]; [0; 0]]].

(** The tolerance of the examples, in eV. *)
Definition example_tolerance : R := 1000000.

(** ** A vacancy with its neighbour inside the Wigner-Seitz radius *)

(** A bulk cell with atoms at the origin and 0.3 angstrom from it along
    the first axis, and the defect cell with the atom at the origin
    taken out. *)
Definition close_pair_bulk : Structure :=
  {| lattice := cubic_lattice;
     sites := [cubic_site 0 0 0; cubic_site (3 / 10) 0 0] |}.

(** The defect cell of the vacancy. *)
Definition close_pair_vacancy : Structure :=
  {| lattice := cubic_lattice; sites := [cubic_site (3 / 10) 0 0] |}.

(** The correction object of the vacancy, with charge 1. *)
Definition vacancy_correction : KumagaiCorrection.self :=
  {| KumagaiCorrection.dieltens := I3;
     KumagaiCorrection.q := 1;
     KumagaiCorrection.gamma := 1;
     KumagaiCorrection.g_sum := example_g_sum;
     KumagaiCorrection.structure := close_pair_bulk;
     KumagaiCorrection.defstructure := close_pair_vacancy;
     KumagaiCorrection.madetol := 1 / 10000;
     KumagaiCorrection.dim := (2, 2, 2)%Z;
     KumagaiCorrection.bulk_potential := Ret [0; 0];
     KumagaiCorrection.defect_potential := Ret [0] |}.

(** The same vacancy with an OUTCAR of the bulk cell that ends before
    the site potentials: reading it raises IndexError. *)
Definition unread_vacancy_correction : KumagaiCorrection.self :=
  {| KumagaiCorrection.dieltens := I3;
     KumagaiCorrection.q := 1;
     KumagaiCorrection.gamma := 1;
     KumagaiCorrection.g_sum := example_g_sum;
     KumagaiCorrection.structure := close_pair_bulk;
     KumagaiCorrection.defstructure := close_pair_vacancy;
     KumagaiCorrection.madetol := 1 / 10000;
     KumagaiCorrection.dim := (2, 2, 2)%Z;
     KumagaiCorrection.bulk_potential := Raise IndexError;
     KumagaiCorrection.defect_potential := Ret [0] |}.

(** The same defect with no charge and a dielectric tensor that has no
    inverse, on which every sum raises. *)
Definition neutral_correction : KumagaiCorrection.self :=
  {| KumagaiCorrection.dieltens := ((0, 0, 0), (0, 0, 0), (0, 0, 0));
     KumagaiCorrection.q := 0;
     KumagaiCorrection.gamma := 1;
     KumagaiCorrection.g_sum := example_g_sum;
     KumagaiCorrection.structure := close_pair_bulk;
     KumagaiCorrection.defstructure := close_pair_vacancy;
     KumagaiCorrection.madetol := 1 / 10000;
     KumagaiCorrection.dim := (2, 2, 2)%Z;
     KumagaiCorrection.bulk_potential := Ret [0; 0];
     KumagaiCorrection.defect_potential := Ret [0] |}.

(** ** The bulk objects *)

(** The bulk object whose gamma is still to be found. *)
Definition cubic_bulk_init : KumagaiBulkInit.self :=
  {| KumagaiBulkInit.structure := cubic_bulk;
     KumagaiBulkInit.dim := (2, 2, 2)%Z;
     KumagaiBulkInit.epsilon := I3;
     KumagaiBulkInit.encut := 520;
     KumagaiBulkInit.tolerance := 1 / 10000;
     KumagaiBulkInit.gamma := None |}.

(** The cubic example with gamma 1 and a grid of shape (2, 2, 2). *)
Definition cubic_bulk_grid : KumagaiBulkInit.self :=
  {| KumagaiBulkInit.structure := cubic_bulk;
     KumagaiBulkInit.dim := (2, 2, 2)%Z;
     KumagaiBulkInit.epsilon := I3;
     KumagaiBulkInit.encut := 520;
     KumagaiBulkInit.tolerance := 1 / 10000;
     KumagaiBulkInit.gamma := Some 1 |}.

(** The cubic example with gamma 1 and a grid of shape (4, 5, 3). *)
Definition cubic_bulk_wide_grid : KumagaiBulkInit.self :=
  {| KumagaiBulkInit.structure := cubic_bulk;
     KumagaiBulkInit.dim := (4, 5, 3)%Z;
     KumagaiBulkInit.epsilon := I3;
     KumagaiBulkInit.encut := 520;
     KumagaiBulkInit.tolerance := 1 / 10000;
     KumagaiBulkInit.gamma := Some 1 |}.

(** The reciprocal sum of the example, whatever the cutoff. *)
Definition example_recippart (a1 a2 a3 : vec) (gamma : R) : R :=
  fst (KumagaiBulkInit.get_recippart single_vector_genrecip cubic_bulk_init
         a1 a2 a3
         (ang_to_bohr ^ 3) 30 gamma).

(** ** A vacancy with the remaining atom outside the Wigner-Seitz radius *)

(** The cubic cell with the atom at the origin taken out. *)
Definition centre_vacancy : Structure :=
  {| lattice := cubic_lattice; sites := [cubic_site (1 / 2) (1 / 2) (1 / 2)] |}.

(** The correction object of that vacancy, with charge 1. *)
Definition centre_vacancy_correction : KumagaiCorrection.self :=
  {| KumagaiCorrection.dieltens := I3;
     KumagaiCorrection.q := 1;
     KumagaiCorrection.gamma := 1;
     KumagaiCorrection.g_sum := example_g_sum;
     KumagaiCorrection.structure := cubic_bulk;
     KumagaiCorrection.defstructure := centre_vacancy;
     KumagaiCorrection.madetol := example_tolerance;
     KumagaiCorrection.dim := (2, 2, 2)%Z;
     KumagaiCorrection.bulk_potential := Ret [0; 0];
     KumagaiCorrection.defect_potential := Ret [0] |}.

(** ** Objects on which a step fails *)

(** A charged defect with a dielectric tensor that has no inverse. *)
Definition singular_correction : KumagaiCorrection.self :=
  {| KumagaiCorrection.dieltens := ((0, 0, 0), (0, 0, 0), (0, 0, 0));
     KumagaiCorrection.q := 1;
     KumagaiCorrection.gamma := 1;
     KumagaiCorrection.g_sum := example_g_sum;
     KumagaiCorrection.structure := close_pair_bulk;
     KumagaiCorrection.defstructure := close_pair_vacancy;
     KumagaiCorrection.madetol := 1 / 10000;
     KumagaiCorrection.dim := (2, 2, 2)%Z;
     KumagaiCorrection.bulk_potential := Ret [0; 0];
     KumagaiCorrection.defect_potential := Ret [0] |}.

(** A charged object whose defect cell is the bulk cell: no defect is
    to be found. *)
Definition no_defect_correction : KumagaiCorrection.self :=
  {| KumagaiCorrection.dieltens := I3;
     KumagaiCorrection.q := 1;
     KumagaiCorrection.gamma := 1;
     KumagaiCorrection.g_sum := example_g_sum;
     KumagaiCorrection.structure := cubic_bulk;
     KumagaiCorrection.defstructure := cubic_bulk;
     KumagaiCorrection.madetol := example_tolerance;
     KumagaiCorrection.dim := (2, 2, 2)%Z;
     KumagaiCorrection.bulk_potential := Ret [0; 0];
     KumagaiCorrection.defect_potential := Ret [0; 0] |}.

(** ** A Locpot of the cubic cell *)

Definition cubic_locpot : Locpot.self :=
  {| Locpot.structure := cubic_bulk;
     Locpot.dim := (2, 2, 2)%Z;
     Locpot.data_total := example_g_sum |}.

(** ** The text of an OUTCAR *)

(** Stand-ins for [int] and [float] on the numerals of the examples: a
    run of decimal digits, and an optional minus sign, digits and an
    optional fraction. *)
Definition digit_value (c : Ascii.ascii) : option Z :=
  let n := Ascii.nat_of_ascii c in
  if (48 <=? n)%nat && (n <=? 57)%nat then Some (Z.of_nat (n - 48)) else None.

Fixpoint digits_value (s : string) (acc : Z) : option Z :=
  match s with
  | EmptyString => Some acc
  | String c s' =>
      match digit_value c with
      | Some d => digits_value s' (10 * acc + d)%Z
      | None => None
      end
  end.

Definition decimal_int (s : string) : result Z :=
  match s with
  | EmptyString => Raise ValueError
  | String _ _ =>
      match digits_value s 0 with
      | Some z => Ret z
      | None => Raise ValueError
      end
  end.

Definition decimal_float (s : string) : result R :=
  let '(sign, digits) :=
    match s with
    | String c s' => if Ascii.eqb c (Ascii.ascii_of_nat 45) then (-1, s') else (1, s)
    | EmptyString => (1, s)
    end in
  match py_split_on (Ascii.ascii_of_nat 46) digits with
  | [whole] => z ← decimal_int whole; Ret (sign * IZR z)
  | [whole; fraction] =>
      z ← decimal_int whole;
      f ← decimal_int fraction;
      Ret (sign * (IZR z + IZR f / 10 ^ String.length fraction))
  | _ => Raise ValueError
  end.

(** The lines of a small OUTCAR: the grid dimensions, then the block of
    the site potentials of two atoms and the blank line that ends it. *)
Definition outcar_ngxf_line : string :=
  "  dimension x,y,z NGXF=     2 NGYF=    2 NGZF=    2".
Definition outcar_header_line : string :=
  " average (electrostatic) potential at core".
Definition outcar_radii_line : string :=
  "  the test charge radii are     0.9757  0.6353".
Definition outcar_norm_line : string :=
  "  (the norm of the test charge is              1.0000)".
Definition outcar_potential_line : string :=
  "       1 -88.4654       2 -88.4464".

(** The lines joined by line feeds, as [file.read()] gives the text. *)
Definition join_lines (lines : list string) : string :=
  fold_right (fun line text => (line ++ String newline text)%string)
             EmptyString lines.

Definition example_outcar : string :=
  join_lines [outcar_ngxf_line; outcar_header_line; outcar_radii_line;
              outcar_norm_line; outcar_potential_line; " "%string].

(** The same text cut off after the line of the potentials. *)
Definition truncated_outcar : string :=
  (join_lines [outcar_ngxf_line; outcar_header_line; outcar_radii_line;
               outcar_norm_line] ++ outcar_potential_line)%string.

(** * Properties *)

(** Decides the comparisons of the numerals met when an example is run. *)
Ltac decide_reals :=
  repeat match goal with
         | |- context [Req_dec_T ?a ?b] => destruct (Req_dec_T a b); try lra
         | |- context [Rlt_dec ?a ?b] => destruct (Rlt_dec a b); try lra
         | |- context [Rgt_dec ?a ?b] => destruct (Rgt_dec a b); try lra
         | |- context [Rle_dec ?a ?b] => destruct (Rle_dec a b); try lra
         end.

(** ** Results and indexing *)

Lemma bind_Ret {A B : Type} (a : A) (f : A -> result B) : (Ret a ≫= f) = f a.
Proof. reflexivity. Qed.

Lemma bind_Raise {A B : Type} (e : exn) (f : A -> result B) :
  (Raise e ≫= f) = Raise e.
Proof. reflexivity. Qed.

Lemma py_index_nonneg {A : Type} (l : list A) (i : nat) (a : A) :
  l !! i = Some a -> py_index l (Z.of_nat i) = Ret a.
Proof.
  intros H. unfold py_index.
  destruct (Z.ltb_spec (Z.of_nat i) 0) as [Hneg | _]; [lia |].
  destruct (Z.ltb_spec (Z.of_nat i) 0) as [Hneg | _]; [lia |].
  rewrite Nat2Z.id, H. reflexivity.
Qed.

Lemma py_index_last {A : Type} (l : list A) (a : A) :
  py_index (l ++ [a]) (-1) = Ret a.
Proof.
  unfold py_index. rewrite length_app. simpl length.
  change (-1 <? 0)%Z with true. cbv iota.
  destruct (Z.ltb_spec (-1 + Z.of_nat (length l + 1)) 0) as [Hneg | _]; [lia |].
  replace (Z.to_nat (-1 + Z.of_nat (length l + 1))) with (length l + 0)%nat by lia.
  rewrite lookup_app_r by lia.
  replace (length l + 0 - length l)%nat with 0%nat by lia. reflexivity.
Qed.

Lemma py_index_last_but_one {A : Type} (l : list A) (a b : A) :
  py_index ((l ++ [a]) ++ [b]) (-2) = Ret a.
Proof.
  unfold py_index. rewrite !length_app. simpl length.
  change (-2 <? 0)%Z with true. cbv iota.
  destruct (Z.ltb_spec (-2 + Z.of_nat (length l + 1 + 1)) 0) as [Hneg | _]; [lia |].
  replace (Z.to_nat (-2 + Z.of_nat (length l + 1 + 1))) with (length l + 0)%nat by lia.
  rewrite lookup_app_l by (rewrite length_app; simpl; lia).
  rewrite lookup_app_r by lia.
  replace (length l + 0 - length l)%nat with 0%nat by lia. reflexivity.
Qed.

Lemma np_linalg_inv_regular (M : mat3) :
  det3 M <> 0 -> np_linalg_inv M = Ret (inv3 M).
Proof.
  intros H. unfold np_linalg_inv. destruct (Req_dec_T (det3 M) 0); [contradiction | reflexivity].
Qed.

Lemma np_linalg_inv_singular (M : mat3) :
  det3 M = 0 -> np_linalg_inv M = Raise LinAlgError.
Proof.
  intros H. unfold np_linalg_inv. destruct (Req_dec_T (det3 M) 0); [reflexivity | contradiction].
Qed.

(** ** The while loop of [real_sum] *)

Section RealSumLoop.

Variable shell : Z -> R.
Variables realpre tolerance : R.

Lemma real_sum_while_first_accepted (todo : nat) :
  forall (r_sums : list (Z * R)) (r_sum : R),
    (1 <= todo <= 38)%nat ->
    length r_sums = Z.to_nat (Nmaxlength - Z.of_nat todo - 2) ->
    ((2 < Nmaxlength - Z.of_nat todo)%Z ->
     exists l M, r_sums = l ++ [(M, scaled_shell shell realpre (Nmaxlength - Z.of_nat todo - 1))]) ->
    real_sum_while shell realpre tolerance todo r_sums r_sum
    = Ret (first_accepted shell realpre tolerance todo).
Proof.
  unfold Nmaxlength.
  induction todo as [| todo IH]; intros r_sums r_sum Hrange Hlen Hlast; [lia |].
  cbn [real_sum_while first_accepted]. unfold Nmaxlength.
  set (N := (40 - Z.of_nat (S todo))%Z) in *.
  destruct (Z.eqb_spec N (40 - 1)) as [H39 | H39]; [reflexivity |].
  assert (Hnext : forall r, real_sum_while shell realpre tolerance todo
              (r_sums ++ [(N, realpre * shell N)]) r = Ret (first_accepted shell realpre tolerance todo)).
  { intros r. apply IH.
    - lia.
    - rewrite length_app, Hlen. simpl. lia.
    - intros _. exists r_sums, N. unfold scaled_shell.
      replace (40 - Z.of_nat todo - 1)%Z with N by lia. reflexivity. }
  rewrite length_app. simpl length.
  destruct (Nat.ltb_spec 3 (length r_sums + 1)) as [Hlong | Hshort].
  - assert (H5 : (5 <= N)%Z) by lia.
    destruct (Hlast ltac:(lia)) as (l & M & ->).
    rewrite py_index_last, py_index_last_but_one. rewrite !bind_Ret.
    cbn [snd]. destruct (Z.leb_spec 5 N) as [_ | ?]; [| lia].
    cbn [andb]. unfold Rltb, shell_change, scaled_shell.
    replace (40 - Z.of_nat (S todo) - 1)%Z with (N - 1)%Z by lia.
    destruct (Rlt_dec _ tolerance); [reflexivity | apply Hnext].
  - destruct (Z.leb_spec 5 N) as [? | _]; [lia |]. cbn [andb]. apply Hnext.
Qed.



End RealSumLoop.

(** ** [real_sum] and [kumagai_init] *)

Lemma kumagai_init_regular (structure : Structure) (dieltens : mat3) :
  det3 dieltens <> 0 ->
  kumagai_init structure dieltens
  = Ret (matrix (lattice structure), bohr_rows structure, bohr_volume structure,
         det3 dieltens, inv3 dieltens).
Proof.
  intros H. unfold kumagai_init, bohr_volume, bohr_rows.
  destruct (matrix (lattice structure)) as [[r1 r2] r3].
  rewrite (np_linalg_inv_regular _ H). reflexivity.
Qed.

Lemma kumagai_init_singular (structure : Structure) (dieltens : mat3) :
  det3 dieltens = 0 -> kumagai_init structure dieltens = Raise LinAlgError.
Proof.
  intros H. unfold kumagai_init.
  destruct (matrix (lattice structure)) as [[r1 r2] r3].
  rewrite (np_linalg_inv_singular _ H). reflexivity.
Qed.

Lemma real_sum_regular (a1 a2 a3 r : vec) (q : R) (dieltens : mat3)
    (gamma tolerance : R) :
  det3 dieltens <> 0 ->
  real_sum a1 a2 a3 r q dieltens gamma tolerance
  = Ret (first_accepted
           (shell_sum a1 a2 a3 r (inv3 dieltens) (det3 dieltens) gamma)
           (q / sqrt (det3 dieltens)) (tolerance / hart_to_ev) 38).
Proof.
  intros H. unfold real_sum. rewrite (np_linalg_inv_regular _ H), bind_Ret.
  change (Z.to_nat (Nmaxlength - 2)) with 38%nat.
  apply real_sum_while_first_accepted.
  - lia.
  - reflexivity.
  - unfold Nmaxlength. lia.
Qed.

Lemma real_sum_singular (a1 a2 a3 r : vec) (q : R) (dieltens : mat3)
    (gamma tolerance : R) :
  det3 dieltens = 0 ->
  real_sum a1 a2 a3 r q dieltens gamma tolerance = Raise LinAlgError.
Proof.
  intros H. unfold real_sum. rewrite (np_linalg_inv_singular _ H). reflexivity.
Qed.

(** Changing the sign of the prefactor changes the sign of what the loop
    accepts and nothing else: the test compares absolute values. *)
Lemma first_accepted_opp (shell : Z -> R) (realpre tolerance : R) (todo : nat) :
  first_accepted shell (- realpre) tolerance todo
  = Ropp <$> first_accepted shell realpre tolerance todo.
Proof.
  induction todo as [| todo IH]; [reflexivity |].
  cbn [first_accepted].
  destruct (_ =? _)%Z; [reflexivity |].
  assert (Hc : forall N, shell_change shell (- realpre) N = shell_change shell realpre N).
  { intros N. unfold shell_change, scaled_shell.
    rewrite !Ropp_mult_distr_l_reverse, !Rabs_Ropp. reflexivity. }
  rewrite Hc.
  destruct (_ && _).
  - cbn. unfold scaled_shell. f_equal. ring.
  - exact IH.
Qed.

Lemma real_sum_opp (a1 a2 a3 r : vec) (q : R) (dieltens : mat3)
    (gamma tolerance : R) :
  real_sum a1 a2 a3 r (- q) dieltens gamma tolerance
  = fmap (M := option) Ropp <$> real_sum a1 a2 a3 r q dieltens gamma tolerance.
Proof.
  destruct (Req_dec_T (det3 dieltens) 0) as [H | H].
  - rewrite !real_sum_singular by exact H. reflexivity.
  - rewrite !real_sum_regular by exact H.
    replace (- q / sqrt (det3 dieltens)) with (- (q / sqrt (det3 dieltens)))
      by (unfold Rdiv; ring).
    rewrite first_accepted_opp. reflexivity.
Qed.

(** The energy for the charge -q is the energy for q, errors included. *)
Lemma pc_energy_opp (structure : Structure) (g_sum : array3 R) (dieltens : mat3)
    (q gamma tolerance : R) :
  anisotropic_pc_energy structure g_sum dieltens (- q) gamma tolerance
  = anisotropic_pc_energy structure g_sum dieltens q gamma tolerance.
Proof.
  unfold anisotropic_pc_energy.
  destruct (kumagai_init structure dieltens) as [[[[[angset [[a1 a2] a3]] vol] determ] invdiel] | e];
    [| reflexivity].
  rewrite !bind_Ret.
  destruct (array3_index g_sum 0 0 0) as [g000 | e]; [| reflexivity].
  rewrite !bind_Ret, real_sum_opp.
  destruct (real_sum a1 a2 a3 vzero q dieltens gamma tolerance) as [[r_part |] | e];
    try reflexivity.
  cbn. f_equal. unfold Rdiv. ring.
Qed.

(** ** Bounds on the complementary error function and on the shell sums *)

Lemma gauss_range (t : R) : 0 < gauss t <= 1.
Proof.
  unfold gauss. split; [apply exp_pos |].
  rewrite <- exp_0. destruct (Req_dec (t * t) 0) as [-> | H].
  - rewrite Ropp_0. lra.
  - left. apply exp_increasing. nra.
Qed.

Lemma gauss_integral_bounds (x : R) :
  0 <= x -> 0 <= RiemannInt (gauss_integrable 0 x) <= x.
Proof.
  intros Hx. split.
  - assert (pr0 : Riemann_integrable (fct_cte 0) 0 x) by apply RiemannInt_P14.
    apply Rle_trans with (RiemannInt pr0); [rewrite RiemannInt_P15; lra |].
    apply RiemannInt_P19; [exact Hx |].
    intros t _. unfold fct_cte. left. apply gauss_range.
  - assert (pr1 : Riemann_integrable (fct_cte 1) 0 x) by apply RiemannInt_P14.
    apply Rle_trans with (RiemannInt pr1); [| rewrite RiemannInt_P15; lra].
    apply RiemannInt_P19; [exact Hx |].
    intros t _. unfold fct_cte. apply gauss_range.
Qed.

Lemma PI_gt_3 : 3 < PI.
Proof. pose proof PI2_3_2. unfold PI2 in *. lra. Qed.

Lemma sqrt_PI_ge_1 : 1 <= sqrt PI.
Proof.
  rewrite <- sqrt_1 at 1. apply sqrt_le_1_alt. pose proof PI_gt_3. lra.
Qed.

Lemma erfc_0 : erfc 0 = 1.
Proof. unfold erfc, erf. rewrite RiemannInt_P9. lra. Qed.

Lemma erfc_bounds (x : R) : 0 <= x -> 1 - 2 * x <= erfc x <= 1.
Proof.
  intros Hx. pose proof (gauss_integral_bounds x Hx) as [H0 H1].
  pose proof sqrt_PI_ge_1 as Hp. unfold erfc, erf.
  assert (0 < / sqrt PI <= 1) as [Hi0 Hi1].
  { split; [apply Rinv_0_lt_compat; lra |].
    rewrite <- Rinv_1. apply Rinv_le_contravar; lra. }
  unfold Rdiv. nra.
Qed.

Lemma Rabs_le_between (x b : R) : Rabs x <= b -> - b <= x <= b.
Proof.
  intros H. pose proof (Rle_abs x). pose proof (Rle_abs (- x)) as H'.
  rewrite Rabs_Ropp in H'. lra.
Qed.

(** A loop that moves its accumulator by at most c in each pass moves it
    by at most c times the number of passes. *)
Lemma fold_left_drift {A : Type} (step : R -> A -> R) (c : R) (l : list A) :
  (forall acc x, Rabs (step acc x - acc) <= c) ->
  forall acc, Rabs (fold_left step l acc - acc) <= c * INR (length l).
Proof.
  intros Hstep. induction l as [| x l IH]; intros acc.
  - simpl. rewrite Rminus_diag, Rabs_R0. lra.
  - cbn [fold_left]. rewrite length_cons, S_INR.
    replace (fold_left step l (step acc x) - acc)
      with ((fold_left step l (step acc x) - step acc x) + (step acc x - acc)) by ring.
    eapply Rle_trans; [apply Rabs_triang |].
    specialize (IH (step acc x)). specialize (Hstep acc x). lra.
Qed.

Lemma length_py_range (lo hi : Z) : length (py_range lo hi) = Z.to_nat (hi - lo).
Proof. unfold py_range. rewrite length_map, length_seq. reflexivity. Qed.

Lemma triple_loop_bound (N : Z) (body : R -> Z -> Z -> Z -> R) (c : R) :
  (0 <= N)%Z ->
  (forall acc i j k, Rabs (body acc i j k - acc) <= c) ->
  Rabs (triple_loop N body) <= c * IZR ((2 * N + 1) ^ 3).
Proof.
  intros HN Hbody. unfold triple_loop.
  set (rng := py_range (- N) (N + 1)).
  assert (Hlen : INR (length rng) = IZR (2 * N + 1)).
  { unfold rng. rewrite length_py_range, INR_IZR_INZ. f_equal. lia. }
  assert (Hc : 0 <= c).
  { eapply Rle_trans; [apply Rabs_pos | apply (Hbody 0 0%Z 0%Z 0%Z)]. }
  assert (Hn : 0 <= IZR (2 * N + 1)) by (apply IZR_le; lia).
  pose proof (fold_left_drift
    (fun acc i => fold_left (fun acc j =>
       fold_left (fun acc k => body acc i j k) rng acc) rng acc)
    (c * IZR (2 * N + 1) * IZR (2 * N + 1)) rng) as Houter.
  rewrite Hlen in Houter.
  replace (IZR ((2 * N + 1) ^ 3))
    with (IZR (2 * N + 1) * IZR (2 * N + 1) * IZR (2 * N + 1))
    by (rewrite <- !mult_IZR; f_equal; ring).
  specialize (Houter ltac:(
    intros acc i;
    pose proof (fold_left_drift
      (fun acc j => fold_left (fun acc k => body acc i j k) rng acc)
      (c * IZR (2 * N + 1)) rng) as Hmid;
    rewrite Hlen in Hmid; apply Hmid;
    intros acc' j;
    pose proof (fold_left_drift (fun acc k => body acc i j k) c rng) as Hin;
    rewrite Hlen in Hin; apply Hin; intros acc'' k; apply Hbody) 0).
  rewrite Rminus_0_r in Houter. lra.
Qed.

(** ** The cubic example: the real-space sum is accepted *)

Lemma det3_I3 : det3 I3 = 1.
Proof. unfold det3, I3, dot, cross. ring. Qed.

Lemma det3_I3_nonzero : det3 I3 <> 0.
Proof. rewrite det3_I3. lra. Qed.

Lemma inv3_I3 : inv3 I3 = I3.
Proof.
  unfold inv3. rewrite det3_I3. unfold I3.
  repeat (apply f_equal2); field.
Qed.

Lemma mat_vec_I3 (v : vec) : mat_vec I3 v = v.
Proof.
  destruct v as [[v1 v2] v3]. unfold mat_vec, I3, dot.
  repeat (apply f_equal2); ring.
Qed.

Lemma norm_vzero : norm vzero = 0.
Proof.
  unfold norm, vzero, dot.
  replace (0 * 0 + 0 * 0 + 0 * 0) with 0 by ring. apply sqrt_0.
Qed.

Lemma truthy_norm_vzero : truthy (norm vzero) = false.
Proof.
  unfold truthy. rewrite norm_vzero.
  destruct (Req_dec_T 0 0) as [_ | H]; [reflexivity | contradiction].
Qed.

Lemma bohr_rows_cubic :
  bohr_rows cubic_bulk
  = ((ang_to_bohr * 1, ang_to_bohr * 0, ang_to_bohr * 0),
     (ang_to_bohr * 0, ang_to_bohr * 1, ang_to_bohr * 0),
     (ang_to_bohr * 0, ang_to_bohr * 0, ang_to_bohr * 1)).
Proof. reflexivity. Qed.

Lemma bohr_volume_cubic : bohr_volume cubic_bulk = ang_to_bohr ^ 3.
Proof.
  unfold bohr_volume. rewrite bohr_rows_cubic. unfold det3, dot, cross. ring.
Qed.

(** With the identity tensor a summand is at most 1 + 2 gamma in absolute
    value once the translation is at least one Bohr long. *)
Lemma real_summand_I3_bound (gamma : R) (r_vec : vec) :
  0 <= gamma -> 1 <= dot r_vec r_vec ->
  Rabs (real_summand I3 1 gamma r_vec) <= 1 + 2 * gamma.
Proof.
  intros Hg HL. unfold real_summand. rewrite mat_vec_I3, Rmult_1_l.
  set (s := sqrt (dot r_vec r_vec)).
  assert (Hs : 1 <= s).
  { unfold s. rewrite <- sqrt_1 at 1. apply sqrt_le_1_alt. exact HL. }
  assert (Hx : 0 <= gamma * s) by nra.
  pose proof (erfc_bounds (gamma * s) Hx) as [Hlo Hhi].
  assert (Ht : 0 < / s <= 1).
  { split; [apply Rinv_0_lt_compat; lra |].
    rewrite <- Rinv_1. apply Rinv_le_contravar; lra. }
  assert (Hts : / s * s = 1) by (apply Rinv_l; lra).
  unfold Rdiv. apply Rabs_le. split; nra.
Qed.

Lemma lattice_vector_cubic_long (i j k : Z) :
  ~ (i = j /\ j = k /\ k = 0%Z) ->
  let '(a1, a2, a3) := bohr_rows cubic_bulk in
  1 <= dot (lattice_vector a1 a2 a3 i j k) (lattice_vector a1 a2 a3 i j k).
Proof.
  intros Hne. rewrite bohr_rows_cubic. unfold lattice_vector, vadd, smul, dot.
  assert (Hsq : forall n : Z, (0 <= n * n)%Z /\ (n <> 0 -> 1 <= n * n)%Z)
    by (intros n; nia).
  assert (Hz : (1 <= i * i + j * j + k * k)%Z).
  { pose proof (Hsq i) as [Hi0 Hi1]. pose proof (Hsq j) as [Hj0 Hj1].
    pose proof (Hsq k) as [Hk0 Hk1].
    destruct (Z.eq_dec i 0%Z) as [Hi | Hi]; [| specialize (Hi1 Hi); lia].
    destruct (Z.eq_dec j 0%Z) as [Hj | Hj]; [| specialize (Hj1 Hj); lia].
    destruct (Z.eq_dec k 0%Z) as [Hk | Hk]; [| specialize (Hk1 Hk); lia].
    exfalso. apply Hne. lia. }
  apply IZR_le in Hz. rewrite !plus_IZR, !mult_IZR in Hz.
  unfold ang_to_bohr. nra.
Qed.

Lemma shell_sum_cubic_bound (gamma : R) (N : Z) :
  0 <= gamma -> (0 <= N)%Z ->
  let '(a1, a2, a3) := bohr_rows cubic_bulk in
  Rabs (shell_sum a1 a2 a3 vzero I3 1 gamma N)
  <= (1 + 2 * gamma) * IZR ((2 * N + 1) ^ 3).
Proof.
  intros Hg HN.
  pose proof lattice_vector_cubic_long as Hlong.
  destruct (bohr_rows cubic_bulk) as [[a1 a2] a3].
  unfold shell_sum. rewrite truthy_norm_vzero.
  apply triple_loop_bound; [exact HN |].
  intros acc i j k.
  destruct (Z.eqb_spec i j) as [Hij | Hij]; cbn [andb].
  2:{ replace (acc + _ - acc) with
        (real_summand I3 1 gamma (lattice_vector a1 a2 a3 i j k)) by ring.
      apply real_summand_I3_bound; [exact Hg | apply Hlong; tauto]. }
  destruct (Z.eqb_spec j k) as [Hjk | Hjk]; cbn [andb].
  2:{ replace (acc + _ - acc) with
        (real_summand I3 1 gamma (lattice_vector a1 a2 a3 i j k)) by ring.
      apply real_summand_I3_bound; [exact Hg | apply Hlong; tauto]. }
  destruct (Z.eqb_spec k 0) as [Hk | Hk].
  - rewrite Rminus_diag, Rabs_R0. lra.
  - replace (acc + _ - acc) with
      (real_summand I3 1 gamma (lattice_vector a1 a2 a3 i j k)) by ring.
    apply real_summand_I3_bound; [exact Hg | apply Hlong; tauto].
Qed.

Lemma first_accepted_fourth_pass (shell : Z -> R) (realpre tolerance : R) :
  shell_change shell realpre 5 < tolerance ->
  first_accepted shell realpre tolerance 38
  = Some (scaled_shell shell realpre 5).
Proof.
  intros H.
  assert (Hstep : forall todo,
    first_accepted shell realpre tolerance (S todo)
    = if (Nmaxlength - Z.of_nat (S todo) =? Nmaxlength - 1)%Z then None
      else if (5 <=? Nmaxlength - Z.of_nat (S todo))%Z
              && Rltb (shell_change shell realpre (Nmaxlength - Z.of_nat (S todo)))
                      tolerance
           then Some (scaled_shell shell realpre (Nmaxlength - Z.of_nat (S todo)))
           else first_accepted shell realpre tolerance todo) by reflexivity.
  rewrite 4 Hstep. unfold Nmaxlength.
  change (40 - Z.of_nat 38 =? 40 - 1)%Z with false.
  change (40 - Z.of_nat 37 =? 40 - 1)%Z with false.
  change (40 - Z.of_nat 36 =? 40 - 1)%Z with false.
  change (40 - Z.of_nat 35 =? 40 - 1)%Z with false.
  change (5 <=? 40 - Z.of_nat 38)%Z with false.
  change (5 <=? 40 - Z.of_nat 37)%Z with false.
  change (5 <=? 40 - Z.of_nat 36)%Z with false.
  change (5 <=? 40 - Z.of_nat 35)%Z with true.
  change (40 - Z.of_nat 35)%Z with 5%Z.
  cbn [andb]. unfold Rltb.
  destruct (Rlt_dec (shell_change shell realpre 5) tolerance); [reflexivity | contradiction].
Qed.

(** In the example the real-space sum is accepted at the fourth pass. *)
Lemma real_sum_cubic_accepted :
  let '(a1, a2, a3) := bohr_rows cubic_bulk in
  exists X : R,
    real_sum a1 a2 a3 vzero 1 I3 1 example_tolerance = Ret (Some X)
    /\ Rabs X <= 3993.
Proof.
  pose proof (shell_sum_cubic_bound 1 5 ltac:(lra) ltac:(lia)) as H5.
  pose proof (shell_sum_cubic_bound 1 4 ltac:(lra) ltac:(lia)) as H4.
  destruct (bohr_rows cubic_bulk) as [[a1 a2] a3].
  rewrite (real_sum_regular _ _ _ _ _ _ _ _ det3_I3_nonzero).
  rewrite inv3_I3, det3_I3, sqrt_1.
  change (IZR ((2 * 5 + 1) ^ 3)) with 1331 in H5.
  change (IZR ((2 * 4 + 1) ^ 3)) with 729 in H4.
  set (shell := shell_sum a1 a2 a3 vzero I3 1 1) in *.
  assert (HS5 : Rabs (scaled_shell shell (1 / 1) 5) <= 3993).
  { unfold scaled_shell. replace (1 / 1 * shell 5%Z) with (shell 5%Z) by field. lra. }
  assert (HS4 : Rabs (scaled_shell shell (1 / 1) (5 - 1)) <= 3993).
  { unfold scaled_shell. change (5 - 1)%Z with 4%Z.
    replace (1 / 1 * shell 4%Z) with (shell 4%Z) by field. lra. }
  exists (scaled_shell shell (1 / 1) 5). split; [| exact HS5].
  rewrite first_accepted_fourth_pass; [reflexivity |].
  unfold shell_change, example_tolerance, hart_to_ev.
  pose proof (Rabs_pos (scaled_shell shell (1 / 1) 5)).
  pose proof (Rabs_pos (scaled_shell shell (1 / 1) (5 - 1))).
  apply Rle_lt_trans with 3993; [apply Rabs_le; lra | lra].
Qed.

(** The point-charge energy of the example is a negative number. *)
Lemma pc_energy_cubic_negative :
  exists e : R,
    anisotropic_pc_energy cubic_bulk example_g_sum I3 1 1 example_tolerance = Ret e
    /\ e < 0.
Proof.
  pose proof real_sum_cubic_accepted as Hreal.
  unfold anisotropic_pc_energy.
  rewrite (kumagai_init_regular _ _ det3_I3_nonzero).
  destruct (bohr_rows cubic_bulk) as [[a1 a2] a3] eqn:Hrows.
  destruct Hreal as (X & HX & Hbound).
  rewrite !bind_Ret. cbn [array3_index example_g_sum].
  change (array3_index example_g_sum 0 0 0) with (Ret (A := R) 5000).
  rewrite !bind_Ret, HX, !bind_Ret. cbn [float_operand]. rewrite bind_Ret.
  eexists. split; [reflexivity |].
  rewrite bohr_volume_cubic, det3_I3. replace (PI * 1) with PI by ring.
  pose proof sqrt_PI_ge_1 as Hp. pose proof PI_gt_3 as Hpi3. pose proof PI_4 as Hpi4.
  apply Rabs_le_between in Hbound.
  assert (Hself : 0 <= 1 * PI / (ang_to_bohr ^ 3 * 1 ^ 2) <= 1).
  { unfold ang_to_bohr. split.
    - apply Rmult_le_pos; [lra |]. left. apply Rinv_0_lt_compat. lra.
    - apply Rmult_le_reg_r with ((18897 / 10000) ^ 3 * 1 ^ 2); [lra |].
      unfold Rdiv at 1. rewrite Rmult_assoc, Rinv_l by lra. lra. }
  assert (Hsurf : 0 <= 2 * 1 * 1 / sqrt PI <= 2).
  { assert (0 < / sqrt PI <= 1) as [Hi0 Hi1].
    { split; [apply Rinv_0_lt_compat; lra |].
      rewrite <- Rinv_1. apply Rinv_le_contravar; lra. }
    unfold Rdiv. lra. }
  set (selfint := 1 * PI / (ang_to_bohr ^ 3 * 1 ^ 2)) in *.
  set (surfterm := 2 * 1 * 1 / sqrt PI) in *.
  unfold hart_to_ev. lra.
Qed.

(** ** The point-charge energy *)

(** C1.  For every structure, reciprocal grid, dielectric tensor D (taken
    regular, so that it has an inverse), charge q, gamma and tolerance,
    with g000 the grid value at the origin index: whenever the real-space
    sum is accepted, [anisotropic_pc_energy] returns
    -q * 1/2 * (real + q * g000 - q pi / (volume gamma^2)
                - 2 gamma q / sqrt(pi det D)),
    times 27.2114 (Hartree to eV); when the sum is not accepted there is
    no energy, the addition to [None] raises TypeError. *)
Theorem anisotropic_pc_energy_formula (structure : Structure) (g_sum : array3 R)
    (dieltens : mat3) (q gamma tolerance g000 : R) :
  det3 dieltens <> 0 ->
  array3_index g_sum 0 0 0 = Ret g000 ->
  let '(a1, a2, a3) := bohr_rows structure in
  anisotropic_pc_energy structure g_sum dieltens q gamma tolerance
  = match real_sum a1 a2 a3 vzero q dieltens gamma tolerance with
    | Ret (Some real) =>
        Ret ((- q * (1 / 2)
              * (real + q * g000
                 - q * PI / (bohr_volume structure * gamma ^ 2)
                 - 2 * gamma * q / sqrt (PI * det3 dieltens)))
             * hart_to_ev)
    | Ret None => Raise TypeError
    | Raise e => Raise e
    end.
Proof.
  intros Hdet Hg. unfold anisotropic_pc_energy.
  rewrite (kumagai_init_regular _ _ Hdet).
  destruct (bohr_rows structure) as [[a1 a2] a3].
  rewrite !bind_Ret, Hg, !bind_Ret.
  destruct (real_sum a1 a2 a3 vzero q dieltens gamma tolerance) as [[real |] | e];
    try reflexivity.
  cbn. f_equal. ring.
Qed.

Lemma anisotropic_pc_energy_formula_witness :
  let '(a1, a2, a3) := bohr_rows cubic_bulk in
  anisotropic_pc_energy cubic_bulk example_g_sum I3 1 1 example_tolerance
  = match real_sum a1 a2 a3 vzero 1 I3 1 example_tolerance with
    | Ret (Some real) =>
        Ret ((- (1) * (1 / 2)
              * (real + 1 * 5000
                 - 1 * PI / (bohr_volume cubic_bulk * 1 ^ 2)
                 - 2 * 1 * 1 / sqrt (PI * det3 I3)))
             * hart_to_ev)
    | Ret None => Raise TypeError
    | Raise e => Raise e
    end.
Proof.
  exact (anisotropic_pc_energy_formula cubic_bulk example_g_sum I3 1 1
           example_tolerance 5000 det3_I3_nonzero eq_refl).
Defined.

(** C10.  For every structure, grid, tensor, gamma and tolerance the
    point-charge energy is an even function of the charge: the real-space
    sum changes sign with q, like the other summands, and the total is
    multiplied by -q/2, so the result for -q is the result for q (an
    error for one is the same error for the other). *)
Theorem pc_energy_even_in_charge (structure : Structure) (g_sum : array3 R)
    (dieltens : mat3) (q gamma tolerance : R) :
  (forall a1 a2 a3 : vec,
      real_sum a1 a2 a3 vzero (- q) dieltens gamma tolerance
      = fmap (M := option) Ropp
          <$> real_sum a1 a2 a3 vzero q dieltens gamma tolerance)
  /\ anisotropic_pc_energy structure g_sum dieltens (- q) gamma tolerance
     = anisotropic_pc_energy structure g_sum dieltens q gamma tolerance.
Proof.
  split.
  - intros a1 a2 a3. apply real_sum_opp.
  - apply pc_energy_opp.
Qed.

(** C2, as the code has it.  For q and -q the energies are equal in
    magnitude and of the same sign, one and the same number; they are of
    opposite sign only when both are zero. *)
Theorem pc_energy_charge_reversal (structure : Structure) (g_sum : array3 R)
    (dieltens : mat3) (q gamma tolerance e e' : R) :
  anisotropic_pc_energy structure g_sum dieltens q gamma tolerance = Ret e ->
  anisotropic_pc_energy structure g_sum dieltens (- q) gamma tolerance = Ret e' ->
  Rabs e' = Rabs e /\ e' = e /\ (e' = - e <-> e = 0).
Proof.
  intros He He'. rewrite pc_energy_opp, He in He'. inversion He'; subst e'.
  split; [reflexivity |]. split; [reflexivity |]. split; intros H; lra.
Qed.

Lemma pc_energy_charge_reversal_witness :
  exists e : R,
    anisotropic_pc_energy cubic_bulk example_g_sum I3 1 1 example_tolerance = Ret e
    /\ anisotropic_pc_energy cubic_bulk example_g_sum I3 (- (1)) 1 example_tolerance
       = Ret e
    /\ Rabs e = Rabs e /\ e = e /\ (e = - e <-> e = 0).
Proof.
  destruct pc_energy_cubic_negative as (e & He & _).
  assert (He' : anisotropic_pc_energy cubic_bulk example_g_sum I3 (- (1)) 1
                  example_tolerance = Ret e)
    by (rewrite pc_energy_opp; exact He).
  exists e. split; [exact He |]. split; [exact He' |].
  exact (pc_energy_charge_reversal cubic_bulk example_g_sum I3 1 1
           example_tolerance e e He He').
Defined.

(** C2 fails as stated: in the example the energies for the charges 1
    and -1 are one and the same number, and it is not its own opposite. *)
Lemma pc_energy_not_odd :
  exists e : R,
    anisotropic_pc_energy cubic_bulk example_g_sum I3 1 1 example_tolerance = Ret e
    /\ anisotropic_pc_energy cubic_bulk example_g_sum I3 (- (1)) 1 example_tolerance
       = Ret e
    /\ e <> - e.
Proof.
  destruct pc_energy_cubic_negative as (e & He & Hneg).
  exists e. split; [exact He |]. split; [rewrite pc_energy_opp; exact He | lra].
Qed.

(** ** The real-space sum *)

(** With a tolerance that is not positive no change is ever below it:
    the loop runs to the cap and the function returns [None]. *)
Lemma first_accepted_never (shell : Z -> R) (realpre tolerance : R) (todo : nat) :
  tolerance <= 0 -> first_accepted shell realpre tolerance todo = None.
Proof.
  intros Htol. induction todo as [| todo IH]; [reflexivity |].
  cbn [first_accepted]. destruct (_ =? _)%Z; [reflexivity |].
  unfold Rltb.
  destruct (Rlt_dec (shell_change shell realpre (Nmaxlength - Z.of_nat (S todo)))
                    tolerance) as [Hlt | _].
  - exfalso. unfold shell_change in Hlt.
    pose proof (Rabs_pos
      (Rabs (scaled_shell shell realpre (Nmaxlength - Z.of_nat (S todo)))
       - Rabs (scaled_shell shell realpre (Nmaxlength - Z.of_nat (S todo) - 1)))).
    lra.
  - rewrite andb_false_r. exact IH.
Qed.

Lemma real_sum_cap_reached (a1 a2 a3 r : vec) (q : R) (dieltens : mat3)
    (gamma tolerance : R) :
  det3 dieltens <> 0 -> tolerance <= 0 ->
  real_sum a1 a2 a3 r q dieltens gamma tolerance = Ret None.
Proof.
  intros Hdet Htol. rewrite (real_sum_regular _ _ _ _ _ _ _ _ Hdet).
  rewrite first_accepted_never; [reflexivity |].
  unfold Rdiv. assert (0 < / hart_to_ev) by (apply Rinv_0_lt_compat; unfold hart_to_ev; lra).
  nra.
Qed.

(** Then there is no point-charge energy: adding to [None] raises. *)
Lemma pc_energy_cap_reached (structure : Structure) (g_sum : array3 R)
    (dieltens : mat3) (q gamma tolerance g000 : R) :
  det3 dieltens <> 0 -> tolerance <= 0 ->
  array3_index g_sum 0 0 0 = Ret g000 ->
  anisotropic_pc_energy structure g_sum dieltens q gamma tolerance
  = Raise TypeError.
Proof.
  intros Hdet Htol Hg. unfold anisotropic_pc_energy.
  rewrite (kumagai_init_regular _ _ Hdet).
  destruct (bohr_rows structure) as [[a1 a2] a3].
  rewrite !bind_Ret, Hg, !bind_Ret.
  rewrite (real_sum_cap_reached _ _ _ _ _ _ _ _ Hdet Htol). reflexivity.
Qed.

(** ** Loops over lists *)

Lemma for_each_unchanged {A S : Type} (body : S -> A -> result S) (l : list A) (s : S) :
  (forall a, In a l -> body s a = Ret s) -> for_each body l s = Ret s.
Proof.
  induction l as [| a l IH]; intros H; [reflexivity |].
  cbn [for_each]. rewrite (H a (or_introl eq_refl)), bind_Ret.
  apply IH. intros b Hb. apply H. right. exact Hb.
Qed.

Lemma for_each_invariant {A S : Type} (P : S -> Prop) (body : S -> A -> result S)
    (l : list A) :
  (forall s a, In a l -> P s -> exists s', body s a = Ret s' /\ P s') ->
  forall s, P s -> exists s', for_each body l s = Ret s' /\ P s'.
Proof.
  induction l as [| a l IH]; intros Hbody s Hs.
  - exists s. split; [reflexivity | exact Hs].
  - cbn [for_each].
    destruct (Hbody s a (or_introl eq_refl) Hs) as (s1 & Hs1 & HP1).
    rewrite Hs1, bind_Ret. apply IH; [| exact HP1].
    intros s2 b Hb. apply Hbody. right. exact Hb.
Qed.

Lemma for_each_preserves {A S : Type} (P : S -> Prop) (body : S -> A -> result S)
    (l : list A) :
  (forall s a s', In a l -> P s -> body s a = Ret s' -> P s') ->
  forall s s', P s -> for_each body l s = Ret s' -> P s'.
Proof.
  induction l as [| a l IH]; intros Hbody s s' Hs Hloop.
  - cbn in Hloop. inversion Hloop; subst. exact Hs.
  - cbn [for_each] in Hloop. destruct (body s a) as [s1 |] eqn:Hs1; [| discriminate].
    rewrite bind_Ret in Hloop.
    apply (IH (fun s0 b s0' Hb => Hbody s0 b s0' (or_intror Hb)) s1 s');
      [| exact Hloop].
    exact (Hbody s a s1 (or_introl eq_refl) Hs Hs1).
Qed.

(** ** The zero charge *)

(** C9.  For every partflag (and every state of the object otherwise,
    also one on which the sums would not converge or would raise), a
    defect charge of zero makes [correction] return 0.0, or the list of
    three zeros for 'AllSplit': neither [pc] nor [potalign] is run. *)
Theorem correction_zero_charge
    (find_defect_pos : Structure -> Structure -> option vec * option vec)
    (closestsites : Structure -> Structure -> vec -> (Site * Z) * (Site * Z))
    (s : KumagaiCorrection.self) (title : bool) (partflag : string) :
  KumagaiCorrection.q s = 0 ->
  KumagaiCorrection.correction find_defect_pos closestsites s title partflag
  = Ret (if String.eqb partflag "AllSplit"
         then Triple (Real 0) (Real 0) (Real 0)
         else Scalar (Real 0)).
Proof.
  intros Hq. unfold KumagaiCorrection.correction, truthy. rewrite Hq.
  destruct (Req_dec_T 0 0) as [_ | H]; [| contradiction].
  cbn [negb]. destruct (String.eqb partflag "AllSplit"); reflexivity.
Qed.

(** ** The defect that is not found *)

(** C8.  When [find_defect_pos] identifies no site of the bulk cell that
    is missing or replaced and no site of the defect cell that is added
    (it returns [None] twice), [disttrans] gives up: it returns [None]
    and no table of sites. *)
Theorem disttrans_defect_not_found
    (find_defect_pos : Structure -> Structure -> option vec * option vec)
    (closestsites : Structure -> Structure -> vec -> (Site * Z) * (Site * Z))
    (struct defstruct : Structure) (dim : Z * Z * Z) :
  find_defect_pos struct defstruct = (None, None) ->
  disttrans find_defect_pos closestsites struct defstruct dim = Ret None.
Proof.
  intros H. unfold disttrans. rewrite H. reflexivity.
Qed.

(** ** The potential alignment with no site outside the radius *)

Lemma np_scale_NaN (c : R) : np_scale c NaN = NaN.
Proof. reflexivity. Qed.

(** After the first loop of [potalign] every record is marked as not
    outside when no distance exceeds the radius. *)
Lemma marked_inside (potinddict : gmap Z SiteRecord) (wsrad : R) :
  (forall (i : Z) (rec : SiteRecord),
      potinddict !! i = Some rec -> ~ dist rec > wsrad) ->
  all_marked_inside (map fst (map_to_list potinddict))
    ((fun rec => set_OutsideWS (Rgtb (dist rec) wsrad) rec) <$> potinddict).
Proof.
  intros Hinside i Hi. apply in_map_iff in Hi.
  destruct Hi as ([i' rec] & Hfst & Hin). cbn in Hfst. subst i'.
  apply list_elem_of_In, elem_of_map_to_list in Hin.
  exists (set_OutsideWS (Rgtb (dist rec) wsrad) rec). split.
  - rewrite lookup_fmap, Hin. reflexivity.
  - cbn. unfold Rgtb. destruct (Rgt_dec (dist rec) wsrad) as [Hgt | _]; [| reflexivity].
    exfalso. exact (Hinside i rec Hin Hgt).
Qed.

(** With no site outside the radius and no title, the site potentials
    are read and then every pass of the two loops over the sites is
    skipped: the list of differences stays empty. *)
Lemma potalign_all_inside
    (find_defect_pos : Structure -> Structure -> option vec * option vec)
    (closestsites : Structure -> Structure -> vec -> (Site * Z) * (Site * Z))
    (s : KumagaiCorrection.self) (potinddict : gmap Z SiteRecord) (wsrad : R) :
  det3 (KumagaiCorrection.dieltens s) <> 0 ->
  disttrans find_defect_pos closestsites (KumagaiCorrection.structure s)
            (KumagaiCorrection.defstructure s) (KumagaiCorrection.dim s)
  = Ret (Some potinddict) ->
  wigner_seitz_radius (KumagaiCorrection.structure s) = Ret wsrad ->
  (forall (i : Z) (rec : SiteRecord),
      potinddict !! i = Some rec -> ~ dist rec > wsrad) ->
  KumagaiCorrection.potalign find_defect_pos closestsites s false
  = (_ ← KumagaiCorrection.bulk_potential s;
     _ ← KumagaiCorrection.defect_potential s;
     Ret NaN).
Proof.
  intros Hdet Hdist Hws Hinside. unfold KumagaiCorrection.potalign.
  rewrite (kumagai_init_regular _ _ Hdet), bind_Ret, Hdist, bind_Ret, Hws, !bind_Ret.
  destruct (KumagaiCorrection.bulk_potential s) as [puredat | e]; [| reflexivity].
  destruct (KumagaiCorrection.defect_potential s) as [defdat | e]; [| reflexivity].
  rewrite !bind_Ret.
  set (keys := map fst (map_to_list potinddict)).
  set (marked := (fun rec => set_OutsideWS (Rgtb (dist rec) wsrad) rec) <$> potinddict).
  assert (Hkeys : forall i, In i keys ->
            exists rec, marked !! i = Some rec /\ OutsideWS rec = Some false).
  { intros i Hi. unfold keys in Hi. apply in_map_iff in Hi.
    destruct Hi as ([i' rec] & Hfst & Hin). cbn in Hfst. subst i'.
    apply list_elem_of_In, elem_of_map_to_list in Hin.
    exists (set_OutsideWS (Rgtb (dist rec) wsrad) rec). split.
    - unfold marked. rewrite lookup_fmap, Hin. reflexivity.
    - cbn. unfold Rgtb. destruct (Rgt_dec (dist rec) wsrad) as [Hgt | _]; [| reflexivity].
      exfalso. exact (Hinside i rec Hin Hgt). }
  rewrite (for_each_unchanged
             (KumagaiCorrection.site_potentials s puredat defdat false) keys marked).
  2:{ intros i Hi. destruct (Hkeys i Hi) as (rec & Hrec & Hout).
      unfold KumagaiCorrection.site_potentials. rewrite Hrec. cbn [dict_item].
      rewrite bind_Ret, Hout. reflexivity. }
  rewrite bind_Ret.
  rewrite (for_each_unchanged (KumagaiCorrection.collect_forcorrection false marked) keys []).
  2:{ intros i Hi. destruct (Hkeys i Hi) as (rec & Hrec & Hout).
      unfold KumagaiCorrection.collect_forcorrection. rewrite Hrec. cbn [dict_item].
      rewrite bind_Ret, Hout. reflexivity. }
  reflexivity.
Qed.

Lemma site_potentials_keeps_inside (s : KumagaiCorrection.self)
    (puredat defdat : list R) (title : bool)
    (keys : list Z) (d d' : gmap Z SiteRecord) (i : Z) :
  In i keys -> all_marked_inside keys d ->
  KumagaiCorrection.site_potentials s puredat defdat title d i = Ret d' ->
  all_marked_inside keys d'.
Proof.
  intros Hi Hd Hstep. destruct (Hd i Hi) as (rec & Hrec & Hout).
  unfold KumagaiCorrection.site_potentials in Hstep.
  rewrite Hrec in Hstep. cbn [dict_item] in Hstep. rewrite bind_Ret in Hstep.
  destruct (negb title && negb (default false (OutsideWS rec))).
  { inversion Hstep; subst. exact Hd. }
  destruct (py_index defdat (def_site_index rec))
    as [vj |]; [| discriminate Hstep].
  rewrite bind_Ret in Hstep.
  destruct (py_index puredat (bulk_site_index rec))
    as [vk |]; [| discriminate Hstep].
  rewrite bind_Ret in Hstep.
  destruct (anisotropic_madelung_potential
              (KumagaiCorrection.structure s) (KumagaiCorrection.dim s)
              (KumagaiCorrection.g_sum s) (cart_reldef rec)
              (KumagaiCorrection.dieltens s) (KumagaiCorrection.q s)
              (KumagaiCorrection.gamma s) (KumagaiCorrection.madetol s))
    as [v_pc |]; [| discriminate Hstep].
  rewrite bind_Ret in Hstep. inversion Hstep; subst d'.
  intros k Hk. destruct (Z.eq_dec i k) as [<- | Hne].
  - eexists. rewrite lookup_insert_eq. split; [reflexivity | exact Hout].
  - rewrite lookup_insert_ne by exact Hne. exact (Hd k Hk).
Qed.

Lemma collect_forcorrection_nothing (title : bool) (keys : list Z)
    (d : gmap Z SiteRecord) :
  all_marked_inside keys d ->
  for_each (KumagaiCorrection.collect_forcorrection title d) keys [] = Ret [].
Proof.
  intros Hd. apply for_each_unchanged. intros i Hi.
  destruct (Hd i Hi) as (rec & Hrec & Hout).
  unfold KumagaiCorrection.collect_forcorrection. rewrite Hrec. cbn [dict_item].
  rewrite bind_Ret, Hout. cbn [default andb negb].
  destruct title; reflexivity.
Qed.

(** C3, as the code has it.  When no site record is farther from the
    defect than the Wigner-Seitz radius, [potalign] raises no error of
    its own.  Called without a plot title it reads the site potentials
    of the bulk and of the defect cell, passing on what a read raises,
    and then returns nan: the list of differences stays empty, its mean
    is nan, and so is -q times it.  With a title and the potentials
    read, the potentials of all sites are computed first, and the only
    outcome other than nan is an exception from there. *)
Theorem potalign_no_site_outside
    (find_defect_pos : Structure -> Structure -> option vec * option vec)
    (closestsites : Structure -> Structure -> vec -> (Site * Z) * (Site * Z))
    (s : KumagaiCorrection.self) (title : bool)
    (potinddict : gmap Z SiteRecord) (wsrad : R) :
  det3 (KumagaiCorrection.dieltens s) <> 0 ->
  disttrans find_defect_pos closestsites (KumagaiCorrection.structure s)
            (KumagaiCorrection.defstructure s) (KumagaiCorrection.dim s)
  = Ret (Some potinddict) ->
  wigner_seitz_radius (KumagaiCorrection.structure s) = Ret wsrad ->
  (forall (i : Z) (rec : SiteRecord),
      potinddict !! i = Some rec -> ~ dist rec > wsrad) ->
  (title = false ->
   KumagaiCorrection.potalign find_defect_pos closestsites s title
   = (_ ← KumagaiCorrection.bulk_potential s;
      _ ← KumagaiCorrection.defect_potential s;
      Ret NaN))
  /\ (forall puredat defdat : list R,
        KumagaiCorrection.bulk_potential s = Ret puredat ->
        KumagaiCorrection.defect_potential s = Ret defdat ->
        (title = false ->
         KumagaiCorrection.potalign find_defect_pos closestsites s title = Ret NaN)
        /\ (KumagaiCorrection.potalign find_defect_pos closestsites s title = Ret NaN
            \/ exists e : exn,
                 KumagaiCorrection.potalign find_defect_pos closestsites s title
                 = Raise e)).
Proof.
  intros Hdet Hdist Hws Hinside.
  assert (Hnone : title = false ->
            KumagaiCorrection.potalign find_defect_pos closestsites s title
            = (_ ← KumagaiCorrection.bulk_potential s;
               _ ← KumagaiCorrection.defect_potential s;
               Ret NaN)).
  { intros ->.
    exact (potalign_all_inside find_defect_pos closestsites s potinddict wsrad
             Hdet Hdist Hws Hinside). }
  split; [exact Hnone |].
  intros puredat defdat Hpure Hdef. split.
  { intros Htitle. rewrite (Hnone Htitle), Hpure, Hdef. reflexivity. }
  unfold KumagaiCorrection.potalign.
  rewrite (kumagai_init_regular _ _ Hdet), bind_Ret, Hdist, bind_Ret, Hws, !bind_Ret.
  rewrite Hpure, bind_Ret, Hdef, bind_Ret.
  set (keys := map fst (map_to_list potinddict)).
  set (marked := (fun rec => set_OutsideWS (Rgtb (dist rec) wsrad) rec)
                   <$> potinddict).
  pose proof (marked_inside potinddict wsrad Hinside) as Hmarked.
  fold keys marked in Hmarked.
  destruct (for_each (KumagaiCorrection.site_potentials s puredat defdat title)
              keys marked)
    as [d' | e] eqn:Hloop; [| right; exists e; reflexivity].
  left. rewrite bind_Ret.
  assert (Hd' : all_marked_inside keys d').
  { apply (for_each_preserves (all_marked_inside keys)
             (KumagaiCorrection.site_potentials s puredat defdat title) keys)
      with (s := marked);
      [| exact Hmarked | exact Hloop].
    intros d a d1 Ha Hd Hstep.
    exact (site_potentials_keeps_inside s puredat defdat title keys d d1 a
             Ha Hd Hstep). }
  rewrite (collect_forcorrection_nothing title keys d' Hd'). reflexivity.
Qed.

(** ** The closest image *)

Lemma insert_by_key_In {A : Type} (x y : R * A) (l : list (R * A)) :
  In y (insert_by_key x l) <-> y = x \/ In y l.
Proof.
  induction l as [| z l IH]; cbn [insert_by_key].
  - cbn. intuition.
  - destruct (Rlt_dec (fst x) (fst z)); cbn [In]; [intuition |].
    rewrite IH. intuition.
Qed.

Lemma insert_by_key_head_least {A : Type} (x : R * A) (l : list (R * A)) :
  head_least l -> head_least (insert_by_key x l).
Proof.
  destruct l as [| h t]; cbn [insert_by_key head_least].
  - intros _ y [-> | []]. lra.
  - intros Hh. destruct (Rlt_dec (fst x) (fst h)) as [Hlt | Hge].
    + intros y [-> | Hy]; [lra |]. specialize (Hh y Hy). lra.
    + intros y [-> | Hy]; [lra |].
      apply insert_by_key_In in Hy. destruct Hy as [-> | Hy]; [lra |].
      apply Hh. right. exact Hy.
Qed.

Lemma sort_fold_spec {A : Type} (l : list (R * A)) :
  forall acc : list (R * A),
    head_least acc ->
    head_least (fold_left (fun sorted x => insert_by_key x sorted) l acc)
    /\ forall y, In y (fold_left (fun sorted x => insert_by_key x sorted) l acc)
                 <-> In y acc \/ In y l.
Proof.
  induction l as [| x l IH]; intros acc Hacc; cbn [fold_left].
  - split; [exact Hacc |]. cbn. intuition.
  - destruct (IH (insert_by_key x acc) (insert_by_key_head_least x acc Hacc))
      as [Hhead Hin].
    split; [exact Hhead |]. intros y. rewrite Hin, insert_by_key_In. cbn. intuition.
Qed.

Lemma sort_by_key_first {A : Type} (l : list (R * A)) (x : R * A) :
  In x l ->
  exists h, py_index (sort_by_key l) 0 = Ret h /\ In h l /\
            forall y, In y l -> fst h <= fst y.
Proof.
  intros Hx. unfold sort_by_key.
  destruct (sort_fold_spec l [] I) as [Hhead Hin].
  destruct (fold_left _ l []) as [| h t] eqn:Hsorted.
  - exfalso. apply (proj2 (Hin x)). right. exact Hx.
  - exists h. split; [reflexivity |]. split.
    + destruct (proj1 (Hin h) (or_introl eq_refl)) as [[] | Hh]. exact Hh.
    + intros y Hy. apply Hhead. apply Hin. right. exact Hy.
Qed.

Section ClosestImage.

Variable defstruct : Structure.
Variables defcell_def_ccoord v : vec.

(** [returnclosestr] returns the displacement from one of the 27 images
    and its length, and no image is closer: the minimum-image vector. *)
Lemma returnclosestr_closest :
  exists (d : R) (rnew transvec : vec),
    returnclosestr defstruct defcell_def_ccoord v = Ret (d, (rnew, transvec))
    /\ d = norm rnew
    /\ (exists i j k : Z, rnew = image_displacement defstruct defcell_def_ccoord v i j k)
    /\ forall i j k : Z,
         (-1 <= i <= 1)%Z -> (-1 <= j <= 1)%Z -> (-1 <= k <= 1)%Z ->
         d <= norm (image_displacement defstruct defcell_def_ccoord v i j k).
Proof.
  unfold returnclosestr, image_displacement.
  destruct (matrix (lattice defstruct)) as [[l1 l2] l3].
  set (entry := fun i j k : Z =>
    (norm (vsub v (vadd defcell_def_ccoord (lattice_vector l1 l2 l3 i j k))),
     (vsub v (vadd defcell_def_ccoord (lattice_vector l1 l2 l3 i j k)),
      lattice_vector l1 l2 l3 i j k))).
  set (listvals := flat_map _ _).
  assert (Hall : forall i j k : Z,
             (-1 <= i <= 1)%Z -> (-1 <= j <= 1)%Z -> (-1 <= k <= 1)%Z ->
             In (entry i j k) listvals).
  { intros i j k Hi Hj Hk.
    assert (Htry : forall n : Z, (-1 <= n <= 1)%Z -> In n [-1; 0; 1]%Z)
      by (intros n Hn; cbn; lia).
    unfold listvals. apply in_flat_map. exists i. split; [apply Htry, Hi |].
    apply in_flat_map. exists j. split; [apply Htry, Hj |].
    apply in_map_iff. exists k. split; [reflexivity | apply Htry, Hk]. }
  assert (Hform : forall y, In y listvals -> exists i j k : Z, y = entry i j k).
  { intros y Hy. unfold listvals in Hy.
    apply in_flat_map in Hy. destruct Hy as (i & _ & Hy).
    apply in_flat_map in Hy. destruct Hy as (j & _ & Hy).
    apply in_map_iff in Hy. destruct Hy as (k & <- & _).
    exists i, j, k. reflexivity. }
  destruct (sort_by_key_first listvals (entry 0 0 0)%Z
              (Hall 0 0 0 ltac:(lia) ltac:(lia) ltac:(lia))%Z)
    as (h & Hh & Hin & Hleast).
  destruct (Hform h Hin) as (i & j & k & ->).
  eexists _, _, _. split; [exact Hh |]. split; [reflexivity |]. split.
  - exists i, j, k. reflexivity.
  - intros i' j' k' Hi Hj Hk. apply (Hleast (entry i' j' k')). apply Hall; assumption.
Qed.

End ClosestImage.

(** ** The table of sites *)

Section SiteTable.

Variable closestsites :
  Structure -> Structure -> vec -> (Site * Z) * (Site * Z).
Variables struct defstruct : Structure.
Variables def_ccoord defcell_def_ccoord : vec.

(** [disttrans_sites] always returns its table, and the distance of
    every record is at most the distance, within the cell, between the
    defect and the defect-cell site paired with some site of the longer
    site list. *)
Lemma disttrans_sites_distances :
  exists grid_sites : gmap Z SiteRecord,
    disttrans_sites closestsites struct defstruct def_ccoord defcell_def_ccoord
    = Ret grid_sites
    /\ forall (i : Z) (rec : SiteRecord),
         grid_sites !! i = Some rec ->
         exists site : Site,
           (In site (sites struct) \/ In site (sites defstruct))
           /\ dist rec
              <= norm (image_displacement defstruct defcell_def_ccoord
                         (coords (paired_defect_site closestsites struct defstruct (coords site))) 0 0 0).
Proof.
  unfold disttrans_sites.
  set (sitelist := if (_ <=? _)%nat then _ else _).
  assert (Hsub : forall site, In site sitelist ->
                   In site (sites struct) \/ In site (sites defstruct)).
  { intros site. unfold sitelist. destruct (_ <=? _)%nat; tauto. }
  set (P := fun grid_sites : gmap Z SiteRecord =>
    forall (i : Z) (rec : SiteRecord),
      grid_sites !! i = Some rec ->
      exists site : Site,
        (In site (sites struct) \/ In site (sites defstruct))
        /\ dist rec
           <= norm (image_displacement defstruct defcell_def_ccoord
                      (coords (paired_defect_site closestsites struct defstruct (coords site))) 0 0 0)).
  apply (for_each_invariant P).
  - intros grid_sites site Hsite HP.
    destruct (array_equal (coords site) def_ccoord).
    { exists grid_sites. split; [reflexivity | exact HP]. }
    unfold paired_defect_site in *.
    destruct (closestsites struct defstruct (coords site))
      as [[blk blkindex] [defsite0 defindex]] eqn:Hclosest.
    destruct (returnclosestr_closest defstruct defcell_def_ccoord (coords defsite0))
      as (d & rnew & transvec & Hret & _ & _ & Hleast).
    rewrite Hret, bind_Ret. eexists. split; [reflexivity |].
    intros i rec Hrec. destruct (Z.eq_dec blkindex i) as [-> | Hne].
    + rewrite lookup_insert_eq in Hrec. inversion Hrec; subst rec. cbn [dist fst].
      exists site. split; [apply Hsub, Hsite |].
      rewrite Hclosest. cbn [fst snd]. apply Hleast; lia.
    + rewrite lookup_insert_ne in Hrec by exact Hne. exact (HP i rec Hrec).
  - intros i rec Hrec. rewrite lookup_empty in Hrec. discriminate.
Qed.

End SiteTable.

(** ** The vacancy example *)

Lemma find_defect_pos_close_pair :
  find_defect_pos_model close_pair_bulk close_pair_vacancy = (Some (0, 0, 0), None).
Proof.
  unfold find_defect_pos_model, has_site_at, close_pair_bulk, close_pair_vacancy,
    cubic_site, array_equal.
  cbn [sites coords find existsb negb orb].
  decide_reals; cbn; decide_reals; reflexivity.
Qed.

Lemma find_defect_pos_same_structure :
  find_defect_pos_model cubic_bulk cubic_bulk = (None, None).
Proof.
  unfold find_defect_pos_model, has_site_at, cubic_bulk, cubic_site, array_equal.
  cbn [sites coords species_string find existsb negb orb andb].
  decide_reals; cbn; decide_reals; reflexivity.
Qed.

Lemma sqrt_quarter : sqrt (1 / 4) = 1 / 2.
Proof.
  replace (1 / 4) with ((1 / 2) * (1 / 2)) by field. apply sqrt_square. lra.
Qed.

Lemma wigner_seitz_radius_cubic (l : list Site) :
  wigner_seitz_radius {| lattice := cubic_lattice; sites := l |} = Ret (1 / 2).
Proof.
  unfold wigner_seitz_radius, cubic_lattice, cube_facets, vec_mean, norm, py_min.
  cbn [lattice get_wigner_seitz_cell map fold_left length vadd vzero smul dot INR].
  repeat match goal with
         | |- context [sqrt ?x] =>
             progress replace x with (1 / 4) by field
         end.
  rewrite sqrt_quarter. cbn [fold_left].
  unfold Rmin. decide_reals; reflexivity.
Qed.

Lemma close_pair_neighbour_distance (pos : vec) :
  norm (image_displacement close_pair_vacancy (0, 0, 0)
          (coords (paired_defect_site closestsites_model close_pair_bulk
                     close_pair_vacancy pos)) 0 0 0)
  <= 1 / 2.
Proof.
  unfold paired_defect_site, closestsites_model, closest_site, close_pair_vacancy.
  cbn [sites closest_site_from snd fst cubic_site coords].
  unfold image_displacement, cubic_lattice, I3, lattice_vector.
  cbn [lattice matrix vadd vsub smul]. unfold norm, dot.
  rewrite <- sqrt_quarter. apply sqrt_le_1_alt. lra.
Qed.

Lemma closestsites_close_pair :
  closestsites_model close_pair_bulk close_pair_vacancy (3 / 10, 0, 0)
  = ((cubic_site (3 / 10) 0 0, 1%Z), (cubic_site (3 / 10) 0 0, 0%Z)).
Proof.
  unfold closestsites_model, closest_site, close_pair_bulk, close_pair_vacancy.
  cbn [sites closest_site_from fst coords cubic_site].
  assert (Hnear : norm (vsub (3 / 10, 0, 0) (3 / 10, 0, 0)) = 0).
  { unfold norm, vsub, dot.
    replace ((3 / 10 - 3 / 10) * (3 / 10 - 3 / 10) + (0 - 0) * (0 - 0)
             + (0 - 0) * (0 - 0)) with 0 by ring.
    apply sqrt_0. }
  assert (Hfar : 0 < norm (vsub (0, 0, 0) (3 / 10, 0, 0))).
  { unfold norm, vsub, dot. apply sqrt_lt_R0. lra. }
  rewrite Hnear.
  destruct (Rlt_dec 0 (norm (vsub (0, 0, 0) (3 / 10, 0, 0)))); [reflexivity | contradiction].
Qed.

(** In the example [disttrans] returns a table; it holds the record of
    the neighbour of the vacancy and every site of it is within the
    Wigner-Seitz radius of the defect. *)
Lemma close_pair_table :
  exists potinddict : gmap Z SiteRecord,
    disttrans find_defect_pos_model closestsites_model
              close_pair_bulk close_pair_vacancy (2, 2, 2)%Z
    = Ret (Some potinddict)
    /\ (exists rec : SiteRecord,
          potinddict !! 1%Z = Some rec
          /\ bulk_site_index rec = 1%Z /\ def_site_index rec = 0%Z)
    /\ forall (i : Z) (rec : SiteRecord),
         potinddict !! i = Some rec -> dist rec <= 1 / 2.
Proof.
  unfold disttrans. rewrite find_defect_pos_close_pair.
  destruct (disttrans_sites_distances closestsites_model close_pair_bulk
              close_pair_vacancy (0, 0, 0) (0, 0, 0)) as (d & Hd & Hdist).
  exists d. rewrite Hd. split; [reflexivity |]. split.
  - unfold disttrans_sites in Hd.
    cbn [sites close_pair_bulk close_pair_vacancy length Nat.leb for_each coords
           cubic_site] in Hd.
    assert (E1 : array_equal (0, 0, 0) (0, 0, 0) = true)
      by (unfold array_equal; decide_reals; reflexivity).
    assert (E2 : array_equal (3 / 10, 0, 0) (0, 0, 0) = false)
      by (unfold array_equal; decide_reals; reflexivity).
    rewrite E1, E2, bind_Ret in Hd.
    rewrite closestsites_close_pair in Hd.
    destruct (returnclosestr _ _ _) as [closeimage | e]; [| discriminate].
    rewrite !bind_Ret in Hd. inversion Hd as [Hd'].
    eexists. rewrite lookup_insert_eq. split; [reflexivity | split; reflexivity].
  - intros i rec Hrec. destruct (Hdist i rec Hrec) as (site & _ & Hle).
    eapply Rle_trans; [exact Hle | apply close_pair_neighbour_distance].
Qed.

Lemma potalign_no_site_outside_witness :
  KumagaiCorrection.potalign find_defect_pos_model closestsites_model
    vacancy_correction false = Ret NaN
  /\ KumagaiCorrection.potalign find_defect_pos_model closestsites_model
       unread_vacancy_correction false = Raise IndexError.
Proof.
  destruct close_pair_table as (potinddict & Htable & _ & Hinside).
  split.
  - apply (proj1 (potalign_no_site_outside find_defect_pos_model closestsites_model
                    vacancy_correction false potinddict (1 / 2)
                    det3_I3_nonzero Htable (wigner_seitz_radius_cubic _)
                    (fun i rec Hrec Hgt =>
                       Rlt_not_le _ _ Hgt (Hinside i rec Hrec)))).
    reflexivity.
  - apply (proj1 (potalign_no_site_outside find_defect_pos_model closestsites_model
                    unread_vacancy_correction false potinddict (1 / 2)
                    det3_I3_nonzero Htable (wigner_seitz_radius_cubic _)
                    (fun i rec Hrec Hgt =>
                       Rlt_not_le _ _ Hgt (Hinside i rec Hrec)))).
    reflexivity.
Defined.

(** C3 fails as stated: in the example the table has the record of the
    neighbour of the vacancy, no site is outside the Wigner-Seitz radius,
    the site potentials of both cells are read, and [potalign] does not
    fail: it returns nan. *)
Lemma potalign_returns_nan :
  exists (potinddict : gmap Z SiteRecord) (wsrad : R),
    disttrans find_defect_pos_model closestsites_model
      (KumagaiCorrection.structure vacancy_correction)
      (KumagaiCorrection.defstructure vacancy_correction)
      (KumagaiCorrection.dim vacancy_correction) = Ret (Some potinddict)
    /\ (exists rec : SiteRecord, potinddict !! 1%Z = Some rec)
    /\ wigner_seitz_radius (KumagaiCorrection.structure vacancy_correction)
       = Ret wsrad
    /\ (forall (i : Z) (rec : SiteRecord),
          potinddict !! i = Some rec -> ~ dist rec > wsrad)
    /\ KumagaiCorrection.bulk_potential vacancy_correction = Ret [0; 0]
    /\ KumagaiCorrection.defect_potential vacancy_correction = Ret [0]
    /\ KumagaiCorrection.potalign find_defect_pos_model closestsites_model
         vacancy_correction false = Ret NaN.
Proof.
  destruct close_pair_table as (potinddict & Htable & (rec1 & Hrec1 & _) & Hinside).
  assert (Hin : forall (i : Z) (rec : SiteRecord),
             potinddict !! i = Some rec -> ~ dist rec > 1 / 2).
  { intros i rec Hrec Hgt. specialize (Hinside i rec Hrec). lra. }
  exists potinddict, (1 / 2).
  split; [exact Htable |]. split; [exists rec1; exact Hrec1 |].
  split; [exact (wigner_seitz_radius_cubic _) |].
  split; [exact Hin |]. split; [reflexivity |]. split; [reflexivity |].
  exact (potalign_all_inside find_defect_pos_model closestsites_model
           vacancy_correction potinddict (1 / 2) det3_I3_nonzero Htable
           (wigner_seitz_radius_cubic _) Hin).
Qed.

Lemma disttrans_defect_not_found_witness :
  disttrans find_defect_pos_model closestsites_model cubic_bulk cubic_bulk
            (2, 2, 2)%Z = Ret None.
Proof.
  exact (disttrans_defect_not_found find_defect_pos_model closestsites_model
           cubic_bulk cubic_bulk (2, 2, 2)%Z find_defect_pos_same_structure).
Defined.

(** On the neutral example both parts of the correction would raise. *)
Lemma neutral_correction_sums_raise :
  KumagaiCorrection.pc neutral_correction = Raise LinAlgError
  /\ forall title,
       KumagaiCorrection.potalign find_defect_pos_model closestsites_model
         neutral_correction title = Raise LinAlgError.
Proof.
  assert (Hdet : det3 (KumagaiCorrection.dieltens neutral_correction) = 0).
  { cbn. unfold det3, dot, cross. ring. }
  split.
  - unfold KumagaiCorrection.pc, anisotropic_pc_energy.
    rewrite (kumagai_init_singular _ _ Hdet). reflexivity.
  - intros title. unfold KumagaiCorrection.potalign.
    rewrite (kumagai_init_singular _ _ Hdet). reflexivity.
Qed.

Lemma correction_zero_charge_witness :
  KumagaiCorrection.correction find_defect_pos_model closestsites_model
    neutral_correction false "All" = Ret (Scalar (Real 0))
  /\ KumagaiCorrection.correction find_defect_pos_model closestsites_model
       neutral_correction false "AllSplit"
     = Ret (Triple (Real 0) (Real 0) (Real 0)).
Proof.
  split.
  - exact (correction_zero_charge find_defect_pos_model closestsites_model
             neutral_correction false "All" eq_refl).
  - exact (correction_zero_charge find_defect_pos_model closestsites_model
             neutral_correction false "AllSplit" eq_refl).
Defined.

(** ** The search for gamma *)

Section GammaSearch.

Variable genrecip : vec -> vec -> vec -> Z -> list vec.
Variable s : KumagaiBulkInit.self.
Variables a1 a2 a3 : vec.
Variable vol : R.

Let get_recippart := KumagaiBulkInit.get_recippart genrecip s a1 a2 a3 vol.
Let converge_while := KumagaiBulkInit.converge_while genrecip s a1 a2 a3 vol.
Let do_summation := KumagaiBulkInit.do_summation genrecip s a1 a2 a3 vol.
Let gamma_while := KumagaiBulkInit.gamma_while genrecip s a1 a2 a3 vol.

(** The imaginary part that [get_recippart] returns is 0.0. *)
Lemma get_recippart_imag (encut_now : Z) (gamma : R) :
  snd (get_recippart encut_now gamma) = 0.
Proof. reflexivity. Qed.

(** What the inner loop returns: the two last sums agree within the
    tolerance, and the imaginary part is still 0.0. *)
Lemma converge_while_returns (passes : nat) (gamma : R) :
  forall (encut_now : Z) (converge : R * R) (recippartreal : R)
         (encut' : Z) (converge' : R * R) (recippartreal' recippartimag' : R),
    converge_while passes gamma encut_now converge recippartreal 0
    = Some (Ret (encut', converge', recippartreal', recippartimag')) ->
    recippartimag' = 0
    /\ ~ Rabs (Rabs (fst converge') - Rabs (snd converge')) * hart_to_ev
         > KumagaiBulkInit.tolerance s.
Proof.
  unfold converge_while.
  induction passes as [| passes IH]; intros e c rr e' c' rr' ri' H;
    cbn [KumagaiBulkInit.converge_while] in H;
    destruct (Rgt_dec _ (KumagaiBulkInit.tolerance s)) as [Hgt | Hle];
    try discriminate.
  - inversion H; subst. split; [reflexivity | exact Hle].
  - cbn [KumagaiBulkInit.get_recippart] in H.
    destruct (Rgt_dec (IZR (e + 10)) (KumagaiBulkInit.encut s)); [discriminate |].
    exact (IH _ _ _ _ _ _ _ H).
  - inversion H; subst. split; [reflexivity | exact Hle].
Qed.

(** The inner loop ends within the passes [do_summation] gives it. *)
Lemma converge_while_ends (passes : nat) (gamma : R) :
  forall (encut_now : Z) (converge : R * R) (recippartreal recippartimag : R),
    (1 <= passes)%nat ->
    IZR encut_now + 10 * INR passes > KumagaiBulkInit.encut s ->
    converge_while passes gamma encut_now converge recippartreal recippartimag
    <> None.
Proof.
  unfold converge_while.
  induction passes as [| passes IH]; intros e c rr ri Hp Hfuel; [lia |].
  cbn [KumagaiBulkInit.converge_while].
  destruct (Rgt_dec _ (KumagaiBulkInit.tolerance s)); [| discriminate].
  cbn [KumagaiBulkInit.get_recippart].
  destruct (Rgt_dec (IZR (e + 10)) (KumagaiBulkInit.encut s)) as [Hover | Hunder];
    [discriminate |].
  rewrite S_INR in Hfuel. rewrite plus_IZR in Hunder.
  destruct passes as [| passes'].
  - cbn [INR] in Hfuel. lra.
  - apply IH; [lia |]. rewrite plus_IZR. lra.
Qed.

Lemma do_summation_ends (gamma : R) : do_summation gamma <> None.
Proof.
  unfold do_summation, KumagaiBulkInit.do_summation.
  cbn [KumagaiBulkInit.get_recippart].
  match goal with
  | |- context [KumagaiBulkInit.converge_while ?g ?s' ?b1 ?b2 ?b3 ?v ?p ?ga ?e ?c ?rr ?ri] =>
      pose proof (converge_while_ends p ga e c rr ri) as Hends;
      unfold converge_while in Hends;
      destruct (KumagaiBulkInit.converge_while g s' b1 b2 b3 v p ga e c rr ri)
        as [[[[[e' c'] rr'] ri'] | err] |]
  end.
  - destruct (Rgt_dec _ _); [discriminate |]. destruct (_ && _); discriminate.
  - discriminate.
  - exfalso. apply Hends; [unfold KumagaiBulkInit.converge_passes; lia | | reflexivity].
    unfold KumagaiBulkInit.converge_passes. rewrite S_INR, INR_IZR_INZ.
    pose proof (Zfloor_bound (KumagaiBulkInit.encut s / 10)) as [_ Hfl].
    assert (Hz : IZR (Zfloor (KumagaiBulkInit.encut s / 10))
                 <= IZR (Z.of_nat (Z.to_nat (Zfloor (KumagaiBulkInit.encut s / 10)))))
      by (apply IZR_le; lia).
    change (IZR (20 + 10)) with 30. lra.
Qed.

(** A candidate whose converged sum is below 1 eV in magnitude makes
    [do_summation] answer 'Try Again'. *)
Lemma do_summation_try_again (gamma : R) (encut' : Z) (converge' : R * R)
    (recippartreal' recippartimag' : R) :
  converge_while (KumagaiBulkInit.converge_passes s) gamma 30
    (fst (get_recippart 20 gamma), fst (get_recippart 30 gamma))
    (fst (get_recippart 30 gamma)) 0
  = Some (Ret (encut', converge', recippartreal', recippartimag')) ->
  Rabs (snd converge') * hart_to_ev < 1 ->
  do_summation gamma = Some (Ret (None, TryAgain)).
Proof.
  intros Hloop Hsmall.
  destruct (converge_while_returns _ _ _ _ _ _ _ _ _ Hloop) as [-> Hconv].
  unfold do_summation, KumagaiBulkInit.do_summation.
  cbn [KumagaiBulkInit.get_recippart].
  unfold converge_while, get_recippart in Hloop.
  cbn [KumagaiBulkInit.get_recippart fst] in Hloop.
  change (20 + 10)%Z with 30%Z. rewrite Hloop.
  destruct (Rgt_dec (Rabs 0 * hart_to_ev) (KumagaiBulkInit.tolerance s)) as [Himag | _].
  - exfalso. apply Hconv. rewrite Rabs_R0, Rmult_0_l in Himag.
    pose proof (Rabs_pos (Rabs (fst converge') - Rabs (snd converge'))).
    unfold hart_to_ev in *. nra.
  - unfold Rltb. destruct (Rlt_dec _ 1); [reflexivity | contradiction].
Qed.


(** From a positive candidate the outer loop ends within [gamma_passes]. *)
Lemma gamma_while_ends (passes : nat) :
  forall gamma : R,
    0 < gamma -> (1 <= passes)%nat -> 50 < gamma * (1 + INR passes / 2) ->
    gamma_while passes gamma <> None.
Proof.
  unfold gamma_while.
  induction passes as [| passes IH]; intros gamma Hpos Hp Hfuel; [lia |].
  cbn [KumagaiBulkInit.gamma_while].
  pose proof (do_summation_ends gamma) as Hsum. unfold do_summation in Hsum.
  destruct (KumagaiBulkInit.do_summation genrecip s a1 a2 a3 vol gamma)
    as [[[recippartreal og] | e] |]; [| discriminate | contradiction].
  destruct og as [| | g]; cbn.
  - discriminate.
  - destruct (Rgt_dec (gamma * (3 / 2)) 50) as [Hgt | Hle]; [discriminate |].
    rewrite S_INR in Hfuel.
    destruct passes as [| passes'].
    + cbn [INR] in Hfuel. lra.
    + apply IH; [lra | lia |].
      assert (0 <= INR (S passes')) by apply pos_INR. nra.
  - destruct (Req_dec_T g gamma); [| discriminate].
    destruct (Rgt_dec gamma 50); discriminate.
Qed.

End GammaSearch.


(** When every positive candidate is told to try again, the search that
    ends can only end without a gamma. *)
Lemma gamma_while_exhausted
    (genrecip : vec -> vec -> vec -> Z -> list vec) (s : KumagaiBulkInit.self)
    (a1 a2 a3 : vec) (vol : R) :
  (forall gamma, 0 < gamma ->
     KumagaiBulkInit.do_summation genrecip s a1 a2 a3 vol gamma
     = Some (Ret (None, TryAgain))) ->
  forall (passes : nat) (gamma : R),
    0 < gamma ->
    KumagaiBulkInit.gamma_while genrecip s a1 a2 a3 vol passes gamma <> None ->
    KumagaiBulkInit.gamma_while genrecip s a1 a2 a3 vol passes gamma
    = Some (Ret None).
Proof.
  intros Htry. induction passes as [| passes IH]; intros gamma Hpos Hends;
    cbn [KumagaiBulkInit.gamma_while] in *; [contradiction |].
  rewrite (Htry gamma Hpos) in *. cbn in *.
  destruct (Rgt_dec (gamma * (3 / 2)) 50); [reflexivity |].
  apply IH; [lra | exact Hends].
Qed.

Lemma gamma_passes_enough (gamma : R) :
  0 < gamma ->
  50 < gamma * (1 + INR (KumagaiBulkInit.gamma_passes gamma) / 2).
Proof.
  intros Hpos. unfold KumagaiBulkInit.gamma_passes. rewrite S_INR, INR_IZR_INZ.
  pose proof (archimed (100 / gamma)) as [Hup _].
  assert (Hz : IZR (up (100 / gamma))
               <= IZR (Z.of_nat (Z.to_nat (up (100 / gamma)))))
    by (apply IZR_le; lia).
  assert (Hx : gamma * (100 / gamma) = 100) by (field; lra).
  nra.
Qed.

(** [find_optimal_gamma] ends: the passes it gives its loops are enough. *)
Lemma find_optimal_gamma_ends
    (genrecip : vec -> vec -> vec -> Z -> list vec) (s : KumagaiBulkInit.self) :
  KumagaiBulkInit.find_optimal_gamma genrecip s <> None.
Proof.
  unfold KumagaiBulkInit.find_optimal_gamma.
  destruct (kumagai_init _ _) as [[[[[angset [[a1 a2] a3]] vol] determ] invdiel] | e];
    [| discriminate].
  assert (Hpos : 0 < 5 / Rpower vol (1 / 3)).
  { apply Rdiv_lt_0_compat; [lra | apply exp_pos]. }
  apply gamma_while_ends; [exact Hpos | unfold KumagaiBulkInit.gamma_passes; lia |].
  apply gamma_passes_enough, Hpos.
Qed.

(** ** The bulk example: a search for gamma that is exhausted *)

Lemma exp_nonpos_le_1 (x : R) : x <= 0 -> 0 < exp x <= 1.
Proof.
  intros Hx. split; [apply exp_pos |].
  destruct (Rle_lt_or_eq_dec x 0 Hx) as [Hlt | ->].
  - left. rewrite <- exp_0. apply exp_increasing. exact Hlt.
  - rewrite exp_0. lra.
Qed.

Lemma example_recippart_small (a1 a2 a3 : vec) (gamma : R) :
  0 < gamma -> Rabs (example_recippart a1 a2 a3 gamma) * hart_to_ev < 1.
Proof.
  intros Hpos. unfold example_recippart, KumagaiBulkInit.get_recippart,
    single_vector_genrecip.
  cbn [fst fold_left KumagaiBulkInit.epsilon cubic_bulk_init].
  rewrite mat_vec_I3. unfold dot.
  replace (10 * 10 + 0 * 0 + 0 * 0) with 100 by ring.
  assert (Hx : - (100) / (4 * gamma ^ 2) <= 0).
  { unfold Rdiv. assert (0 < / (4 * gamma ^ 2)) by (apply Rinv_0_lt_compat; nra). nra. }
  pose proof (exp_nonpos_le_1 _ Hx) as [He0 He1].
  set (E := exp (- (100) / (4 * gamma ^ 2))) in *.
  pose proof PI_gt_3 as Hpi3. pose proof PI_4 as Hpi4.
  assert (Hv : 0 < / (ang_to_bohr ^ 3) <= 1 / 6).
  { unfold ang_to_bohr. split; [apply Rinv_0_lt_compat; lra |].
    replace (1 / 6) with (/ 6) by lra. apply Rinv_le_contravar; lra. }
  set (iv := / (ang_to_bohr ^ 3)) in *.
  assert (Hval : 0 <= (0 + E / 100) * (4 * PI / ang_to_bohr ^ 3) <= 3 / 100).
  { assert (Hp : 0 <= PI * iv <= 4 / 6) by (split; nra).
    replace ((0 + E / 100) * (4 * PI / ang_to_bohr ^ 3))
      with (E * (PI * iv) * (4 / 100)) by (unfold iv; field; unfold ang_to_bohr; lra).
    set (p := PI * iv) in *. split; nra. }
  rewrite Rabs_pos_eq by lra. unfold hart_to_ev. lra.
Qed.

Lemma example_try_again (a1 a2 a3 : vec) (gamma : R) :
  0 < gamma ->
  KumagaiBulkInit.do_summation single_vector_genrecip cubic_bulk_init
    a1 a2 a3
    (ang_to_bohr ^ 3) gamma
  = Some (Ret (None, TryAgain)).
Proof.
  intros Hpos.
  apply (do_summation_try_again _ _ _ _ _ _ _ 30%Z
           (example_recippart a1 a2 a3 gamma, example_recippart a1 a2 a3 gamma)
           (example_recippart a1 a2 a3 gamma) 0).
  - unfold KumagaiBulkInit.converge_passes.
    cbn [KumagaiBulkInit.converge_while fst snd].
    change (fst (KumagaiBulkInit.get_recippart single_vector_genrecip cubic_bulk_init
                   a1 a2 a3
                   (ang_to_bohr ^ 3) 20 gamma))
      with (example_recippart a1 a2 a3 gamma).
    fold (example_recippart a1 a2 a3 gamma).
    rewrite Rminus_diag, Rabs_R0, Rmult_0_l. cbn [KumagaiBulkInit.tolerance cubic_bulk_init].
    destruct (Rgt_dec 0 (1 / 10000)) as [Hgt | _]; [lra | reflexivity].
  - cbn [snd]. apply example_recippart_small, Hpos.
Qed.

(** In the example every candidate is rejected, and the search that
    starts at 5 / vol^(1/3) ends without a gamma. *)
Lemma find_optimal_gamma_exhausted :
  KumagaiBulkInit.find_optimal_gamma single_vector_genrecip cubic_bulk_init
  = Some (Ret None).
Proof.
  pose proof (find_optimal_gamma_ends single_vector_genrecip cubic_bulk_init) as Hends.
  unfold KumagaiBulkInit.find_optimal_gamma in *.
  cbn [KumagaiBulkInit.structure KumagaiBulkInit.epsilon cubic_bulk_init] in *.
  rewrite (kumagai_init_regular _ _ det3_I3_nonzero) in *.
  destruct (bohr_rows cubic_bulk) as [[a1 a2] a3].
  rewrite bohr_volume_cubic in *.
  apply gamma_while_exhausted.
  - intros gamma Hpos. apply example_try_again, Hpos.
  - apply Rdiv_lt_0_compat; [lra | apply exp_pos].
  - exact Hends.
Qed.


(** ** The grid index of a position *)

Lemma add_while_negative_floor (passes : nat) :
  forall r : R, Zfloor r = (- Z.of_nat passes)%Z ->
                add_while_negative passes r = r + INR passes.
Proof.
  induction passes as [| passes IH]; intros r Hfl.
  - cbn. lra.
  - cbn [add_while_negative].
    pose proof (Zfloor_bound r) as [_ Hub]. rewrite Hfl in Hub.
    assert (Hneg : r < 0).
    { assert (IZR (- Z.of_nat (S passes)) + 1 <= 0).
      { rewrite <- (plus_IZR _ 1). apply IZR_le. lia. }
      lra. }
    destruct (Rlt_dec r 0); [| contradiction].
    rewrite IH.
    + rewrite S_INR. ring.
    + change 1 with (IZR 1). rewrite Zfloor_addz, Hfl. lia.
Qed.

Lemma sub_while_ge_one_floor (passes : nat) :
  forall r : R, Zfloor r = Z.of_nat passes ->
                sub_while_ge_one passes r = r - INR passes.
Proof.
  induction passes as [| passes IH]; intros r Hfl.
  - cbn. lra.
  - cbn [sub_while_ge_one].
    pose proof (Zfloor_bound r) as [Hlb _]. rewrite Hfl in Hlb.
    assert (Hge : r >= 1).
    { assert (1 <= IZR (Z.of_nat (S passes))) by (apply IZR_le; lia). lra. }
    destruct (Rge_dec r 1); [| contradiction].
    rewrite IH.
    + rewrite S_INR. ring.
    + replace (r - 1) with (r + IZR (-1)) by (change (IZR (-1)) with (- (1)); ring).
      rewrite Zfloor_addz, Hfl. lia.
Qed.

(** The two while loops of [getgridind] take a coordinate to its
    fractional part. *)
Lemma wrap_unit_frac (r : R) : wrap_unit r = r - IZR (Zfloor r).
Proof.
  unfold wrap_unit. pose proof (Zfloor_bound r) as [Hlb Hub].
  destruct (Rlt_dec r 0) as [Hneg | Hnonneg].
  - assert (Hz : (Zfloor r < 0)%Z).
    { apply lt_IZR. lra. }
    rewrite (add_while_negative_floor _ r) by lia.
    rewrite INR_IZR_INZ, Z2Nat.id by lia. rewrite opp_IZR. ring.
  - destruct (Rge_dec r 1) as [Hge | Hlt].
    + assert (Hz : (0 <= Zfloor r)%Z).
      { apply Zfloor_lub. lra. }
      rewrite (sub_while_ge_one_floor _ r) by lia.
      rewrite INR_IZR_INZ, Z2Nat.id by lia. reflexivity.
    + rewrite (Zfloor_eq 0 r) by lra. lra.
Qed.

Lemma wrap_unit_range (r : R) : 0 <= wrap_unit r < 1.
Proof. rewrite wrap_unit_frac. pose proof (Zfloor_bound r). lra. Qed.

Lemma lookup_py_range (lo hi : Z) (m : nat) :
  (Z.of_nat m < hi - lo)%Z -> py_range lo hi !! m = Some (lo + Z.of_nat m)%Z.
Proof.
  intros Hm. unfold py_range. rewrite list_lookup_fmap.
  rewrite lookup_seq_lt by lia. reflexivity.
Qed.

Lemma lookup_py_range_Some (lo hi : Z) (m : nat) (z : Z) :
  py_range lo hi !! m = Some z -> (z = lo + Z.of_nat m /\ Z.of_nat m < hi - lo)%Z.
Proof.
  intros H. unfold py_range in H. rewrite list_lookup_fmap in H.
  destruct (seq 0 (Z.to_nat (hi - lo)) !! m) as [n |] eqn:Hn; [| discriminate].
  apply lookup_seq in Hn. destruct Hn as [-> Hlt]. cbn in H. inversion H. lia.
Qed.

(** [np.argmin] returns a position of the list, and no entry is below
    the entry there. *)
Lemma argmin_from_least (l : list R) :
  forall (prefix : list R) (best : nat) (bestv : R),
    prefix !! best = Some bestv ->
    (forall m y, prefix !! m = Some y -> bestv <= y) ->
    exists v, (prefix ++ l) !! argmin_from l (length prefix) best bestv = Some v
              /\ forall m y, (prefix ++ l) !! m = Some y -> v <= y.
Proof.
  induction l as [| x l IH]; intros prefix best bestv Hbest Hleast.
  - cbn [argmin_from]. rewrite app_nil_r. exists bestv. split; assumption.
  - cbn [argmin_from].
    replace (prefix ++ x :: l) with ((prefix ++ [x]) ++ l)
      by (rewrite <- app_assoc; reflexivity).
    replace (S (length prefix)) with (length (prefix ++ [x]))
      by (rewrite length_app; cbn; lia).
    destruct (Rlt_dec x bestv) as [Hlt | Hge].
    + apply IH.
      * rewrite lookup_app_r by lia. rewrite Nat.sub_diag. reflexivity.
      * intros m y Hm. apply lookup_app_Some in Hm.
        destruct Hm as [Hm | [_ Hm]].
        -- specialize (Hleast m y Hm). lra.
        -- destruct (m - length prefix)%nat; cbn in Hm; [| discriminate].
           inversion Hm. lra.
    + apply IH.
      * apply lookup_app_l_Some. exact Hbest.
      * intros m y Hm. apply lookup_app_Some in Hm.
        destruct Hm as [Hm | [_ Hm]].
        -- exact (Hleast m y Hm).
        -- destruct (m - length prefix)%nat; cbn in Hm; [| discriminate].
           inversion Hm. lra.
Qed.

Lemma np_argmin_least (l : list R) (ind : nat) :
  np_argmin l = Ret ind ->
  exists v, l !! ind = Some v /\ forall m y, l !! m = Some y -> v <= y.
Proof.
  destruct l as [| y l]; [discriminate |]. cbn [np_argmin]. intros H.
  inversion H as [Hind].
  apply (argmin_from_least l [y] 0%nat y).
  - reflexivity.
  - intros m z Hm. destruct m; cbn in Hm; [inversion Hm; lra | discriminate].
Qed.

Lemma py_index_Ret_lookup {A : Type} (l : list A) (i : nat) (a : A) :
  py_index l (Z.of_nat i) = Ret a -> l !! i = Some a.
Proof.
  unfold py_index.
  destruct (Z.ltb_spec (Z.of_nat i) 0) as [Hneg | _]; [lia |].
  destruct (Z.ltb_spec (Z.of_nat i) 0) as [Hneg | _]; [lia |].
  rewrite Nat2Z.id. destruct (l !! i); [| discriminate].
  intros H. inversion H. reflexivity.
Qed.

Lemma grid_index_axis_nearest (abc_i : R) (num_pts : Z) (f : R) (ind : Z) :
  grid_index_axis abc_i num_pts f = Ret ind ->
  nearest_grid_index abc_i num_pts f ind.
Proof.
  unfold grid_index_axis. intros H.
  destruct (py_index (grid_points abc_i num_pts) 1) as [x1 |]; [| discriminate].
  destruct (py_index (grid_points abc_i num_pts) 0) as [x0 |]; [| discriminate].
  rewrite !bind_Ret in H.
  destruct (np_argmin _) as [n |] eqn:Hmin; [| discriminate].
  rewrite bind_Ret in H.
  destruct (py_index _ (Z.of_nat n)) as [d |]; [| discriminate].
  rewrite bind_Ret in H. destruct (Rgt_dec d _); [discriminate |].
  inversion H; subst ind. clear H.
  destruct (np_argmin_least _ _ Hmin) as (v & Hv & Hleast).
  unfold grid_points in Hv, Hleast.
  rewrite !list_lookup_fmap in Hv.
  destruct (py_range 0 num_pts !! n) as [z |] eqn:Hz; [| discriminate].
  apply lookup_py_range_Some in Hz. destruct Hz as [-> Hn].
  cbn in Hv. inversion Hv as [Hveq]. split; [lia |].
  intros m Hm.
  replace (IZR (Z.of_nat n)) with (IZR (0 + Z.of_nat n)) by (f_equal; lia).
  rewrite Hveq. apply (Hleast (Z.to_nat m)).
  rewrite !list_lookup_fmap, lookup_py_range by lia.
  rewrite Z2Nat.id by lia. reflexivity.
Qed.

Lemma getgridind_nearest (structure : Structure) (dim : Z * Z * Z) (f : vec)
    (i j k : Z) :
  getgridind structure dim f = Ret (i, j, k) ->
  let '(abc1, abc2, abc3) := abc (lattice structure) in
  let '(dim1, dim2, dim3) := dim in
  let '(f1, f2, f3) := f in
  nearest_grid_index abc1 dim1 f1 i
  /\ nearest_grid_index abc2 dim2 f2 j
  /\ nearest_grid_index abc3 dim3 f3 k.
Proof.
  unfold getgridind.
  destruct (abc (lattice structure)) as [[abc1 abc2] abc3].
  destruct dim as [[dim1 dim2] dim3]. destruct f as [[f1 f2] f3].
  destruct (grid_index_axis abc1 dim1 f1) as [i' |] eqn:Hi; [| discriminate].
  destruct (grid_index_axis abc2 dim2 f2) as [j' |] eqn:Hj; [| discriminate].
  destruct (grid_index_axis abc3 dim3 f3) as [k' |] eqn:Hk; [| discriminate].
  rewrite !bind_Ret. intros H. inversion H; subst.
  auto using grid_index_axis_nearest.
Qed.

Lemma Rdiv_nonneg (a b : R) : 0 <= a -> 0 < b -> 0 <= a / b.
Proof.
  intros Ha Hb. unfold Rdiv. apply Rmult_le_pos; [exact Ha |].
  left. apply Rinv_0_lt_compat. exact Hb.
Qed.

Lemma np_argmin_returns (l : list R) :
  l <> [] -> exists ind, np_argmin l = Ret ind.
Proof.
  destruct l as [| y l]; [contradiction |]. intros _. eexists. reflexivity.
Qed.

(** On an axis with at least two grid points [getgridind] finds an
    index: the nearest grid point is within one grid step. *)
Lemma grid_index_axis_returns (abc_i : R) (num_pts : Z) (f : R) :
  0 <= abc_i -> (2 <= num_pts)%Z ->
  exists ind : Z, grid_index_axis abc_i num_pts f = Ret ind.
Proof.
  intros Habc Hn. unfold grid_index_axis.
  assert (Hx : forall m : nat, (Z.of_nat m < num_pts)%Z ->
             grid_points abc_i num_pts !! m
             = Some (IZR (Z.of_nat m) / IZR num_pts * abc_i)).
  { intros m Hm. unfold grid_points.
    rewrite list_lookup_fmap, lookup_py_range by lia. reflexivity. }
  pose proof (py_index_nonneg _ 1%nat _ (Hx 1%nat ltac:(lia))) as Hx1.
  pose proof (py_index_nonneg _ 0%nat _ (Hx 0%nat ltac:(lia))) as Hx0.
  change (Z.of_nat 1) with 1%Z in Hx1 at 1. change (Z.of_nat 0) with 0%Z in Hx0 at 1.
  rewrite Hx1, bind_Ret, Hx0, bind_Ret.
  set (rw := wrap_unit f * abc_i).
  set (deltas := map (fun xn => Rabs (xn - rw)) (grid_points abc_i num_pts)).
  assert (Hd : forall m : nat, (Z.of_nat m < num_pts)%Z ->
             deltas !! m = Some (Rabs (IZR (Z.of_nat m) / IZR num_pts * abc_i - rw))).
  { intros m Hm. unfold deltas. rewrite list_lookup_fmap, (Hx m Hm). reflexivity. }
  destruct (np_argmin_returns deltas) as (ind & Hind).
  { intros Hnil. specialize (Hd 0%nat ltac:(lia)). rewrite Hnil in Hd. discriminate. }
  rewrite Hind, bind_Ret.
  destruct (np_argmin_least _ _ Hind) as (v & Hv & Hleast).
  rewrite (py_index_nonneg _ _ _ Hv), bind_Ret.
  assert (Hnpos : 0 < IZR num_pts) by (apply IZR_lt; lia).
  pose proof (wrap_unit_range f) as [Hw0 Hw1].
  set (w := wrap_unit f) in *.
  set (m := Zfloor (w * IZR num_pts)).
  pose proof (Zfloor_bound (w * IZR num_pts)) as [Hm0 Hm1]. fold m in Hm0, Hm1.
  assert (Hmlo : (0 <= m)%Z) by (apply Zfloor_lub; nra).
  assert (Hmhi : (m < num_pts)%Z) by (apply lt_IZR; nra).
  assert (Hdm := Hd (Z.to_nat m) ltac:(lia)).
  rewrite Z2Nat.id in Hdm by lia.
  specialize (Hleast _ _ Hdm).
  assert (Hstep : Rabs (IZR m / IZR num_pts * abc_i - rw)
                  <= abc_i / IZR num_pts).
  { unfold rw. fold w.
    replace (IZR m / IZR num_pts * abc_i - w * abc_i)
      with (- ((w * IZR num_pts - IZR m) * (abc_i / IZR num_pts)))
      by (field; lra).
    rewrite Rabs_Ropp, Rabs_pos_eq.
    - assert (0 <= abc_i / IZR num_pts) by (apply Rdiv_nonneg; lra).
      nra.
    - apply Rmult_le_pos; [lra | apply Rdiv_nonneg; lra]. }
  assert (Hdx : IZR (Z.of_nat 1) / IZR num_pts * abc_i
                - IZR (Z.of_nat 0) / IZR num_pts * abc_i
                = abc_i / IZR num_pts) by (cbn; field; lra).
  rewrite Hdx.
  assert (0 <= abc_i / IZR num_pts) by (apply Rdiv_nonneg; lra).
  destruct (Rgt_dec v (abc_i / IZR num_pts * (11 / 10))) as [Hgt | _]; [lra |].
  eexists. reflexivity.
Qed.

Lemma getgridind_returns (structure : Structure) (dim : Z * Z * Z) (f : vec) :
  let '(abc1, abc2, abc3) := abc (lattice structure) in
  let '(dim1, dim2, dim3) := dim in
  0 <= abc1 -> 0 <= abc2 -> 0 <= abc3 ->
  (2 <= dim1)%Z -> (2 <= dim2)%Z -> (2 <= dim3)%Z ->
  exists i j k : Z, getgridind structure dim f = Ret (i, j, k).
Proof.
  unfold getgridind.
  destruct (abc (lattice structure)) as [[abc1 abc2] abc3].
  destruct dim as [[dim1 dim2] dim3]. destruct f as [[f1 f2] f3].
  intros H1 H2 H3 Hd1 Hd2 Hd3.
  destruct (grid_index_axis_returns abc1 dim1 f1 H1 Hd1) as (i & ->).
  destruct (grid_index_axis_returns abc2 dim2 f2 H2 Hd2) as (j & ->).
  destruct (grid_index_axis_returns abc3 dim3 f3 H3 Hd3) as (k & ->).
  exists i, j, k. reflexivity.
Qed.

(** ** The Madelung potential away from the defect *)

(** With a displacement that is not zero the real-space sum runs over
    every lattice translation, the one at the origin included. *)
Lemma shell_sum_nonzero_displacement (a1 a2 a3 r : vec) (invdiel : mat3)
    (determ gamma : R) (N : Z) :
  norm r <> 0 ->
  shell_sum a1 a2 a3 r invdiel determ gamma N
  = triple_loop N (fun acc i j k =>
      acc + real_summand invdiel determ gamma
              (vsub (lattice_vector a1 a2 a3 i j k) r)).
Proof.
  intros Hr. unfold shell_sum, truthy.
  destruct (Req_dec_T (norm r) 0); [contradiction | reflexivity].
Qed.

(** C4.  For every displacement r that is not zero (and a regular
    dielectric tensor), with (i, j, k) the grid index [getgridind] finds
    for the fractional coordinates of r - on each axis the index of a
    grid point nearest to the coordinate wrapped into the cell - the
    Madelung potential returned is
    (real-space sum at r + q * grid[i, j, k] - q pi / (volume gamma^2))
    times 27.2114, whenever the real-space sum (over every translation)
    is accepted; there is no surface term. *)
Theorem anisotropic_madelung_potential_formula (structure : Structure)
    (dim : Z * Z * Z) (g_sum : array3 R) (r : vec) (dieltens : mat3)
    (q gamma tolerance : R) (i j k : Z) (g_at_r : R) :
  norm r <> 0 ->
  det3 dieltens <> 0 ->
  getgridind structure dim (get_fractional_coords (lattice structure) r)
  = Ret (i, j, k) ->
  array3_index g_sum i j k = Ret g_at_r ->
  let '(a1, a2, a3) := bohr_rows structure in
  let '(abc1, abc2, abc3) := abc (lattice structure) in
  let '(dim1, dim2, dim3) := dim in
  let '(f1, f2, f3) := get_fractional_coords (lattice structure) r in
  anisotropic_madelung_potential structure dim g_sum r dieltens q gamma tolerance
  = match real_sum a1 a2 a3 r q dieltens gamma tolerance with
    | Ret (Some real) =>
        Ret ((real + q * g_at_r
              - q * PI / (bohr_volume structure * gamma ^ 2))
             * hart_to_ev)
    | Ret None => Raise TypeError
    | Raise e => Raise e
    end
  /\ (forall N : Z,
        shell_sum a1 a2 a3 r (inv3 dieltens) (det3 dieltens) gamma N
        = triple_loop N (fun acc i j k =>
            acc + real_summand (inv3 dieltens) (det3 dieltens) gamma
                    (vsub (lattice_vector a1 a2 a3 i j k) r)))
  /\ nearest_grid_index abc1 dim1 f1 i
  /\ nearest_grid_index abc2 dim2 f2 j
  /\ nearest_grid_index abc3 dim3 f3 k.
Proof.
  intros Hr Hdet Hgrid Hg.
  pose proof (getgridind_nearest _ _ _ _ _ _ Hgrid) as Hnear.
  unfold anisotropic_madelung_potential, get_g_sum_at_r.
  rewrite (kumagai_init_regular _ _ Hdet), Hgrid.
  destruct (bohr_rows structure) as [[a1 a2] a3].
  destruct (abc (lattice structure)) as [[abc1 abc2] abc3].
  destruct dim as [[dim1 dim2] dim3].
  destruct (get_fractional_coords (lattice structure) r) as [[f1 f2] f3].
  split; [| split; [| exact Hnear]].
  - rewrite !bind_Ret, Hg, !bind_Ret.
    destruct (real_sum a1 a2 a3 r q dieltens gamma tolerance) as [[real |] | e];
      try reflexivity.
    cbn. f_equal. ring.
  - intros N. apply shell_sum_nonzero_displacement, Hr.
Qed.

(** ** The cubic example: the potential at the body centre *)

Lemma norm_body_centre : norm body_centre <> 0.
Proof.
  unfold norm, body_centre, dot.
  assert (0 < sqrt (1 / 2 * (1 / 2) + 1 / 2 * (1 / 2) + 1 / 2 * (1 / 2)))
    by (apply sqrt_lt_R0; lra).
  lra.
Qed.

Lemma grid_index_axis_half : grid_index_axis 1 2 (1 / 2) = Ret 1%Z.
Proof.
  destruct (grid_index_axis_returns 1 2 (1 / 2) ltac:(lra) ltac:(lia)) as (ind & Hind).
  rewrite Hind. f_equal.
  destruct (grid_index_axis_nearest _ _ _ _ Hind) as [Hrange Hnear].
  specialize (Hnear 1%Z ltac:(lia)).
  rewrite wrap_unit_frac, (Zfloor_eq 0 (1 / 2)) in Hnear by lra.
  replace (1 / 2 * 1 - (1 / 2 - 0) * 1) with 0 in Hnear by field.
  rewrite Rabs_R0 in Hnear.
  assert (Hcases : ind = 0%Z \/ ind = 1%Z) by lia.
  destruct Hcases as [-> | ->]; [| reflexivity].
  exfalso.
  replace (0 / 2 * 1 - (1 / 2 - 0) * 1) with (- (1 / 2)) in Hnear by field.
  rewrite Rabs_Ropp, Rabs_pos_eq in Hnear by lra. lra.
Qed.

Lemma getgridind_body_centre :
  getgridind cubic_bulk (2, 2, 2)%Z
    (get_fractional_coords (lattice cubic_bulk) body_centre)
  = Ret (1, 1, 1)%Z.
Proof.
  unfold getgridind, body_centre. cbn [lattice cubic_bulk cubic_lattice abc
    get_fractional_coords].
  rewrite grid_index_axis_half. reflexivity.
Qed.

Lemma anisotropic_madelung_potential_formula_witness :
  let '(a1, a2, a3) := bohr_rows cubic_bulk in
  anisotropic_madelung_potential cubic_bulk (2, 2, 2)%Z example_g_sum body_centre
    I3 1 1 example_tolerance
  = match real_sum a1 a2 a3 body_centre 1 I3 1 example_tolerance with
    | Ret (Some real) =>
        Ret ((real + 1 * 0 - 1 * PI / (bohr_volume cubic_bulk * 1 ^ 2))
             * hart_to_ev)
    | Ret None => Raise TypeError
    | Raise e => Raise e
    end
  /\ (forall N : Z,
        shell_sum a1 a2 a3 body_centre (inv3 I3) (det3 I3) 1 N
        = triple_loop N (fun acc i j k =>
            acc + real_summand (inv3 I3) (det3 I3) 1
                    (vsub (lattice_vector a1 a2 a3 i j k) body_centre)))
  /\ nearest_grid_index 1 2 (1 / 2) 1
  /\ nearest_grid_index 1 2 (1 / 2) 1
  /\ nearest_grid_index 1 2 (1 / 2) 1.
Proof.
  exact (anisotropic_madelung_potential_formula cubic_bulk (2, 2, 2)%Z
           example_g_sum body_centre I3 1 1 example_tolerance 1 1 1 0
           norm_body_centre det3_I3_nonzero getgridind_body_centre eq_refl).
Defined.

(** ** The reciprocal grid *)

Lemma py_range_cons (lo hi : Z) :
  (lo < hi)%Z -> py_range lo hi = lo :: py_range (lo + 1) hi.
Proof.
  intros H. unfold py_range.
  replace (Z.to_nat (hi - lo)) with (S (Z.to_nat (hi - (lo + 1)))) by lia.
  cbn [seq map]. f_equal; [lia |].
  rewrite <- seq_shift, map_map. apply map_ext. intros n. lia.
Qed.

Lemma py_range_nil (lo hi : Z) : (hi <= lo)%Z -> py_range lo hi = [].
Proof.
  intros H. unfold py_range. replace (Z.to_nat (hi - lo)) with 0%nat by lia.
  reflexivity.
Qed.

Lemma lower_indices_lookup (n : Z) (k : nat) :
  forall (lo : Z) (l : list Z) (a : nat),
    lo = (n - Z.of_nat k)%Z -> (0 <= lo)%Z -> length l = Z.to_nat n ->
    fold_left (fun ind i => <[Z.to_nat i := (i - n)%Z]> ind) (py_range lo n) l !! a
    = if ((lo <=? Z.of_nat a) && (Z.of_nat a <? n))%Z
      then Some (Z.of_nat a - n)%Z else l !! a.
Proof.
  induction k as [| k IH]; intros lo l a Hlo Hpos Hlen.
  - rewrite py_range_nil by lia. cbn [fold_left].
    destruct (Z.leb_spec lo (Z.of_nat a)); destruct (Z.ltb_spec (Z.of_nat a) n);
      cbn [andb]; try reflexivity. lia.
  - rewrite py_range_cons by lia. cbn [fold_left].
    rewrite (IH (lo + 1)%Z) by (rewrite ?length_insert; lia).
    destruct (Z.ltb_spec (Z.of_nat a) n) as [Han | Han].
    + destruct (Z.leb_spec (lo + 1) (Z.of_nat a)) as [H1 | H1];
        destruct (Z.leb_spec lo (Z.of_nat a)) as [H0 | H0];
        cbn [andb]; try reflexivity; try lia.
      * replace a with (Z.to_nat lo) by lia.
        rewrite list_lookup_insert_eq by lia. f_equal. lia.
      * rewrite list_lookup_insert_ne by lia. reflexivity.
    + rewrite !andb_false_r. rewrite list_lookup_insert_ne; [reflexivity |].
      lia.
Qed.

Lemma signed_indices_map (n : Z) :
  (0 <= n)%Z ->
  KumagaiBulkInit.signed_indices n
  = map (fun a => signed_index n (Z.of_nat a)) (seq 0 (Z.to_nat n)).
Proof.
  intros Hn. apply list_eq. intros a. unfold KumagaiBulkInit.signed_indices.
  assert (Hhalf : (0 <= n / 2 <= n)%Z).
  { split; [apply Z.div_pos; lia |]. apply Z.div_le_upper_bound; lia. }
  rewrite (lower_indices_lookup n (Z.to_nat (n - n / 2)))
    by (rewrite ?length_py_range; lia).
  rewrite list_lookup_fmap. unfold signed_index.
  destruct (Z.ltb_spec (Z.of_nat a) n) as [Han | Han].
  - rewrite lookup_seq_lt by lia. cbn [fmap option_fmap option_map Nat.add].
    destruct (Z.leb_spec (n / 2) (Z.of_nat a)); destruct (Z.ltb_spec (Z.of_nat a) (n / 2));
      cbn [andb]; try lia; [reflexivity |].
    rewrite lookup_py_range by lia. f_equal; lia.
  - rewrite andb_false_r. rewrite lookup_seq_ge by lia.
    apply lookup_ge_None. rewrite length_py_range. lia.
Qed.

(** A signed index names the position it came from. *)
Lemma py_position_signed (n a : nat) :
  (a < n)%nat ->
  py_position n (signed_index (Z.of_nat n) (Z.of_nat a)) = Ret a.
Proof.
  intros Han. unfold py_position, signed_index.
  assert (Hhalf : (0 <= Z.of_nat n / 2)%Z) by (apply Z.div_pos; lia).
  destruct (Z.ltb_spec (Z.of_nat a) (Z.of_nat n / 2)) as [Hlow | Hhigh].
  - destruct (Z.ltb_spec (Z.of_nat a) 0); [lia |].
    destruct (Z.ltb_spec (Z.of_nat a) 0); [lia |].
    destruct (Z.leb_spec (Z.of_nat n) (Z.of_nat a)); [lia |].
    cbn [orb]. f_equal. lia.
  - destruct (Z.ltb_spec (Z.of_nat a - Z.of_nat n) 0); [| lia].
    destruct (Z.ltb_spec (Z.of_nat a - Z.of_nat n + Z.of_nat n) 0); [lia |].
    destruct (Z.leb_spec (Z.of_nat n) (Z.of_nat a - Z.of_nat n + Z.of_nat n)); [lia |].
    cbn [orb]. f_equal. lia.
Qed.

Lemma py_index_position {A : Type} (l : list A) (i : Z) (p : nat) :
  py_position (length l) i = Ret p ->
  exists x, l !! p = Some x /\ py_index l i = Ret x.
Proof.
  unfold py_position, py_index.
  set (i' := (if (i <? 0)%Z then (i + Z.of_nat (length l))%Z else i)).
  destruct (Z.ltb_spec i' 0) as [Hneg | Hnonneg]; cbn [orb]; [discriminate |].
  destruct (Z.leb_spec (Z.of_nat (length l)) i') as [Hbig | Hsmall]; [discriminate |].
  intros H. inversion H; subst p.
  destruct (lookup_lt_is_Some_2 l (Z.to_nat i') ltac:(lia)) as [x Hx].
  exists x. rewrite Hx. split; reflexivity.
Qed.

Lemma for_each_map {A B S : Type} (f : A -> B) (body : S -> B -> result S)
    (l : list A) :
  forall s, for_each body (map f l) s = for_each (fun s x => body s (f x)) l s.
Proof.
  induction l as [| a l IH]; intros s; [reflexivity |].
  cbn [map for_each]. destruct (body s (f a)); [apply IH | reflexivity].
Qed.

(** A loop over [0 .. len - 1] that takes an invariant from each index
    to the next. *)
Lemma for_each_seq_invariant {S : Type} (P : nat -> S -> Prop)
    (body : S -> nat -> result S) (len : nat) :
  forall start : nat,
    (forall n s, (start <= n < start + len)%nat -> P n s ->
                 exists s', body s n = Ret s' /\ P (Datatypes.S n) s') ->
    forall s, P start s ->
              exists s', for_each body (seq start len) s = Ret s'
                         /\ P (start + len)%nat s'.
Proof.
  induction len as [| len IH]; intros start Hbody s Hs.
  - exists s. rewrite Nat.add_0_r. split; [reflexivity | exact Hs].
  - cbn [seq for_each].
    destruct (Hbody start s ltac:(lia) Hs) as (s1 & Hs1 & HP1).
    rewrite Hs1, bind_Ret.
    destruct (IH (Datatypes.S start)) with (s := s1) as (s2 & Hs2 & HP2).
    + intros n s' Hn. apply Hbody. lia.
    + exact HP1.
    + exists s2. split; [exact Hs2 |].
      replace (start + Datatypes.S len)%nat with (Datatypes.S start + len)%nat by lia.
      exact HP2.
Qed.

Lemma lookup_map_seq {A : Type} (f : nat -> A) (n a : nat) :
  map f (seq 0 n) !! a = if (a <? n)%nat then Some (f a) else None.
Proof.
  rewrite list_lookup_fmap. destruct (Nat.ltb_spec a n).
  - rewrite lookup_seq_lt by lia. reflexivity.
  - rewrite lookup_seq_ge by lia. reflexivity.
Qed.

Lemma insert_map_seq {A : Type} (f : nat -> A) (n a : nat) (x : A) :
  <[a := x]> (map f (seq 0 n))
  = map (fun a' => if (a' =? a)%nat then x else f a') (seq 0 n).
Proof.
  apply list_eq. intros a'. rewrite lookup_map_seq.
  destruct (Nat.eq_dec a a') as [<- | Hne].
  - destruct (Nat.ltb_spec a n).
    + rewrite list_lookup_insert_eq by (rewrite length_map, length_seq; lia).
      rewrite Nat.eqb_refl. reflexivity.
    + rewrite list_insert_ge by (rewrite length_map, length_seq; lia).
      rewrite lookup_map_seq. destruct (Nat.ltb_spec a n); [lia | reflexivity].
  - rewrite list_lookup_insert_ne by exact Hne. rewrite lookup_map_seq.
    destruct (Nat.ltb_spec a' n); [| reflexivity].
    destruct (Nat.eqb_spec a' a); [lia | reflexivity].
Qed.

Lemma map_seq_ext {A : Type} (f g : nat -> A) (n : nat) :
  (forall a, (a < n)%nat -> f a = g a) -> map f (seq 0 n) = map g (seq 0 n).
Proof.
  intros H. apply map_ext_in. intros a Ha. apply in_seq in Ha. apply H. lia.
Qed.

Lemma array3_tabulate_ext {A : Type} (n1 n2 n3 : nat) (f g : nat -> nat -> nat -> A) :
  (forall a b c, (a < n1)%nat -> (b < n2)%nat -> (c < n3)%nat -> f a b c = g a b c) ->
  array3_tabulate n1 n2 n3 f = array3_tabulate n1 n2 n3 g.
Proof.
  intros H. unfold array3_tabulate.
  apply map_seq_ext. intros a Ha. apply map_seq_ext. intros b Hb.
  apply map_seq_ext. intros c Hc. apply H; assumption.
Qed.

Lemma replicate_map_seq {A : Type} (n : nat) (x : A) :
  replicate n x = map (fun _ => x) (seq 0 n).
Proof.
  apply list_eq. intros a. rewrite lookup_map_seq.
  destruct (Nat.ltb_spec a n).
  - apply lookup_replicate_2. lia.
  - apply lookup_ge_None. rewrite length_replicate. lia.
Qed.

Lemma np_zeros_tabulate {A : Type} (zero : A) (nx ny nz : Z) :
  (0 <= nx)%Z -> (0 <= ny)%Z -> (0 <= nz)%Z ->
  np_zeros zero (nx, ny, nz)
  = Ret (array3_tabulate (Z.to_nat nx) (Z.to_nat ny) (Z.to_nat nz)
           (fun _ _ _ => zero)).
Proof.
  intros Hx Hy Hz. unfold np_zeros.
  destruct (Z.ltb_spec nx 0); [lia |]. destruct (Z.ltb_spec ny 0); [lia |].
  destruct (Z.ltb_spec nz 0); [lia |]. cbn [orb].
  unfold array3_tabulate. rewrite !replicate_map_seq. reflexivity.
Qed.

Lemma py_position_lt (n : nat) (i : Z) (p : nat) :
  py_position n i = Ret p -> (p < n)%nat.
Proof.
  unfold py_position.
  set (i' := (if (i <? 0)%Z then (i + Z.of_nat n)%Z else i)).
  destruct (Z.ltb_spec i' 0) as [Hneg | Hnonneg]; cbn [orb]; [discriminate |].
  destruct (Z.leb_spec (Z.of_nat n) i') as [Hbig | Hsmall]; [discriminate |].
  intros Hp. inversion Hp. lia.
Qed.

Lemma array3_set_tabulate {A : Type} (n1 n2 n3 : nat) (f : nat -> nat -> nat -> A)
    (i j k : Z) (a b c : nat) (v : A) :
  py_position n1 i = Ret a -> py_position n2 j = Ret b -> py_position n3 k = Ret c ->
  array3_set (array3_tabulate n1 n2 n3 f) i j k v
  = Ret (array3_tabulate n1 n2 n3 (update3 f a b c v)).
Proof.
  intros Ha Hb Hc.
  pose proof (py_position_lt _ _ _ Ha) as Han.
  pose proof (py_position_lt _ _ _ Hb) as Hbn.
  pose proof (py_position_lt _ _ _ Hc) as Hcn.
  unfold array3_set.
  assert (Hlen1 : length (array3_tabulate n1 n2 n3 f) = n1)
    by (unfold array3_tabulate; rewrite length_map, length_seq; reflexivity).
  rewrite Hlen1, Ha, bind_Ret.
  destruct (py_index_position (array3_tabulate n1 n2 n3 f) i a) as (plane & Hplane & ->).
  { rewrite Hlen1. exact Ha. }
  rewrite bind_Ret.
  unfold array3_tabulate in Hplane. rewrite lookup_map_seq in Hplane.
  destruct (Nat.ltb_spec a n1); [| lia]. inversion Hplane as [Hp]. clear Hplane.
  rewrite length_map, length_seq, Hb, bind_Ret.
  destruct (py_index_position
              (map (fun b0 => map (fun c0 => f a b0 c0) (seq 0 n3)) (seq 0 n2)) j b)
    as (row & Hrow & ->).
  { rewrite length_map, length_seq. exact Hb. }
  rewrite bind_Ret. rewrite lookup_map_seq in Hrow.
  destruct (Nat.ltb_spec b n2); [| lia]. inversion Hrow as [Hr]. clear Hrow.
  rewrite length_map, length_seq, Hc, bind_Ret. f_equal.
  unfold array3_tabulate, array3. rewrite !insert_map_seq.
  apply map_seq_ext. intros a' Ha'. unfold update3.
  destruct (Nat.eqb_spec a' a) as [-> | Hne]; cbn [andb]; [| reflexivity].
  apply map_seq_ext. intros b' Hb'.
  destruct (Nat.eqb_spec b' b) as [-> | Hne]; cbn [andb]; reflexivity.
Qed.

Section GridLoops.

Variable A : Type.
Variable zero : A.
Variables n1 n2 n3 : nat.
Variable skip : Z -> Z -> Z -> bool.
Variable val : Z -> Z -> Z -> A.

Lemma grid_body_step (a0 b0 c0 : nat) :
  (a0 < n1)%nat -> (b0 < n2)%nat -> (c0 < n3)%nat ->
  grid_body skip val (partial_grid zero n1 n2 n3 skip val a0 b0 c0)
    (signed_index (Z.of_nat n1) (Z.of_nat a0))
    (signed_index (Z.of_nat n2) (Z.of_nat b0))
    (signed_index (Z.of_nat n3) (Z.of_nat c0))
  = Ret (partial_grid zero n1 n2 n3 skip val a0 b0 (S c0)).
Proof.
  intros Ha Hb Hc. unfold grid_body, partial_grid.
  destruct (skip _ _ _) eqn:Hskip.
  - f_equal. apply array3_tabulate_ext. intros a b c _ _ _.
    unfold passed, grid_entry.
    destruct (Nat.ltb_spec a a0); cbn [orb]; [reflexivity |].
    destruct (Nat.eqb_spec a a0) as [-> | ?]; cbn [andb]; [| reflexivity].
    destruct (Nat.ltb_spec b b0); cbn [orb]; [reflexivity |].
    destruct (Nat.eqb_spec b b0) as [-> | ?]; cbn [andb]; [| reflexivity].
    destruct (Nat.ltb_spec c c0); destruct (Nat.ltb_spec c (S c0));
      try reflexivity; try lia.
    replace c with c0 by lia. rewrite Hskip. reflexivity.
  - rewrite (array3_set_tabulate n1 n2 n3 _ _ _ _ a0 b0 c0)
      by (apply py_position_signed; assumption).
    f_equal. apply array3_tabulate_ext. intros a b c _ _ _.
    unfold update3, passed, grid_entry.
    destruct (Nat.eqb_spec a a0) as [-> | ?]; cbn [andb].
    + rewrite Nat.ltb_irrefl. cbn [orb].
      destruct (Nat.eqb_spec b b0) as [-> | ?]; cbn [andb].
      * rewrite Nat.ltb_irrefl. cbn [orb].
        destruct (Nat.eqb_spec c c0) as [-> | ?].
        -- destruct (Nat.ltb_spec c0 (S c0)); [| lia]. rewrite Hskip. reflexivity.
        -- destruct (Nat.ltb_spec c c0); destruct (Nat.ltb_spec c (S c0));
             try reflexivity; lia.
      * rewrite !orb_false_r. reflexivity.
    + rewrite !orb_false_r. reflexivity.
Qed.

Lemma partial_grid_next_row (a0 b0 : nat) :
  partial_grid zero n1 n2 n3 skip val a0 b0 n3 = partial_grid zero n1 n2 n3 skip val a0 (S b0) 0.
Proof.
  apply array3_tabulate_ext. intros a b c _ _ Hc. unfold passed.
  destruct (Nat.ltb_spec a a0); cbn [orb]; [reflexivity |].
  destruct (Nat.eqb_spec a a0); cbn [andb]; [| reflexivity].
  destruct (Nat.ltb_spec c n3); [| lia].
  destruct (Nat.ltb_spec b b0); destruct (Nat.ltb_spec b (S b0));
    destruct (Nat.eqb_spec b b0); destruct (Nat.eqb_spec b (S b0));
    cbn [orb andb]; try reflexivity; lia.
Qed.

Lemma partial_grid_next_plane (a0 : nat) :
  partial_grid zero n1 n2 n3 skip val a0 n2 0 = partial_grid zero n1 n2 n3 skip val (S a0) 0 0.
Proof.
  apply array3_tabulate_ext. intros a b c _ Hb _. unfold passed.
  destruct (Nat.ltb_spec b n2); [| lia].
  destruct (Nat.ltb_spec a a0); destruct (Nat.ltb_spec a (S a0));
    destruct (Nat.eqb_spec a a0); destruct (Nat.eqb_spec a (S a0));
    cbn [orb andb]; try reflexivity; try lia.
  rewrite !andb_false_r. reflexivity.
Qed.

(** The three loops over the signed indices, started on the array of
    zeros, leave the table of [grid_entry]. *)
Lemma grid_loops_tabulate :
  for_each (fun g i =>
    for_each (fun g j =>
      for_each (fun g k => grid_body skip val g i j k)
        (map (fun c => signed_index (Z.of_nat n3) (Z.of_nat c)) (seq 0 n3)) g)
      (map (fun b => signed_index (Z.of_nat n2) (Z.of_nat b)) (seq 0 n2)) g)
    (map (fun a => signed_index (Z.of_nat n1) (Z.of_nat a)) (seq 0 n1))
    (array3_tabulate n1 n2 n3 (fun _ _ _ => zero))
  = Ret (array3_tabulate n1 n2 n3 (grid_entry zero n1 n2 n3 skip val)).
Proof.
  rewrite for_each_map.
  destruct (for_each_seq_invariant (fun a g => g = partial_grid zero n1 n2 n3 skip val a 0 0)
              (fun g a =>
                 for_each (fun g j =>
                   for_each (fun g k =>
                     grid_body skip val g (signed_index (Z.of_nat n1) (Z.of_nat a)) j k)
                     (map (fun c => signed_index (Z.of_nat n3) (Z.of_nat c)) (seq 0 n3)) g)
                   (map (fun b => signed_index (Z.of_nat n2) (Z.of_nat b)) (seq 0 n2)) g)
              n1 0%nat) with (s := array3_tabulate n1 n2 n3 (fun _ _ _ => zero))
    as (g1 & Hg1 & ->).
  - intros a g Ha ->. rewrite for_each_map.
    destruct (for_each_seq_invariant (fun b g => g = partial_grid zero n1 n2 n3 skip val a b 0)
                (fun g b =>
                   for_each (fun g k =>
                     grid_body skip val g (signed_index (Z.of_nat n1) (Z.of_nat a))
                               (signed_index (Z.of_nat n2) (Z.of_nat b)) k)
                     (map (fun c => signed_index (Z.of_nat n3) (Z.of_nat c)) (seq 0 n3)) g)
                n2 0%nat) with (s := partial_grid zero n1 n2 n3 skip val a 0 0) as (g2 & Hg2 & ->).
    + intros b g Hb ->. rewrite for_each_map.
      destruct (for_each_seq_invariant (fun c g => g = partial_grid zero n1 n2 n3 skip val a b c)
                  (fun g c =>
                     grid_body skip val g (signed_index (Z.of_nat n1) (Z.of_nat a))
                       (signed_index (Z.of_nat n2) (Z.of_nat b))
                       (signed_index (Z.of_nat n3) (Z.of_nat c)))
                  n3 0%nat) with (s := partial_grid zero n1 n2 n3 skip val a b 0) as (g3 & Hg3 & ->).
      * intros c g Hc ->. eexists. split; [apply grid_body_step; lia | reflexivity].
      * reflexivity.
      * exists (partial_grid zero n1 n2 n3 skip val a b (0 + n3)). split; [exact Hg3 |].
        cbn [Nat.add]. apply partial_grid_next_row.
    + reflexivity.
    + exists (partial_grid zero n1 n2 n3 skip val a (0 + n2) 0). split; [exact Hg2 |].
      cbn [Nat.add]. apply partial_grid_next_plane.
  - apply array3_tabulate_ext. intros a b c _ _ _. unfold passed.
    change (a <? 0)%nat with false. change (b <? 0)%nat with false.
    change (c <? 0)%nat with false. cbn [orb]. rewrite !andb_false_r. reflexivity.
  - rewrite Hg1. f_equal. cbn [Nat.add].
    apply array3_tabulate_ext. intros a b c Ha _ _. unfold passed.
    destruct (Nat.ltb_spec a n1); [reflexivity | lia].
Qed.

End GridLoops.

(** With the identity tensor a summand is at most 1/c + 2 gamma in
    absolute value once the translation is at least c long. *)
Lemma real_summand_I3_bound_from (gamma c : R) (r_vec : vec) :
  0 <= gamma -> 0 < c -> c * c <= dot r_vec r_vec ->
  Rabs (real_summand I3 1 gamma r_vec) <= / c + 2 * gamma.
Proof.
  intros Hg Hc HL. unfold real_summand. rewrite mat_vec_I3, Rmult_1_l.
  set (s := sqrt (dot r_vec r_vec)).
  assert (Hs : c <= s).
  { unfold s. rewrite <- (sqrt_square c) by lra. apply sqrt_le_1_alt. exact HL. }
  assert (Hx : 0 <= gamma * s) by nra.
  pose proof (erfc_bounds (gamma * s) Hx) as [Hlo Hhi].
  assert (Hic : 0 < / c) by (apply Rinv_0_lt_compat; lra).
  assert (Ht : 0 < / s <= / c).
  { split; [apply Rinv_0_lt_compat; lra | apply Rinv_le_contravar; lra]. }
  assert (Hts : / s * s = 1) by (apply Rinv_l; lra).
  unfold Rdiv. apply Rabs_le. split; nra.
Qed.

Lemma body_centre_translation_long (i j k : Z) :
  let '(a1, a2, a3) := bohr_rows cubic_bulk in
  1 / 2 * (1 / 2)
  <= dot (vsub (lattice_vector a1 a2 a3 i j k) body_centre)
         (vsub (lattice_vector a1 a2 a3 i j k) body_centre).
Proof.
  rewrite bohr_rows_cubic.
  unfold lattice_vector, body_centre, vadd, vsub, smul, dot.
  assert (Hcomp : forall n : Z,
             1 / 4 <= (ang_to_bohr * IZR n - 1 / 2) * (ang_to_bohr * IZR n - 1 / 2)).
  { intros n. unfold ang_to_bohr.
    destruct (Z_lt_le_dec n 1) as [Hlow | Hhigh].
    - assert (Hn : IZR n <= 0) by (apply IZR_le; lia). nra.
    - assert (Hn : 1 <= IZR n) by (apply IZR_le; lia). nra. }
  pose proof (Hcomp i) as Hi. pose proof (Hcomp j) as Hj. pose proof (Hcomp k) as Hk.
  set (x := ang_to_bohr * IZR i - 1 / 2) in *.
  set (y := ang_to_bohr * IZR j - 1 / 2) in *.
  set (z := ang_to_bohr * IZR k - 1 / 2) in *.
  replace (IZR i * (ang_to_bohr * 1) + IZR j * (ang_to_bohr * 0)
           + IZR k * (ang_to_bohr * 0) - 1 / 2) with x by (unfold x; ring).
  replace (IZR i * (ang_to_bohr * 0) + IZR j * (ang_to_bohr * 1)
           + IZR k * (ang_to_bohr * 0) - 1 / 2) with y by (unfold y; ring).
  replace (IZR i * (ang_to_bohr * 0) + IZR j * (ang_to_bohr * 0)
           + IZR k * (ang_to_bohr * 1) - 1 / 2) with z by (unfold z; ring).
  nra.
Qed.

Lemma shell_sum_body_centre_bound (N : Z) :
  (0 <= N)%Z ->
  let '(a1, a2, a3) := bohr_rows cubic_bulk in
  Rabs (shell_sum a1 a2 a3 body_centre I3 1 1 N) <= 4 * IZR ((2 * N + 1) ^ 3).
Proof.
  intros HN. pose proof body_centre_translation_long as Hlong.
  destruct (bohr_rows cubic_bulk) as [[a1 a2] a3].
  rewrite (shell_sum_nonzero_displacement _ _ _ _ _ _ _ _ norm_body_centre).
  apply triple_loop_bound; [exact HN |].
  intros acc i j k.
  replace (acc + _ - acc)
    with (real_summand I3 1 1 (vsub (lattice_vector a1 a2 a3 i j k) body_centre))
    by ring.
  replace 4 with (/ (1 / 2) + 2 * 1) by field.
  apply real_summand_I3_bound_from; [lra | lra | apply Hlong].
Qed.

(** In the example the potential at the body centre is returned. *)
Lemma madelung_potential_body_centre_returns :
  exists v : R,
    anisotropic_madelung_potential cubic_bulk (2, 2, 2)%Z example_g_sum body_centre
      I3 1 1 example_tolerance = Ret v.
Proof.
  pose proof (shell_sum_body_centre_bound 5 ltac:(lia)) as H5.
  pose proof (shell_sum_body_centre_bound 4 ltac:(lia)) as H4.
  unfold anisotropic_madelung_potential, get_g_sum_at_r.
  rewrite (kumagai_init_regular _ _ det3_I3_nonzero), getgridind_body_centre.
  destruct (bohr_rows cubic_bulk) as [[a1 a2] a3].
  rewrite !bind_Ret.
  change (array3_index example_g_sum 1 1 1) with (Ret (A := R) 0).
  rewrite !bind_Ret, (real_sum_regular _ _ _ _ _ _ _ _ det3_I3_nonzero).
  rewrite inv3_I3, det3_I3, sqrt_1.
  change (IZR ((2 * 5 + 1) ^ 3)) with 1331 in H5.
  change (IZR ((2 * 4 + 1) ^ 3)) with 729 in H4.
  set (shell := shell_sum a1 a2 a3 body_centre I3 1 1) in *.
  rewrite first_accepted_fourth_pass.
  - rewrite bind_Ret. cbn [float_operand]. rewrite bind_Ret. eexists. reflexivity.
  - unfold shell_change, scaled_shell, example_tolerance, hart_to_ev.
    change (5 - 1)%Z with 4%Z.
    replace (1 / 1 * shell 5%Z) with (shell 5%Z) by field.
    replace (1 / 1 * shell 4%Z) with (shell 4%Z) by field.
    pose proof (Rabs_pos (shell 5%Z)). pose proof (Rabs_pos (shell 4%Z)).
    apply Rle_lt_trans with 5324; [apply Rabs_le; lra | lra].
Qed.

(** * Further properties of the module *)

(** ** The grid index: range, period and the grids that are too small *)

Lemma grid_index_axis_in_range (abc_i : R) (num_pts : Z) (f : R) :
  0 <= abc_i -> (2 <= num_pts)%Z ->
  exists ind : Z, grid_index_axis abc_i num_pts f = Ret ind /\ (0 <= ind < num_pts)%Z.
Proof.
  intros Habc Hn.
  destruct (grid_index_axis_returns abc_i num_pts f Habc Hn) as (ind & Hind).
  exists ind. split; [exact Hind |].
  exact (proj1 (grid_index_axis_nearest _ _ _ _ Hind)).
Qed.

(** X1.  On a cell whose axes have no negative length and a grid with at
    least two points along every axis, [getgridind] returns for every
    position: it raises neither the ValueError of a position outside
    the grid nor an IndexError, and the index triple it returns names a
    point of the grid. *)
Theorem getgridind_in_grid (structure : Structure) (dim : Z * Z * Z) (f : vec) :
  nonneg_lengths structure -> two_points_per_axis dim ->
  exists ind : Z * Z * Z,
    getgridind structure dim f = Ret ind /\ in_grid dim ind.
Proof.
  unfold nonneg_lengths, two_points_per_axis, in_grid, getgridind.
  destruct (abc (lattice structure)) as [[abc1 abc2] abc3].
  destruct dim as [[dim1 dim2] dim3]. destruct f as [[f1 f2] f3].
  intros (H1 & H2 & H3) (Hd1 & Hd2 & Hd3).
  destruct (grid_index_axis_in_range abc1 dim1 f1 H1 Hd1) as (i & -> & Hi).
  destruct (grid_index_axis_in_range abc2 dim2 f2 H2 Hd2) as (j & -> & Hj).
  destruct (grid_index_axis_in_range abc3 dim3 f3 H3 Hd3) as (k & -> & Hk).
  exists (i, j, k). split; [reflexivity | auto].
Qed.

Lemma nonneg_lengths_cubic (l : list Site) :
  nonneg_lengths {| lattice := cubic_lattice; sites := l |}.
Proof. unfold nonneg_lengths. cbn. repeat split; lra. Qed.

Lemma positive_lengths_cubic (l : list Site) :
  positive_lengths {| lattice := cubic_lattice; sites := l |}.
Proof. unfold positive_lengths. cbn. repeat split; lra. Qed.

Lemma two_points_example : two_points_per_axis (2, 2, 2)%Z.
Proof. unfold two_points_per_axis. lia. Qed.

Lemma getgridind_in_grid_witness :
  exists ind : Z * Z * Z,
    getgridind cubic_bulk (2, 2, 2)%Z body_centre = Ret ind
    /\ in_grid (2, 2, 2)%Z ind.
Proof.
  exact (getgridind_in_grid cubic_bulk (2, 2, 2)%Z body_centre
           (nonneg_lengths_cubic _) two_points_example).
Defined.

Lemma wrap_unit_periodic (f : R) (m : Z) : wrap_unit (f + IZR m) = wrap_unit f.
Proof.
  rewrite !wrap_unit_frac, Zfloor_addz, plus_IZR. ring.
Qed.

Lemma grid_index_axis_periodic (abc_i : R) (num_pts : Z) (f : R) (m : Z) :
  grid_index_axis abc_i num_pts (f + IZR m) = grid_index_axis abc_i num_pts f.
Proof. unfold grid_index_axis. rewrite wrap_unit_periodic. reflexivity. Qed.

(** X2.  [getgridind] depends on the fractional part of the position
    only: adding whole numbers to the three fractional coordinates
    changes neither the index triple nor the exception. *)
Theorem getgridind_periodic (structure : Structure) (dim : Z * Z * Z) (f : vec)
    (m1 m2 m3 : Z) :
  getgridind structure dim (vadd f (IZR m1, IZR m2, IZR m3))
  = getgridind structure dim f.
Proof.
  unfold getgridind, vadd.
  destruct (abc (lattice structure)) as [[abc1 abc2] abc3].
  destruct dim as [[dim1 dim2] dim3]. destruct f as [[f1 f2] f3].
  rewrite !grid_index_axis_periodic. reflexivity.
Qed.

Lemma grid_index_axis_too_few (abc_i : R) (num_pts : Z) (f : R) :
  (num_pts < 2)%Z -> grid_index_axis abc_i num_pts f = Raise IndexError.
Proof.
  intros Hn. unfold grid_index_axis.
  assert (Hx : py_index (grid_points abc_i num_pts) 1 = Raise IndexError).
  { unfold py_index. change (1 <? 0)%Z with false. cbv iota.
    rewrite lookup_ge_None_2; [reflexivity |].
    unfold grid_points. rewrite length_map, length_py_range. lia. }
  rewrite Hx. reflexivity.
Qed.

(** X3.  A grid with fewer than two points along some axis makes
    [getgridind] raise IndexError, whatever the position: the grid step
    [x[1] - x[0]] cannot be formed. *)
Theorem getgridind_too_few_points (structure : Structure) (dim : Z * Z * Z)
    (f : vec) :
  nonneg_lengths structure -> ~ two_points_per_axis dim ->
  getgridind structure dim f = Raise IndexError.
Proof.
  unfold nonneg_lengths, two_points_per_axis, getgridind.
  destruct (abc (lattice structure)) as [[abc1 abc2] abc3].
  destruct dim as [[dim1 dim2] dim3]. destruct f as [[f1 f2] f3].
  intros (H1 & H2 & H3) Hfew.
  destruct (Z_lt_dec dim1 2) as [Hd1 | Hd1].
  { rewrite (grid_index_axis_too_few abc1 dim1 f1 Hd1). reflexivity. }
  destruct (grid_index_axis_returns abc1 dim1 f1 H1 ltac:(lia)) as (i & ->).
  rewrite bind_Ret.
  destruct (Z_lt_dec dim2 2) as [Hd2 | Hd2].
  { rewrite (grid_index_axis_too_few abc2 dim2 f2 Hd2). reflexivity. }
  destruct (grid_index_axis_returns abc2 dim2 f2 H2 ltac:(lia)) as (j & ->).
  rewrite bind_Ret.
  rewrite (grid_index_axis_too_few abc3 dim3 f3 ltac:(lia)). reflexivity.
Qed.

Lemma getgridind_too_few_points_witness :
  getgridind cubic_bulk (2, 1, 2)%Z body_centre = Raise IndexError.
Proof.
  apply getgridind_too_few_points.
  - apply nonneg_lengths_cubic.
  - unfold two_points_per_axis. lia.
Defined.

(** ** The grid indices within a sampling radius *)

Lemma grid_axis_index (gridavg abc_i : R) (num_pts : Z) (r_i : R) :
  grid_axis gridavg abc_i num_pts r_i
  = match grid_index_axis abc_i num_pts r_i with
    | Raise e => Raises e
    | Ret ind =>
        x1 ← of_result (py_index (grid_points abc_i num_pts) 1);
        x0 ← of_result (py_index (grid_points abc_i num_pts) 0);
        if truthy gridavg then
          if Req_dec_T (x1 - x0) 0 then RaisesOverflowError
          else Returns (ind, Some (Zceil (gridavg / (x1 - x0)), x1 - x0))
        else Returns (ind, None)
    end.
Proof.
  unfold grid_axis, grid_index_axis.
  destruct (py_index (grid_points abc_i num_pts) 1) as [x1 | e]; [| reflexivity].
  destruct (py_index (grid_points abc_i num_pts) 0) as [x0 | e]; [| reflexivity].
  cbn [of_result]. unfold mbind, outcome_bind, result_bind.
  destruct (np_argmin _) as [ind | e]; [| reflexivity]. cbn [of_result].
  destruct (py_index _ (Z.of_nat ind)) as [d | e]; [| reflexivity]. cbn [of_result].
  destruct (Rgt_dec d _); reflexivity.
Qed.

Lemma grid_points_first_two (abc_i : R) (num_pts : Z) :
  (2 <= num_pts)%Z ->
  py_index (grid_points abc_i num_pts) 1 = Ret (IZR 1 / IZR num_pts * abc_i)
  /\ py_index (grid_points abc_i num_pts) 0 = Ret (IZR 0 / IZR num_pts * abc_i).
Proof.
  intros Hn.
  assert (Hx : forall m : nat, (Z.of_nat m < num_pts)%Z ->
             grid_points abc_i num_pts !! m
             = Some (IZR (Z.of_nat m) / IZR num_pts * abc_i)).
  { intros m Hm. unfold grid_points.
    rewrite list_lookup_fmap, lookup_py_range by lia. reflexivity. }
  split.
  - exact (py_index_nonneg _ 1%nat _ (Hx 1%nat ltac:(lia))).
  - exact (py_index_nonneg _ 0%nat _ (Hx 0%nat ltac:(lia))).
Qed.

(** The grid step along an axis. *)
Lemma grid_step (abc_i : R) (num_pts : Z) :
  (2 <= num_pts)%Z ->
  IZR 1 / IZR num_pts * abc_i - IZR 0 / IZR num_pts * abc_i = abc_i / IZR num_pts.
Proof.
  intros Hn. assert (0 < IZR num_pts) by (apply IZR_lt; lia). field. lra.
Qed.

(** With a radius, an axis of positive length and at least two points
    gives the index of the default call and the radius in grid steps. *)
Lemma grid_axis_sampled (gridavg abc_i : R) (num_pts : Z) (r_i : R) :
  0 < abc_i -> (2 <= num_pts)%Z -> gridavg <> 0 ->
  exists ind : Z,
    grid_index_axis abc_i num_pts r_i = Ret ind
    /\ (0 <= ind < num_pts)%Z
    /\ grid_axis gridavg abc_i num_pts r_i
       = Returns (ind, Some (Zceil (gridavg / (abc_i / IZR num_pts)),
                             abc_i / IZR num_pts)).
Proof.
  intros Habc Hn Hg.
  destruct (grid_index_axis_in_range abc_i num_pts r_i ltac:(lra) Hn) as (ind & Hind & Hr).
  exists ind. split; [exact Hind |]. split; [exact Hr |].
  rewrite grid_axis_index, Hind.
  destruct (grid_points_first_two abc_i num_pts Hn) as [-> ->].
  cbn [of_result]. unfold mbind, outcome_bind.
  rewrite grid_step by exact Hn.
  unfold truthy. destruct (Req_dec_T gridavg 0) as [Hz | _]; [contradiction |].
  assert (0 < IZR num_pts) by (apply IZR_lt; lia).
  assert (Hdx : 0 < abc_i / IZR num_pts) by (apply Rdiv_lt_0_compat; lra).
  destruct (Req_dec_T (abc_i / IZR num_pts) 0) as [Hz | _]; [lra | reflexivity].
Qed.

Lemma grid_axis_default (abc_i : R) (num_pts : Z) (r_i : R) :
  grid_axis 0 abc_i num_pts r_i
  = of_result ((fun ind => (ind, None)) <$> grid_index_axis abc_i num_pts r_i).
Proof.
  rewrite grid_axis_index. unfold grid_index_axis.
  destruct (py_index (grid_points abc_i num_pts) 1) as [x1 | e]; [| reflexivity].
  destruct (py_index (grid_points abc_i num_pts) 0) as [x0 | e]; [| reflexivity].
  rewrite !bind_Ret.
  destruct (np_argmin _) as [ind | e]; [| reflexivity]. rewrite bind_Ret.
  destruct (py_index _ (Z.of_nat ind)) as [d | e]; [| reflexivity]. rewrite bind_Ret.
  destruct (Rgt_dec d _); [reflexivity |].
  cbn [of_result fmap result_fmap]. unfold mbind, outcome_bind, truthy.
  destruct (Req_dec_T 0 0) as [_ | Hne]; [reflexivity | contradiction].
Qed.

Lemma in_py_range (lo hi z : Z) : In z (py_range lo hi) <-> (lo <= z < hi)%Z.
Proof.
  unfold py_range. rewrite in_map_iff. split.
  - intros (n & <- & Hn). apply in_seq in Hn. lia.
  - intros Hz. exists (Z.to_nat (z - lo)). split; [lia |]. apply in_seq. lia.
Qed.

Lemma Zceil_pos (x : R) : 0 < x -> (1 <= Zceil x)%Z.
Proof.
  intros Hx. pose proof (Zceil_bound x) as [_ Hub].
  assert (H : 0 < IZR (Zceil x)) by lra.
  apply lt_IZR in H. lia.
Qed.

Lemma indices_within_in_grid (gridavg : R) (dim grdind radvals : Z * Z * Z)
    (dxvals : vec) :
  two_points_per_axis dim ->
  Forall (in_grid dim) (indices_within gridavg dim grdind radvals dxvals).
Proof.
  destruct dim as [[dim0 dim1] dim2]. destruct grdind as [[i0 j0] k0].
  destruct radvals as [[rad0 rad1] rad2]. destruct dxvals as [[dx0 dx1] dx2].
  intros (H0 & H1 & H2). apply List.Forall_forall. intros ind Hind.
  unfold indices_within in Hind.
  apply in_flat_map in Hind. destruct Hind as (i & _ & Hind).
  apply in_flat_map in Hind. destruct Hind as (j & _ & Hind).
  apply in_flat_map in Hind. destruct Hind as (k & _ & Hind).
  destruct (Rlt_dec _ gridavg); [| destruct Hind].
  destruct Hind as [<- | []]. unfold in_grid.
  pose proof (Z.mod_pos_bound (i + i0) dim0 ltac:(lia)).
  pose proof (Z.mod_pos_bound (j + j0) dim1 ltac:(lia)).
  pose proof (Z.mod_pos_bound (k + k0) dim2 ltac:(lia)).
  lia.
Qed.

Lemma indices_within_centre (gridavg : R) (dim grdind radvals : Z * Z * Z)
    (dxvals : vec) :
  0 < gridavg -> in_grid dim grdind ->
  (let '(rad0, rad1, rad2) := radvals in (0 <= rad0 /\ 0 <= rad1 /\ 0 <= rad2)%Z) ->
  In grdind (indices_within gridavg dim grdind radvals dxvals).
Proof.
  destruct dim as [[dim0 dim1] dim2]. destruct grdind as [[i0 j0] k0].
  destruct radvals as [[rad0 rad1] rad2]. destruct dxvals as [[dx0 dx1] dx2].
  intros Hg (Hi & Hj & Hk) (Hr0 & Hr1 & Hr2). unfold indices_within.
  apply in_flat_map. exists 0%Z. split; [apply in_py_range; lia |].
  apply in_flat_map. exists 0%Z. split; [apply in_py_range; lia |].
  apply in_flat_map. exists 0%Z. split; [apply in_py_range; lia |].
  assert (Hn : norm (0 * dx0, 0 * dx1, 0 * dx2) = 0).
  { unfold norm, dot. replace (_ + _ + _) with 0 by ring. apply sqrt_0. }
  rewrite Hn. destruct (Rlt_dec 0 gridavg) as [_ | Hno]; [| contradiction].
  left. cbn [Z.add]. rewrite !Z.mod_small by lia. reflexivity.
Qed.

(** With a positive radius the call returns a list of index triples of
    the grid that is not empty. *)
Lemma getgridind_gridavg_returns (structure : Structure) (dim : Z * Z * Z)
    (r : vec) (gridavg : R) :
  positive_lengths structure -> two_points_per_axis dim -> 0 < gridavg ->
  exists (ind : Z * Z * Z) (l : list (Z * Z * Z)),
    getgridind structure dim r = Ret ind
    /\ getgridind_gridavg structure dim r gridavg = Returns (GridIndices l)
    /\ In ind l
    /\ Forall (in_grid dim) l.
Proof.
  unfold positive_lengths. intros Habc Hdim Hg. pose proof Hdim as Hdim'.
  unfold getgridind_gridavg, getgridind.
  destruct (abc (lattice structure)) as [[abc1 abc2] abc3].
  destruct dim as [[dim1 dim2] dim3]. destruct r as [[r1 r2] r3].
  destruct Habc as (H1 & H2 & H3). destruct Hdim as (Hd1 & Hd2 & Hd3).
  destruct (grid_axis_sampled gridavg abc1 dim1 r1 H1 Hd1 ltac:(lra)) as (i & -> & Hi & ->).
  destruct (grid_axis_sampled gridavg abc2 dim2 r2 H2 Hd2 ltac:(lra)) as (j & -> & Hj & ->).
  destruct (grid_axis_sampled gridavg abc3 dim3 r3 H3 Hd3 ltac:(lra)) as (k & -> & Hk & ->).
  eexists _, _. split; [reflexivity |]. split; [reflexivity |]. split.
  - apply indices_within_centre; [exact Hg | cbn; lia |].
    assert (Hpos : forall a n, 0 < a -> (2 <= n)%Z -> (0 <= Zceil (gridavg / (a / IZR n)))%Z).
    { intros a n Ha Hn. assert (0 < IZR n) by (apply IZR_lt; lia).
      pose proof (Zceil_pos (gridavg / (a / IZR n))
                    ltac:(repeat apply Rdiv_lt_0_compat; lra)). lia. }
    auto.
  - apply indices_within_in_grid. exact Hdim'.
Qed.

(** X4.  [getgridind] with the sampling radius [gridavg], on a cell of
    positive lengths and a grid with at least two points along every
    axis: with [gridavg = 0.0] it returns the one index triple of the
    default call, and with a positive radius a list of index triples
    that are all points of the grid (the offsets are wrapped with [%])
    and hold the triple of the default call, so that the list is never
    empty. *)
Theorem getgridind_gridavg_sample (structure : Structure) (dim : Z * Z * Z)
    (r : vec) (gridavg : R) :
  positive_lengths structure -> two_points_per_axis dim ->
  exists ind : Z * Z * Z,
    getgridind structure dim r = Ret ind
    /\ getgridind_gridavg structure dim r 0 = Returns (GridIndex ind)
    /\ (0 < gridavg ->
        exists l : list (Z * Z * Z),
          getgridind_gridavg structure dim r gridavg = Returns (GridIndices l)
          /\ In ind l
          /\ Forall (in_grid dim) l).
Proof.
  intros Habc Hdim.
  destruct (getgridind_gridavg_returns structure dim r 1 Habc Hdim ltac:(lra))
    as (ind & _ & Hind & _).
  exists ind. split; [exact Hind |]. split.
  - unfold getgridind_gridavg. unfold getgridind in Hind.
    destruct (abc (lattice structure)) as [[abc1 abc2] abc3].
    destruct dim as [[dim1 dim2] dim3]. destruct r as [[r1 r2] r3].
    rewrite !grid_axis_default.
    destruct (grid_index_axis abc1 dim1 r1) as [i | e]; [| discriminate Hind].
    destruct (grid_index_axis abc2 dim2 r2) as [j | e]; [| discriminate Hind].
    destruct (grid_index_axis abc3 dim3 r3) as [k | e]; [| discriminate Hind].
    rewrite !bind_Ret in Hind. inversion Hind. reflexivity.
  - intros Hg.
    destruct (getgridind_gridavg_returns structure dim r gridavg Habc Hdim Hg)
      as (ind' & l & Hind' & Hl & Hin & Hgrid).
    rewrite Hind in Hind'. inversion Hind'; subst ind'.
    exists l. auto.
Qed.

Lemma getgridind_gridavg_sample_witness :
  exists ind : Z * Z * Z,
    getgridind cubic_bulk (2, 2, 2)%Z body_centre = Ret ind
    /\ getgridind_gridavg cubic_bulk (2, 2, 2)%Z body_centre 0
       = Returns (GridIndex ind)
    /\ (0 < 1 ->
        exists l : list (Z * Z * Z),
          getgridind_gridavg cubic_bulk (2, 2, 2)%Z body_centre 1
          = Returns (GridIndices l)
          /\ In ind l
          /\ Forall (in_grid (2, 2, 2)%Z) l).
Proof.
  exact (getgridind_gridavg_sample cubic_bulk (2, 2, 2)%Z body_centre 1
           (positive_lengths_cubic _) two_points_example).
Defined.

(** ** The site potentials read from a Locpot *)

Lemma unit_radii_lookup (structure : Structure) (site : Site) :
  In site (sites structure) ->
  unit_radii structure !! species_string site = Some 1.
Proof.
  unfold unit_radii. induction (sites structure) as [| s l IH]; [intros [] |].
  intros Hin. cbn [map list_to_map foldr].
  destruct (decide (species_string s = species_string site)) as [Heq | Hne].
  - rewrite Heq. apply lookup_insert_eq.
  - rewrite lookup_insert_ne by exact Hne. apply IH.
    destruct Hin as [-> | Hin]; [contradiction | exact Hin].
Qed.

Lemma sample_values_returns (data : array3 R) (dim : Z * Z * Z)
    (l : list (Z * Z * Z)) :
  covers_grid data dim -> Forall (in_grid dim) l ->
  forall acc : list R,
    exists vals : list R,
      for_each (fun samplevals '(u, v, w) =>
                  x ← array3_index data u v w; Ret (samplevals ++ [x])) l acc
      = Ret (acc ++ vals)
      /\ length vals = length l.
Proof.
  intros Hcov Hl. induction Hl as [| [[u v] w] l Hind _ IH]; intros acc.
  - exists []. split; [cbn; rewrite app_nil_r; reflexivity | reflexivity].
  - destruct (Hcov (u, v, w) Hind) as (x & Hx).
    cbn [for_each]. rewrite Hx, !bind_Ret.
    destruct (IH (acc ++ [x])) as (vals & Hvals & Hlen).
    exists (x :: vals). split.
    + rewrite Hvals, <- app_assoc. reflexivity.
    + cbn. rewrite Hlen. reflexivity.
Qed.

(** The loop over the sites appends one mean per site, and no mean is
    that of an empty sample. *)
Lemma site_averages_returns (locpot : Locpot.self) (l : list Site) :
  positive_lengths (Locpot.structure locpot) ->
  two_points_per_axis (Locpot.dim locpot) ->
  covers_grid (Locpot.data_total locpot) (Locpot.dim locpot) ->
  (forall site, In site l -> In site (sites (Locpot.structure locpot))) ->
  forall pot : list npfloat,
    exists avgs : list npfloat,
      site_averages locpot (unit_radii (Locpot.structure locpot)) l pot
      = Returns (pot ++ avgs)
      /\ length avgs = length l
      /\ Forall (fun p => p <> NaN) avgs.
Proof.
  intros Habc Hdim Hcov. induction l as [| site l IH]; intros Hsub pot.
  - exists []. cbn. rewrite app_nil_r. auto.
  - cbn [site_averages].
    rewrite (unit_radii_lookup _ site (Hsub site (or_introl eq_refl))).
    cbn [dict_item of_result]. unfold mbind at 1. unfold outcome_bind at 1.
    destruct (getgridind_gridavg_returns (Locpot.structure locpot) (Locpot.dim locpot)
                (frac_coords site) 1 Habc Hdim ltac:(lra))
      as (ind & indexlist & _ & -> & Hcentre & Hgrid).
    unfold mbind at 1. unfold outcome_bind at 1.
    destruct (sample_values_returns _ _ indexlist Hcov Hgrid []) as (vals & Hvals & Hlen).
    unfold sample_values. rewrite Hvals. cbn [app of_result].
    unfold mbind at 1. unfold outcome_bind at 1.
    destruct (IH (fun s Hs => Hsub s (or_intror Hs)) (pot ++ [np_mean vals]))
      as (avgs & -> & Havgs & Hreal).
    exists (np_mean vals :: avgs). split; [rewrite <- app_assoc; reflexivity |].
    split; [cbn; rewrite Havgs; reflexivity |].
    constructor; [| exact Hreal].
    destruct vals as [| x vals]; [| discriminate].
    destruct indexlist; [destruct Hcentre | discriminate Hlen].
Qed.

(** X5.  On a cell of positive lengths, a grid with at least two points
    along every axis and an array that has an entry at every grid
    point, [read_ES_avg_fromlocpot] returns: the radius of every species
    is found (1.0), no lookup in the array is out of range, and the
    list of potentials has one entry per site of the structure, none of
    them nan (no sample is empty). *)
Theorem read_ES_avg_fromlocpot_potentials (locpot : Locpot.self) :
  positive_lengths (Locpot.structure locpot) ->
  two_points_per_axis (Locpot.dim locpot) ->
  covers_grid (Locpot.data_total locpot) (Locpot.dim locpot) ->
  exists pot : list npfloat,
    read_ES_avg_fromlocpot locpot
    = Returns {| sampling_radii := unit_radii (Locpot.structure locpot);
                 ngxf_dims := Locpot.dim locpot;
                 potential := pot |}
    /\ length pot = length (sites (Locpot.structure locpot))
    /\ Forall (fun p => p <> NaN) pot.
Proof.
  intros Habc Hdim Hcov. unfold read_ES_avg_fromlocpot.
  destruct (site_averages_returns locpot (sites (Locpot.structure locpot))
              Habc Hdim Hcov (fun s Hs => Hs) [])
    as (avgs & -> & Hlen & Hreal).
  exists avgs. split; [reflexivity | split; assumption].
Qed.

Lemma example_g_sum_covers_grid : covers_grid example_g_sum (2, 2, 2)%Z.
Proof.
  intros [[u v] w] (Hu & Hv & Hw).
  assert (Hu' : u = 0%Z \/ u = 1%Z) by lia.
  assert (Hv' : v = 0%Z \/ v = 1%Z) by lia.
  assert (Hw' : w = 0%Z \/ w = 1%Z) by lia.
  destruct Hu' as [-> | ->], Hv' as [-> | ->], Hw' as [-> | ->];
    eexists; reflexivity.
Qed.

Lemma read_ES_avg_fromlocpot_potentials_witness :
  exists pot : list npfloat,
    read_ES_avg_fromlocpot cubic_locpot
    = Returns {| sampling_radii := unit_radii cubic_bulk;
                 ngxf_dims := (2, 2, 2)%Z;
                 potential := pot |}
    /\ length pot = 2%nat
    /\ Forall (fun p => p <> NaN) pot.
Proof.
  exact (read_ES_avg_fromlocpot_potentials cubic_locpot
           (positive_lengths_cubic _) two_points_example example_g_sum_covers_grid).
Defined.

(** ** The grid that [reciprocal_sum] returns *)

Lemma imap_map_seq {A B : Type} (g : nat -> A -> B) (f : nat -> A) (n : nat) :
  imap g (map f (seq 0 n)) = map (fun a => g a (f a)) (seq 0 n).
Proof.
  apply list_eq. intros a. rewrite list_lookup_imap, !lookup_map_seq.
  destruct (a <? n)%nat; reflexivity.
Qed.

Lemma array3_shape_tabulate {A : Type} (n1 n2 n3 : nat) (f : nat -> nat -> nat -> A) :
  (1 <= n1)%nat -> (1 <= n2)%nat ->
  array3_shape (array3_tabulate n1 n2 n3 f) = (n1, n2, n3).
Proof.
  intros H1 H2. unfold array3_shape, array3_tabulate.
  destruct n1 as [| n1]; [lia |]. destruct n2 as [| n2]; [lia |].
  cbn. rewrite !length_map, !length_seq. reflexivity.
Qed.

(** The transform of a table is the table of the Fourier sums. *)
Lemma np_fft_fftn_tabulate (n1 n2 n3 : nat) (f : nat -> nat -> nat -> C) :
  (1 <= n1)%nat -> (1 <= n2)%nat -> (1 <= n3)%nat ->
  np_fft_fftn (array3_tabulate n1 n2 n3 f)
  = Ret (array3_tabulate n1 n2 n3 (fourier_sum n1 n2 n3 f)).
Proof.
  intros H1 H2 H3. unfold np_fft_fftn.
  rewrite array3_shape_tabulate by assumption.
  destruct (Nat.eqb_spec n1 0); [lia |]. destruct (Nat.eqb_spec n2 0); [lia |].
  destruct (Nat.eqb_spec n3 0); [lia |]. cbn [orb]. f_equal.
  apply array3_tabulate_ext. intros p q r _ _ _.
  unfold fourier_sum, array3_tabulate.
  rewrite imap_map_seq. f_equal. apply map_seq_ext. intros a _.
  rewrite imap_map_seq. f_equal. apply map_seq_ext. intros b _.
  rewrite imap_map_seq. reflexivity.
Qed.

Lemma array3_map_tabulate {A B : Type} (g : A -> B) (n1 n2 n3 : nat)
    (f : nat -> nat -> nat -> A) :
  array3_map g (array3_tabulate n1 n2 n3 f)
  = array3_tabulate n1 n2 n3 (fun a b c => g (f a b c)).
Proof.
  unfold array3_map, array3_tabulate. rewrite map_map.
  apply map_seq_ext. intros a _. rewrite map_map.
  apply map_seq_ext. intros b _. rewrite map_map. reflexivity.
Qed.

Lemma py_index_map_seq {A : Type} (f : nat -> A) (n : nat) (i : Z) :
  (0 <= i < Z.of_nat n)%Z -> py_index (map f (seq 0 n)) i = Ret (f (Z.to_nat i)).
Proof.
  intros Hi. rewrite <- (Z2Nat.id i) at 1 by lia.
  apply py_index_nonneg. rewrite lookup_map_seq.
  destruct (Nat.ltb_spec (Z.to_nat i) n); [reflexivity | lia].
Qed.

Lemma array3_index_tabulate {A : Type} (n1 n2 n3 : nat) (f : nat -> nat -> nat -> A)
    (i j k : Z) :
  (0 <= i < Z.of_nat n1)%Z -> (0 <= j < Z.of_nat n2)%Z -> (0 <= k < Z.of_nat n3)%Z ->
  array3_index (array3_tabulate n1 n2 n3 f) i j k
  = Ret (f (Z.to_nat i) (Z.to_nat j) (Z.to_nat k)).
Proof.
  intros Hi Hj Hk. unfold array3_index, array3_tabulate.
  rewrite py_index_map_seq, bind_Ret by exact Hi.
  rewrite py_index_map_seq, bind_Ret by exact Hj.
  apply py_index_map_seq. exact Hk.
Qed.

(** The grid that [reciprocal_sum] returns, entry by entry. *)
Lemma reciprocal_sum_entries (s : KumagaiBulkInit.self) (gamma : R) (nx ny nz : Z) :
  KumagaiBulkInit.dim s = (nx, ny, nz) ->
  (1 <= nx)%Z -> (1 <= ny)%Z -> (1 <= nz)%Z ->
  KumagaiBulkInit.gamma s = Some gamma ->
  KumagaiBulkInit.reciprocal_sum s
  = Ret (array3_tabulate (Z.to_nat nx) (Z.to_nat ny) (Z.to_nat nz)
           (fun p q r =>
              Cre (Cscale (4 * PI / (volume (lattice (KumagaiBulkInit.structure s))
                                     * ang_to_bohr ^ 3))
                     (fourier_sum (Z.to_nat nx) (Z.to_nat ny) (Z.to_nat nz)
                        (reciprocal_entry s gamma) p q r)))).
Proof.
  intros Hdim Hx Hy Hz Hgamma.
  unfold KumagaiBulkInit.reciprocal_sum, reciprocal_entry.
  rewrite Hdim, Hgamma.
  destruct (reciprocal_lattice (lattice (KumagaiBulkInit.structure s)))
    as [[b1 b2] b3].
  rewrite (np_zeros_tabulate C0 nx ny nz) by lia. rewrite bind_Ret.
  cbn [float_operand]. rewrite bind_Ret.
  rewrite !signed_indices_map by lia.
  remember (Z.to_nat nx) as n1 eqn:Hn1.
  remember (Z.to_nat ny) as n2 eqn:Hn2.
  remember (Z.to_nat nz) as n3 eqn:Hn3.
  assert (Hx' : nx = Z.of_nat n1) by lia.
  assert (Hy' : ny = Z.of_nat n2) by lia.
  assert (Hz' : nz = Z.of_nat n3) by lia.
  clear Hn1 Hn2 Hn3 Hdim. subst nx ny nz.
  pose proof (grid_loops_tabulate C C0 n1 n2 n3
    (fun i j k => ((i =? j) && (j =? k) && (k =? 0))%Z)
    (fun i j k =>
       let g := lattice_vector (smul (1 / ang_to_bohr) b1)
                  (smul (1 / ang_to_bohr) b2) (smul (1 / ang_to_bohr) b3) i j k in
       let g_eps_g := dot g (mat_vec (KumagaiBulkInit.epsilon s) g) in
       of_real (exp (- g_eps_g / (4 * gamma ^ 2)) / g_eps_g))) as Hloops.
  unfold grid_body, grid_entry in Hloops. cbv beta zeta in Hloops.
  cbv beta zeta. rewrite Hloops, bind_Ret.
  rewrite np_fft_fftn_tabulate by lia. rewrite bind_Ret.
  rewrite !array3_map_tabulate. reflexivity.
Qed.

Lemma pow2_positive (x : R) : x <> 0 -> 0 < x ^ 2.
Proof.
  intros Hx. simpl. destruct (Rtotal_order x 0) as [H | [H | H]]; [nra | contradiction | nra].
Qed.

(** On the cubic cell with the identity tensor the form g.D.g is the
    squared length of g. *)
Lemma cubic_reciprocal_form (s : KumagaiBulkInit.self) (i j k : Z) :
  KumagaiBulkInit.structure s = cubic_bulk -> KumagaiBulkInit.epsilon s = I3 ->
  reciprocal_form s i j k
  = (2 * PI / ang_to_bohr) ^ 2 * (IZR i ^ 2 + IZR j ^ 2 + IZR k ^ 2).
Proof.
  intros Hs He. unfold reciprocal_form. rewrite Hs, He.
  cbn [lattice cubic_bulk cubic_lattice reciprocal_lattice].
  unfold lattice_vector, I3, mat_vec, dot, vadd, smul, ang_to_bohr.
  field.
Qed.

Lemma squares_positive (i j k : Z) :
  ~ (i = 0 /\ j = 0 /\ k = 0)%Z -> 0 < IZR i ^ 2 + IZR j ^ 2 + IZR k ^ 2.
Proof.
  intros Hnz.
  pose proof (pow2_ge_0 (IZR i)). pose proof (pow2_ge_0 (IZR j)).
  pose proof (pow2_ge_0 (IZR k)).
  assert (Hsq : forall z : Z, z <> 0%Z -> 0 < IZR z ^ 2).
  { intros z Hz. apply pow2_positive. apply not_0_IZR. exact Hz. }
  destruct (Z.eq_dec i 0%Z) as [Hi | Hi]; [| specialize (Hsq i Hi); lra].
  destruct (Z.eq_dec j 0%Z) as [Hj | Hj]; [| specialize (Hsq j Hj); lra].
  destruct (Z.eq_dec k 0%Z) as [Hk | Hk]; [tauto | specialize (Hsq k Hk); lra].
Qed.

Lemma cubic_finite_reciprocal_terms (s : KumagaiBulkInit.self) (gamma : R) :
  KumagaiBulkInit.structure s = cubic_bulk -> KumagaiBulkInit.epsilon s = I3 ->
  gamma <> 0 -> finite_reciprocal_terms s gamma.
Proof.
  intros Hs He Hg. unfold finite_reciprocal_terms.
  destruct (KumagaiBulkInit.dim s) as [[nx ny] nz].
  split; [exact Hg |]. split.
  - rewrite Hs. cbn. lra.
  - intros i j k _ _ _ Hnz. rewrite (cubic_reciprocal_form s i j k Hs He).
    apply Rmult_lt_0_compat; [| apply squares_positive; exact Hnz].
    apply pow2_positive. unfold ang_to_bohr. pose proof PI_RGT_0.
    apply Rgt_not_eq. apply Rdiv_lt_0_compat; lra.
Qed.





Lemma Cre_Csum_map {A : Type} (f : A -> C) (l : list A) :
  Cre (Csum (map f l)) = fold_right Rplus 0 (map (fun x => Cre (f x)) l).
Proof.
  induction l as [| x l IH]; [reflexivity |].
  cbn [map Csum fold_right] in *. unfold Cadd at 1. cbn [Cre fst].
  unfold Cre in IH at 1. unfold Csum in IH. rewrite IH. reflexivity.
Qed.

Lemma fold_right_Rplus_ext {A : Type} (f g : A -> R) (l : list A) :
  (forall x, In x l -> f x = g x) ->
  fold_right Rplus 0 (map f l) = fold_right Rplus 0 (map g l).
Proof. intros H. f_equal. apply map_ext_in. exact H. Qed.

(** At the origin every factor exp(-2 pi i ...) is 1: the Fourier sum is
    the sum of the entries. *)
Lemma fourier_sum_origin (n1 n2 n3 : nat) (f : nat -> nat -> nat -> C) :
  Cre (fourier_sum n1 n2 n3 f 0 0 0)
  = grid_sum n1 n2 n3 (fun a b c => Cre (f a b c)).
Proof.
  unfold fourier_sum, grid_sum.
  rewrite Cre_Csum_map. apply fold_right_Rplus_ext. intros a _.
  rewrite Cre_Csum_map. apply fold_right_Rplus_ext. intros b _.
  rewrite Cre_Csum_map. apply fold_right_Rplus_ext. intros c _.
  replace (- (2 * PI * (INR 0 * INR a / INR n1 + INR 0 * INR b / INR n2
                        + INR 0 * INR c / INR n3))) with 0
    by (cbn [INR]; unfold Rdiv; ring).
  unfold cis, Cmul, Cre. cbn [fst snd]. rewrite cos_0, sin_0. ring.
Qed.

(** X6.  On a grid with a point along every axis and terms that are
    finite (gamma and the volume not zero, g.D.g positive on the grid
    vectors other than zero), the entry of the grid of [reciprocal_sum]
    at the origin, the one that [anisotropic_pc_energy] reads as
    [g_sum[0,0,0]], is 4 pi / vol times the sum of
    exp(-g.D.g / 4 gamma^2) / (g.D.g) over the grid positions other than
    the origin: the reciprocal-space sum at zero displacement. *)
Theorem reciprocal_sum_origin_entry (s : KumagaiBulkInit.self) (gamma : R)
    (nx ny nz : Z) :
  KumagaiBulkInit.dim s = (nx, ny, nz) ->
  (1 <= nx)%Z -> (1 <= ny)%Z -> (1 <= nz)%Z ->
  KumagaiBulkInit.gamma s = Some gamma ->
  finite_reciprocal_terms s gamma ->
  exists g_sum : array3 R,
    KumagaiBulkInit.reciprocal_sum s = Ret g_sum
    /\ array3_index g_sum 0 0 0
       = Ret (4 * PI / (volume (lattice (KumagaiBulkInit.structure s))
                        * ang_to_bohr ^ 3)
              * grid_sum (Z.to_nat nx) (Z.to_nat ny) (Z.to_nat nz)
                  (fun a b c => Cre (reciprocal_entry s gamma a b c))).
Proof.
  intros Hdim Hx Hy Hz Hgamma _.
  eexists. split.
  - apply (reciprocal_sum_entries s gamma nx ny nz); (assumption || lia).
  - rewrite array3_index_tabulate by lia.
    change (Z.to_nat 0) with 0%nat. f_equal.
    unfold Cscale at 1. unfold Cre at 1. cbn [fst].
    f_equal. change (fst ?z) with (Cre z). apply fourier_sum_origin.
Qed.

Lemma reciprocal_sum_origin_entry_witness :
  exists g_sum : array3 R,
    KumagaiBulkInit.reciprocal_sum cubic_bulk_wide_grid = Ret g_sum
    /\ array3_index g_sum 0 0 0
       = Ret (4 * PI / (1 * ang_to_bohr ^ 3)
              * grid_sum 4 5 3
                  (fun a b c => Cre (reciprocal_entry cubic_bulk_wide_grid 1 a b c))).
Proof.
  exact (reciprocal_sum_origin_entry cubic_bulk_wide_grid 1 4 5 3 eq_refl
           ltac:(lia) ltac:(lia) ltac:(lia) eq_refl
           (cubic_finite_reciprocal_terms cubic_bulk_wide_grid 1 eq_refl eq_refl
              R1_neq_R0)).
Defined.

(** X7.  The grid that [reciprocal_sum] returns for the dimensions [dim]
    can be read at every position: with at least two grid points along
    every axis, terms that are finite (gamma and the volume not zero,
    g.D.g positive on the grid vectors other than zero) and no negative
    length, [reciprocal_sum] returns a grid and [get_g_sum_at_r] called
    with the same [dim] returns a value of the grid for every
    displacement, and raises neither IndexError nor ValueError. *)
Theorem get_g_sum_at_r_on_reciprocal_sum (s : KumagaiBulkInit.self) (gamma : R)
    (structure : Structure) :
  KumagaiBulkInit.gamma s = Some gamma ->
  finite_reciprocal_terms s gamma ->
  two_points_per_axis (KumagaiBulkInit.dim s) ->
  nonneg_lengths structure ->
  exists g_sum : array3 R,
    KumagaiBulkInit.reciprocal_sum s = Ret g_sum
    /\ forall r : vec,
         exists v : R,
           get_g_sum_at_r g_sum structure (KumagaiBulkInit.dim s) r = Ret v.
Proof.
  intros Hgamma _ Hdim Habc.
  destruct (KumagaiBulkInit.dim s) as [[nx ny] nz] eqn:Hd.
  destruct Hdim as (Hx & Hy & Hz).
  eexists. split.
  - apply (reciprocal_sum_entries s gamma nx ny nz); (assumption || lia).
  - intros r. unfold get_g_sum_at_r, getgridind.
    unfold nonneg_lengths in Habc.
    destruct (abc (lattice structure)) as [[abc1 abc2] abc3].
    destruct (get_fractional_coords (lattice structure) r) as [[f1 f2] f3].
    destruct Habc as (H1 & H2 & H3).
    destruct (grid_index_axis_in_range abc1 nx f1 H1 Hx) as (i & -> & Hi).
    destruct (grid_index_axis_in_range abc2 ny f2 H2 Hy) as (j & -> & Hj).
    destruct (grid_index_axis_in_range abc3 nz f3 H3 Hz) as (k & -> & Hk).
    rewrite !bind_Ret.
    rewrite array3_index_tabulate by lia. eexists. reflexivity.
Qed.

Lemma get_g_sum_at_r_on_reciprocal_sum_witness :
  exists g_sum : array3 R,
    KumagaiBulkInit.reciprocal_sum cubic_bulk_grid = Ret g_sum
    /\ forall r : vec,
         exists v : R, get_g_sum_at_r g_sum cubic_bulk (2, 2, 2)%Z r = Ret v.
Proof.
  exact (get_g_sum_at_r_on_reciprocal_sum cubic_bulk_grid 1 cubic_bulk eq_refl
           (cubic_finite_reciprocal_terms cubic_bulk_grid 1 eq_refl eq_refl
              R1_neq_R0)
           two_points_example (nonneg_lengths_cubic _)).
Defined.

(** ** What the search for gamma can end with *)

Section GammaOutcomes.

Variable genrecip : vec -> vec -> vec -> Z -> list vec.
Variable s : KumagaiBulkInit.self.
Variables a1 a2 a3 : vec.
Variable vol : R.

(** The real part of the reciprocal sum at a cutoff. *)
Let recip (encut_now : Z) (gamma : R) : R :=
  fst (KumagaiBulkInit.get_recippart genrecip s a1 a2 a3 vol encut_now gamma).

(** The inner loop keeps the sums of the last two cutoffs, and the only
    exception it raises is ValueError. *)
Lemma converge_while_last_two (passes : nat) (gamma : R) :
  forall encut_now : Z,
    (30 <= encut_now)%Z ->
    KumagaiBulkInit.converge_while genrecip s a1 a2 a3 vol passes gamma encut_now
      (recip (encut_now - 10) gamma, recip encut_now gamma) (recip encut_now gamma) 0
    = None
    \/ KumagaiBulkInit.converge_while genrecip s a1 a2 a3 vol passes gamma encut_now
         (recip (encut_now - 10) gamma, recip encut_now gamma) (recip encut_now gamma) 0
       = Some (Raise ValueError)
    \/ exists encut' : Z,
         KumagaiBulkInit.converge_while genrecip s a1 a2 a3 vol passes gamma encut_now
           (recip (encut_now - 10) gamma, recip encut_now gamma) (recip encut_now gamma) 0
         = Some (Ret (encut', (recip (encut' - 10) gamma, recip encut' gamma),
                      recip encut' gamma, 0))
         /\ (30 <= encut')%Z
         /\ Rabs (Rabs (recip (encut' - 10) gamma) - Rabs (recip encut' gamma))
            * hart_to_ev <= KumagaiBulkInit.tolerance s.
Proof.
  induction passes as [| passes IH]; intros e He;
    cbn [KumagaiBulkInit.converge_while fst snd];
    destruct (Rgt_dec _ (KumagaiBulkInit.tolerance s)) as [Hgt | Hle].
  - left. reflexivity.
  - right. right. exists e. split; [reflexivity |]. split; [exact He | lra].
  - cbn [KumagaiBulkInit.get_recippart].
    destruct (Rgt_dec (IZR (e + 10)) (KumagaiBulkInit.encut s));
      [right; left; reflexivity |].
    specialize (IH (e + 10)%Z ltac:(lia)).
    replace (e + 10 - 10)%Z with e in IH by lia. exact IH.
  - right. right. exists e. split; [reflexivity |]. split; [exact He | lra].
Qed.

(** [do_summation] raises ValueError, rejects the candidate, or accepts
    it with a converged sum of at least 1 eV: the branch for an
    imaginary part that has not converged is never taken. *)
Lemma do_summation_outcomes (gamma : R) :
  KumagaiBulkInit.do_summation genrecip s a1 a2 a3 vol gamma = Some (Raise ValueError)
  \/ KumagaiBulkInit.do_summation genrecip s a1 a2 a3 vol gamma
     = Some (Ret (None, TryAgain))
  \/ exists encut' : Z,
       KumagaiBulkInit.do_summation genrecip s a1 a2 a3 vol gamma
       = Some (Ret (Some (recip encut' gamma), OptFloat gamma))
       /\ (30 <= encut')%Z
       /\ Rabs (Rabs (recip (encut' - 10) gamma) - Rabs (recip encut' gamma))
          * hart_to_ev <= KumagaiBulkInit.tolerance s
       /\ 1 <= Rabs (recip encut' gamma) * hart_to_ev.
Proof.
  pose proof (do_summation_ends genrecip s a1 a2 a3 vol gamma) as Hends.
  unfold KumagaiBulkInit.do_summation in *.
  cbn [KumagaiBulkInit.get_recippart] in *.
  change (20 + 10)%Z with 30%Z in *.
  pose proof (converge_while_last_two (KumagaiBulkInit.converge_passes s) gamma 30
                ltac:(lia)) as Hloop.
  change (30 - 10)%Z with 20%Z in Hloop.
  unfold recip in Hloop at 1 2 3 4 5 6 7 8 9.
  cbn [KumagaiBulkInit.get_recippart fst] in Hloop.
  destruct Hloop as [Hnone | [Hraise | (encut' & Hret & He & Hconv)]].
  - rewrite Hnone in Hends. contradiction.
  - rewrite Hraise. left. reflexivity.
  - rewrite Hret. cbn [snd].
    pose proof (Rabs_pos (Rabs (recip (encut' - 10) gamma) - Rabs (recip encut' gamma))).
    destruct (Rgt_dec (Rabs 0 * hart_to_ev) (KumagaiBulkInit.tolerance s)) as [Himag | _].
    { exfalso. rewrite Rabs_R0, Rmult_0_l in Himag. unfold hart_to_ev in *. nra. }
    unfold Rltb.
    destruct (Rlt_dec (Rabs (recip encut' gamma) * hart_to_ev) 1) as [Hsmall | Hbig];
      cbn [andb negb bool_decide].
    + right. left. reflexivity.
    + right. right. exists encut'. split; [reflexivity |].
      split; [exact He |]. split; [exact Hconv | lra].
Qed.

(** The outer loop: ValueError, no gamma, or a candidate
    gamma (3/2)^n, not above 50, that [do_summation] accepts. *)
Lemma gamma_while_outcomes (passes : nat) :
  forall gamma : R,
    KumagaiBulkInit.gamma_while genrecip s a1 a2 a3 vol passes gamma = None
    \/ KumagaiBulkInit.gamma_while genrecip s a1 a2 a3 vol passes gamma
       = Some (Raise ValueError)
    \/ KumagaiBulkInit.gamma_while genrecip s a1 a2 a3 vol passes gamma
       = Some (Ret None)
    \/ exists (n : nat) (encut' : Z),
         let g := gamma * (3 / 2) ^ n in
         KumagaiBulkInit.gamma_while genrecip s a1 a2 a3 vol passes gamma
         = Some (Ret (Some (OptFloat g)))
         /\ g <= 50
         /\ (30 <= encut')%Z
         /\ Rabs (Rabs (recip (encut' - 10) g) - Rabs (recip encut' g))
            * hart_to_ev <= KumagaiBulkInit.tolerance s
         /\ 1 <= Rabs (recip encut' g) * hart_to_ev.
Proof.
  induction passes as [| passes IH]; intros gamma;
    cbn [KumagaiBulkInit.gamma_while]; [left; reflexivity |].
  destruct (do_summation_outcomes gamma)
    as [-> | [-> | (encut' & -> & He & Hconv & Hbig)]].
  - right. left. reflexivity.
  - cbn [KumagaiBulkInit.optgamma_eq KumagaiBulkInit.try_again_in].
    destruct (Rgt_dec (gamma * (3 / 2)) 50) as [Hcap | Hcap];
      [right; right; left; reflexivity |].
    destruct (IH (gamma * (3 / 2)))
      as [H | [H | [H | (m & e' & H & Hrest)]]].
    + left. exact H.
    + right. left. exact H.
    + right. right. left. exact H.
    + right. right. right. exists (S m), e'. cbv zeta in *.
      replace (gamma * (3 / 2) ^ S m) with (gamma * (3 / 2) * (3 / 2) ^ m)
        by (cbn [pow]; ring).
      split; [exact H | exact Hrest].
  - cbn [KumagaiBulkInit.optgamma_eq].
    destruct (Req_dec_T gamma gamma) as [_ | Hne]; [| contradiction].
    destruct (Rgt_dec gamma 50) as [Hgt | Hle]; [right; right; left; reflexivity |].
    right. right. right. exists 0%nat, encut'. cbv zeta.
    replace (gamma * (3 / 2) ^ 0) with gamma by (cbn [pow]; ring).
    split; [reflexivity |]. split; [lra |]. auto.
Qed.

End GammaOutcomes.

(** X8.  For a dielectric tensor that has an inverse, a cell of
    positive volume and reciprocal vectors G from [genrecip] on which
    the form G.D.G is positive (so that [math.exp] is called on a
    negative number and nothing is divided by zero),
    [find_optimal_gamma] ends in one of three ways: it
    raises ValueError (the reciprocal sum did not converge below the
    cutoff [self.encut]), it returns None (no candidate up to 50 was
    accepted), or it returns a gamma.  A gamma that is returned is the
    first candidate 5 / vol^(1/3) times a power of 1.5, it is at most
    50, and at some cutoff of at least 30 eV its reciprocal sum has
    converged within the tolerance to a value of at least 1 eV in
    magnitude.  The branches for an imaginary part and for "a problem
    in the optimization" are never taken, and no TypeError is raised. *)
Theorem find_optimal_gamma_outcomes
    (genrecip : vec -> vec -> vec -> Z -> list vec) (s : KumagaiBulkInit.self) :
  det3 (KumagaiBulkInit.epsilon s) <> 0 ->
  0 < bohr_volume (KumagaiBulkInit.structure s) ->
  (forall (encut : Z) (rec : vec),
      In rec (let '(a1, a2, a3) := bohr_rows (KumagaiBulkInit.structure s) in
              genrecip a1 a2 a3 encut) ->
      0 < dot rec (mat_vec (KumagaiBulkInit.epsilon s) rec)) ->
  let '(a1, a2, a3) := bohr_rows (KumagaiBulkInit.structure s) in
  let vol := bohr_volume (KumagaiBulkInit.structure s) in
  let recip encut_now gamma :=
    fst (KumagaiBulkInit.get_recippart genrecip s a1 a2 a3 vol encut_now gamma) in
  KumagaiBulkInit.find_optimal_gamma genrecip s = Some (Raise ValueError)
  \/ KumagaiBulkInit.find_optimal_gamma genrecip s = Some (Ret None)
  \/ exists (n : nat) (encut' : Z),
       let g := 5 / Rpower vol (1 / 3) * (3 / 2) ^ n in
       KumagaiBulkInit.find_optimal_gamma genrecip s = Some (Ret (Some (OptFloat g)))
       /\ g <= 50
       /\ (30 <= encut')%Z
       /\ Rabs (Rabs (recip (encut' - 10)%Z g) - Rabs (recip encut' g)) * hart_to_ev
          <= KumagaiBulkInit.tolerance s
       /\ 1 <= Rabs (recip encut' g) * hart_to_ev.
Proof.
  intros Hdet Hvol _.
  pose proof (find_optimal_gamma_ends genrecip s) as Hends.
  unfold KumagaiBulkInit.find_optimal_gamma in *.
  rewrite (kumagai_init_regular _ _ Hdet) in *.
  destruct (bohr_rows (KumagaiBulkInit.structure s)) as [[a1 a2] a3].
  cbv zeta.
  destruct (gamma_while_outcomes genrecip s a1 a2 a3
              (bohr_volume (KumagaiBulkInit.structure s))
              (KumagaiBulkInit.gamma_passes
                 (5 / Rpower (bohr_volume (KumagaiBulkInit.structure s)) (1 / 3)))
              (5 / Rpower (bohr_volume (KumagaiBulkInit.structure s)) (1 / 3)))
    as [H | [H | [H | H]]].
  - contradiction.
  - left. exact H.
  - right. left. exact H.
  - right. right. exact H.
Qed.

Lemma bohr_volume_cubic_positive : 0 < bohr_volume cubic_bulk.
Proof. rewrite bohr_volume_cubic. unfold ang_to_bohr. apply pow_lt. lra. Qed.

Lemma find_optimal_gamma_outcomes_witness :
  let '(a1, a2, a3) := bohr_rows cubic_bulk in
  let vol := bohr_volume cubic_bulk in
  let recip encut_now gamma :=
    fst (KumagaiBulkInit.get_recippart single_vector_genrecip cubic_bulk_init
           a1 a2 a3 vol encut_now gamma) in
  KumagaiBulkInit.find_optimal_gamma single_vector_genrecip cubic_bulk_init
  = Some (Raise ValueError)
  \/ KumagaiBulkInit.find_optimal_gamma single_vector_genrecip cubic_bulk_init
     = Some (Ret None)
  \/ exists (n : nat) (encut' : Z),
       let g := 5 / Rpower vol (1 / 3) * (3 / 2) ^ n in
       KumagaiBulkInit.find_optimal_gamma single_vector_genrecip cubic_bulk_init
       = Some (Ret (Some (OptFloat g)))
       /\ g <= 50
       /\ (30 <= encut')%Z
       /\ Rabs (Rabs (recip (encut' - 10)%Z g) - Rabs (recip encut' g)) * hart_to_ev
          <= KumagaiBulkInit.tolerance cubic_bulk_init
       /\ 1 <= Rabs (recip encut' g) * hart_to_ev.
Proof.
  apply (find_optimal_gamma_outcomes single_vector_genrecip cubic_bulk_init
           det3_I3_nonzero bohr_volume_cubic_positive).
  intros encut rec [<- | []]. cbn. lra.
Defined.

(** X9.  When no gamma is given to the constructor of [KumagaiBulkInit]
    (or the gamma given is 0) and the search ends without one, the
    constructor does not return an object: [reciprocal_sum] then squares
    None and raises TypeError. *)
Theorem KumagaiBulkInit_search_failed
    (genrecip : vec -> vec -> vec -> Z -> list vec)
    (structure : Structure) (dim : Z * Z * Z) (epsilon : mat3)
    (encut tolerance : R) (optgamma : option R) :
  let self :=
    {| KumagaiBulkInit.structure := structure; KumagaiBulkInit.dim := dim;
       KumagaiBulkInit.epsilon := epsilon; KumagaiBulkInit.encut := encut;
       KumagaiBulkInit.tolerance := tolerance; KumagaiBulkInit.gamma := None |} in
  (optgamma = None \/ optgamma = Some 0) ->
  (let '(nx, ny, nz) := dim in (0 <= nx /\ 0 <= ny /\ 0 <= nz)%Z) ->
  KumagaiBulkInit.find_optimal_gamma genrecip self = Some (Ret None) ->
  KumagaiBulkInit__init__ genrecip structure dim epsilon encut tolerance optgamma
  = Some (Raise TypeError).
Proof.
  intros self Hopt Hdim Hfind. unfold KumagaiBulkInit__init__.
  assert (Hnot : negb (match optgamma with Some g => truthy g | None => false end)
                 = true).
  { destruct Hopt as [-> | ->]; [reflexivity |]. unfold truthy.
    destruct (Req_dec_T 0 0); [reflexivity | contradiction]. }
  rewrite Hnot. fold self. rewrite Hfind.
  cbn [fmap result_fmap gamma_attribute]. rewrite bind_Ret.
  unfold KumagaiBulkInit.reciprocal_sum.
  cbn [KumagaiBulkInit.dim KumagaiBulkInit.gamma KumagaiBulkInit.structure].
  destruct (reciprocal_lattice (lattice structure)) as [[b1 b2] b3].
  destruct dim as [[nx ny] nz]. destruct Hdim as (Hx & Hy & Hz).
  rewrite (np_zeros_tabulate C0 nx ny nz Hx Hy Hz). reflexivity.
Qed.

Lemma KumagaiBulkInit_search_failed_witness :
  KumagaiBulkInit__init__ single_vector_genrecip cubic_bulk (2, 2, 2)%Z I3 520
    (1 / 10000) None
  = Some (Raise TypeError).
Proof.
  apply KumagaiBulkInit_search_failed.
  - left. reflexivity.
  - lia.
  - exact find_optimal_gamma_exhausted.
Defined.

(** ** The Wigner-Seitz radius *)

Lemma fold_left_Rmin_least (l : list R) :
  forall x : R,
    (fold_left Rmin l x = x \/ In (fold_left Rmin l x) l)
    /\ fold_left Rmin l x <= x
    /\ forall y, In y l -> fold_left Rmin l x <= y.
Proof.
  induction l as [| z l IH]; intros x; cbn [fold_left].
  - split; [left; reflexivity |]. split; [lra | intros y []].
  - destruct (IH (Rmin x z)) as (Hin & Hle & Hall).
    pose proof (Rmin_l x z). pose proof (Rmin_r x z).
    split; [| split].
    + destruct Hin as [Heq | Hin]; [| right; right; exact Hin].
      rewrite Heq. unfold Rmin. destruct (Rle_dec x z); [left | right; left]; reflexivity.
    + lra.
    + intros y [<- | Hy]; [lra | exact (Hall y Hy)].
Qed.

(** X10.  [wigner_seitz_radius] of a cell whose facets all have
    vertices: with no facet at all, [min] of the empty list raises
    ValueError; otherwise the radius returned is the distance from the
    origin to the midpoint of one of the facets, no midpoint is nearer
    to the origin, and the radius is not negative. *)
Theorem wigner_seitz_radius_least (structure : Structure) :
  (forall facet : list vec,
      In facet (get_wigner_seitz_cell (lattice structure)) -> facet <> []) ->
  match get_wigner_seitz_cell (lattice structure) with
  | [] => wigner_seitz_radius structure = Raise ValueError
  | _ :: _ =>
      exists wsrad : R,
        wigner_seitz_radius structure = Ret wsrad
        /\ 0 <= wsrad
        /\ (exists facet : list vec,
               In facet (get_wigner_seitz_cell (lattice structure))
               /\ wsrad = norm (vec_mean facet))
        /\ forall facet : list vec,
             In facet (get_wigner_seitz_cell (lattice structure)) ->
             wsrad <= norm (vec_mean facet)
  end.
Proof.
  intros _. unfold wigner_seitz_radius.
  destruct (get_wigner_seitz_cell (lattice structure)) as [| f0 fs]; [reflexivity |].
  cbn [map py_min]. eexists. split; [reflexivity |].
  destruct (fold_left_Rmin_least (map (fun facet => norm (vec_mean facet)) fs)
              (norm (vec_mean f0))) as (Hin & Hle & Hall).
  split; [| split].
  - destruct Hin as [-> | Hin]; [apply sqrt_pos |].
    apply in_map_iff in Hin. destruct Hin as (f & <- & _). apply sqrt_pos.
  - destruct Hin as [Heq | Hin].
    + exists f0. split; [left; reflexivity | exact Heq].
    + apply in_map_iff in Hin. destruct Hin as (f & Hf & Hfin).
      exists f. split; [right; exact Hfin | symmetry; exact Hf].
  - intros facet [<- | Hf]; [exact Hle |].
    apply Hall. apply in_map_iff. exists facet. split; [reflexivity | exact Hf].
Qed.

Lemma cube_facets_have_vertices (facet : list vec) :
  In facet cube_facets -> facet <> [].
Proof.
  unfold cube_facets. cbn [In]. intros Hin.
  repeat (destruct Hin as [<- | Hin]; [discriminate |]). destruct Hin.
Qed.

Lemma wigner_seitz_radius_least_witness :
  exists wsrad : R,
    wigner_seitz_radius cubic_bulk = Ret wsrad
    /\ 0 <= wsrad
    /\ (exists facet : list vec, In facet cube_facets /\ wsrad = norm (vec_mean facet))
    /\ forall facet : list vec, In facet cube_facets -> wsrad <= norm (vec_mean facet).
Proof.
  exact (wigner_seitz_radius_least cubic_bulk cube_facets_have_vertices).
Defined.

(** ** The table of [disttrans] *)

(** The nearest image that [returnclosestr] returns is one of the 27
    images it tries. *)
Lemma returnclosestr_image (defstruct : Structure) (defcell_def_ccoord v : vec) :
  exists (i j k : Z) (transvec : vec),
    (-1 <= i <= 1)%Z /\ (-1 <= j <= 1)%Z /\ (-1 <= k <= 1)%Z
    /\ returnclosestr defstruct defcell_def_ccoord v
       = Ret (norm (image_displacement defstruct defcell_def_ccoord v i j k),
              (image_displacement defstruct defcell_def_ccoord v i j k, transvec))
    /\ forall i' j' k' : Z,
         (-1 <= i' <= 1)%Z -> (-1 <= j' <= 1)%Z -> (-1 <= k' <= 1)%Z ->
         norm (image_displacement defstruct defcell_def_ccoord v i j k)
         <= norm (image_displacement defstruct defcell_def_ccoord v i' j' k').
Proof.
  unfold returnclosestr, image_displacement.
  destruct (matrix (lattice defstruct)) as [[l1 l2] l3].
  set (entry := fun i j k : Z =>
    (norm (vsub v (vadd defcell_def_ccoord (lattice_vector l1 l2 l3 i j k))),
     (vsub v (vadd defcell_def_ccoord (lattice_vector l1 l2 l3 i j k)),
      lattice_vector l1 l2 l3 i j k))).
  set (listvals := flat_map _ _).
  assert (Htry : forall n : Z, (-1 <= n <= 1)%Z <-> In n [-1; 0; 1]%Z)
    by (intros n; cbn; lia).
  assert (Hall : forall i j k : Z,
             (-1 <= i <= 1)%Z -> (-1 <= j <= 1)%Z -> (-1 <= k <= 1)%Z ->
             In (entry i j k) listvals).
  { intros i j k Hi Hj Hk.
    unfold listvals. apply in_flat_map. exists i. split; [apply Htry, Hi |].
    apply in_flat_map. exists j. split; [apply Htry, Hj |].
    apply in_map_iff. exists k. split; [reflexivity | apply Htry, Hk]. }
  assert (Hform : forall y, In y listvals ->
             exists i j k : Z,
               (-1 <= i <= 1)%Z /\ (-1 <= j <= 1)%Z /\ (-1 <= k <= 1)%Z
               /\ y = entry i j k).
  { intros y Hy. unfold listvals in Hy.
    apply in_flat_map in Hy. destruct Hy as (i & Hi & Hy).
    apply in_flat_map in Hy. destruct Hy as (j & Hj & Hy).
    apply in_map_iff in Hy. destruct Hy as (k & <- & Hk).
    exists i, j, k. rewrite !Htry. auto. }
  destruct (sort_by_key_first listvals (entry 0 0 0)%Z
              (Hall 0 0 0 ltac:(lia) ltac:(lia) ltac:(lia))%Z)
    as (h & Hh & Hin & Hleast).
  destruct (Hform h Hin) as (i & j & k & Hi & Hj & Hk & ->).
  exists i, j, k, (lattice_vector l1 l2 l3 i j k).
  split; [exact Hi |]. split; [exact Hj |]. split; [exact Hk |]. split; [exact Hh |].
  intros i' j' k' Hi' Hj' Hk'. apply (Hleast (entry i' j' k')). apply Hall; assumption.
Qed.

(** The loop of [disttrans] over the sites: every record it leaves is
    the record of a site. *)
Lemma disttrans_sites_records
    (closestsites : Structure -> Structure -> vec -> (Site * Z) * (Site * Z))
    (struct defstruct : Structure) (def_ccoord defcell_def_ccoord : vec) :
  exists grid_sites : gmap Z SiteRecord,
    disttrans_sites closestsites struct defstruct def_ccoord defcell_def_ccoord
    = Ret grid_sites
    /\ forall (blkindex : Z) (rec : SiteRecord),
         grid_sites !! blkindex = Some rec ->
         site_record_of closestsites struct defstruct def_ccoord defcell_def_ccoord
                        blkindex rec.
Proof.
  unfold disttrans_sites.
  set (sitelist := if (_ <=? _)%nat then _ else _).
  assert (Hsub : forall site, In site sitelist ->
                   In site (sites struct) \/ In site (sites defstruct)).
  { intros site. unfold sitelist. destruct (_ <=? _)%nat; tauto. }
  apply (for_each_invariant
           (fun grid_sites : gmap Z SiteRecord =>
              forall (blkindex : Z) (rec : SiteRecord),
                grid_sites !! blkindex = Some rec ->
                site_record_of closestsites struct defstruct def_ccoord
                               defcell_def_ccoord blkindex rec)).
  - intros grid_sites site Hsite HP.
    destruct (array_equal (coords site) def_ccoord) eqn:Hdefect.
    { exists grid_sites. split; [reflexivity | exact HP]. }
    destruct (closestsites struct defstruct (coords site))
      as [[blk blkindex] [defsite0 defindex]] eqn:Hclosest.
    destruct (returnclosestr_image defstruct defcell_def_ccoord (coords defsite0))
      as (i & j & k & transvec & Hi & Hj & Hk & Hret & Hleast).
    rewrite Hret, bind_Ret. eexists. split; [reflexivity |].
    intros key rec Hrec. destruct (Z.eq_dec blkindex key) as [-> | Hne].
    + rewrite lookup_insert_eq in Hrec. inversion Hrec; subst rec. clear Hrec.
      exists site, i, j, k. unfold paired_defect_site. rewrite Hclosest.
      cbn [fst snd dist cart].
      split; [apply Hsub, Hsite |]. split; [exact Hdefect |].
      split; [exact Hi |]. split; [exact Hj |]. split; [exact Hk |].
      split; [reflexivity |]. split; [reflexivity | exact Hleast].
    + rewrite lookup_insert_ne in Hrec by exact Hne. exact (HP key rec Hrec).
  - intros key rec Hrec. rewrite lookup_empty in Hrec. discriminate.
Qed.

(** X11.  When [find_defect_pos] finds the defect in at least one of the
    two cells, [disttrans] returns a table, and every entry of the table
    is the record of a site of the longer of the two site lists that is
    not at the defect: it is filed under the index of the bulk site that
    [closestsites] pairs with it, it holds the site, the two indices and
    the position of the paired site of the defect cell, and its
    displacement and distance are those from the nearest of the images
    of the defect in the cell and its 26 neighbours.  A position that
    [find_defect_pos] has not found is replaced by the other. *)
Theorem disttrans_table_records
    (find_defect_pos : Structure -> Structure -> option vec * option vec)
    (closestsites : Structure -> Structure -> vec -> (Site * Z) * (Site * Z))
    (struct defstruct : Structure) (dim : Z * Z * Z)
    (def_ccoord defcell_def_ccoord : vec) :
  defect_positions (find_defect_pos struct defstruct)
  = Some (def_ccoord, defcell_def_ccoord) ->
  exists grid_sites : gmap Z SiteRecord,
    disttrans find_defect_pos closestsites struct defstruct dim = Ret (Some grid_sites)
    /\ forall (blkindex : Z) (rec : SiteRecord),
         grid_sites !! blkindex = Some rec ->
         site_record_of closestsites struct defstruct def_ccoord defcell_def_ccoord
                        blkindex rec.
Proof.
  intros Hfound.
  destruct (disttrans_sites_records closestsites struct defstruct
              def_ccoord defcell_def_ccoord) as (grid_sites & Hret & Hrecs).
  exists grid_sites. split; [| exact Hrecs].
  unfold disttrans. unfold defect_positions in Hfound.
  destruct (find_defect_pos struct defstruct) as [[blk |] [def |]];
    inversion Hfound; subst; rewrite Hret; reflexivity.
Qed.

Lemma defect_positions_close_pair :
  defect_positions (find_defect_pos_model close_pair_bulk close_pair_vacancy)
  = Some ((0, 0, 0), (0, 0, 0)).
Proof. rewrite find_defect_pos_close_pair. reflexivity. Qed.

Lemma disttrans_table_records_witness :
  exists grid_sites : gmap Z SiteRecord,
    disttrans find_defect_pos_model closestsites_model close_pair_bulk
              close_pair_vacancy (2, 2, 2)%Z = Ret (Some grid_sites)
    /\ forall (blkindex : Z) (rec : SiteRecord),
         grid_sites !! blkindex = Some rec ->
         site_record_of closestsites_model close_pair_bulk close_pair_vacancy
                        (0, 0, 0) (0, 0, 0) blkindex rec.
Proof.
  exact (disttrans_table_records find_defect_pos_model closestsites_model
           close_pair_bulk close_pair_vacancy (2, 2, 2)%Z (0, 0, 0) (0, 0, 0)
           defect_positions_close_pair).
Defined.

(** ** The potential alignment *)

(** X12.  When [find_defect_pos] finds the defect in neither cell,
    [potalign] does not return: [disttrans] has returned None, and, once
    the Wigner-Seitz radius is computed, asking None for its keys raises
    AttributeError.  With a charge that is not zero, [correction] then
    raises for every [partflag] other than 'pc'. *)
Theorem potalign_defect_not_found
    (find_defect_pos : Structure -> Structure -> option vec * option vec)
    (closestsites : Structure -> Structure -> vec -> (Site * Z) * (Site * Z))
    (s : KumagaiCorrection.self) (title : bool) (wsrad : R) (partflag : string) :
  det3 (KumagaiCorrection.dieltens s) <> 0 ->
  find_defect_pos (KumagaiCorrection.structure s) (KumagaiCorrection.defstructure s)
  = (None, None) ->
  wigner_seitz_radius (KumagaiCorrection.structure s) = Ret wsrad ->
  KumagaiCorrection.potalign find_defect_pos closestsites s title
  = Raise AttributeError
  /\ (KumagaiCorrection.q s <> 0 -> partflag <> "pc"%string ->
      exists e : exn,
        KumagaiCorrection.correction find_defect_pos closestsites s title partflag
        = Raise e).
Proof.
  intros Hdet Hfind Hws.
  assert (Hpot : KumagaiCorrection.potalign find_defect_pos closestsites s title
                 = Raise AttributeError).
  { unfold KumagaiCorrection.potalign, disttrans.
    rewrite (kumagai_init_regular _ _ Hdet), bind_Ret, Hfind, bind_Ret, Hws.
    reflexivity. }
  split; [exact Hpot |]. intros Hq Hflag.
  unfold KumagaiCorrection.correction, truthy.
  destruct (Req_dec_T (KumagaiCorrection.q s) 0) as [Hz | _]; [contradiction |].
  cbn [negb]. apply String.eqb_neq in Hflag. rewrite Hflag, Hpot. cbn [negb].
  destruct (negb (String.eqb partflag "potalign")).
  - destruct (KumagaiCorrection.pc s) as [e | err]; eexists; reflexivity.
  - eexists. reflexivity.
Qed.

Lemma potalign_defect_not_found_witness :
  KumagaiCorrection.potalign find_defect_pos_model closestsites_model
    no_defect_correction false = Raise AttributeError
  /\ (KumagaiCorrection.q no_defect_correction <> 0 -> "All"%string <> "pc"%string ->
      exists e : exn,
        KumagaiCorrection.correction find_defect_pos_model closestsites_model
          no_defect_correction false "All" = Raise e).
Proof.
  exact (potalign_defect_not_found find_defect_pos_model closestsites_model
           no_defect_correction false (1 / 2) "All" det3_I3_nonzero
           find_defect_pos_same_structure (wigner_seitz_radius_cubic _)).
Defined.

Section Sampling.

Variable s : KumagaiCorrection.self.
Variables puredat defdat : list R.
Variable title : bool.
Variable wsrad : R.

Lemma site_potentials_skipped (d : gmap Z SiteRecord) (i : Z) (rec : SiteRecord) :
  d !! i = Some rec -> title = false -> default false (OutsideWS rec) = false ->
  KumagaiCorrection.site_potentials s puredat defdat title d i = Ret d.
Proof.
  intros Hrec -> Hin. unfold KumagaiCorrection.site_potentials.
  rewrite Hrec. cbn [dict_item]. rewrite bind_Ret, Hin. reflexivity.
Qed.

Lemma site_potentials_computed (d : gmap Z SiteRecord) (i : Z) (rec : SiteRecord)
    (v : R) :
  d !! i = Some rec ->
  title = true \/ default false (OutsideWS rec) = true ->
  sampled_difference s puredat defdat rec = Ret v ->
  exists v_qb v_pc : R,
    KumagaiCorrection.site_potentials s puredat defdat title d i
    = Ret (<[i := set_Vpc_Vqb v_pc v_qb rec]> d)
    /\ v = v_qb - v_pc.
Proof.
  intros Hrec Hrun Hv.
  unfold KumagaiCorrection.site_potentials. unfold sampled_difference in Hv.
  rewrite Hrec. cbn [dict_item]. rewrite bind_Ret.
  assert (Hskip : negb title && negb (default false (OutsideWS rec)) = false).
  { destruct Hrun as [-> | ->]; [reflexivity | apply andb_false_r]. }
  rewrite Hskip.
  destruct (py_index defdat (def_site_index rec))
    as [vj |]; [| discriminate Hv].
  rewrite bind_Ret in Hv. rewrite bind_Ret.
  destruct (py_index puredat (bulk_site_index rec))
    as [vk |]; [| discriminate Hv].
  rewrite bind_Ret in Hv. rewrite bind_Ret.
  destruct (anisotropic_madelung_potential _ _ _ _ _ _ _ _) as [v_pc |];
    [| discriminate Hv].
  rewrite bind_Ret in Hv. rewrite bind_Ret. inversion Hv.
  exists ((vj - vk) * -1), v_pc. split; reflexivity.
Qed.

(** The second loop, over keys that are all different. *)
Lemma site_potentials_sampled (l : list (Z * SiteRecord)) :
  NoDup (map fst l) ->
  (forall i rec, In (i, rec) l -> title = true \/ Rgtb (dist rec) wsrad = true ->
                 exists v : R, sampled_difference s puredat defdat rec = Ret v) ->
  forall d : gmap Z SiteRecord,
    (forall i rec, In (i, rec) l -> d !! i = Some (mark_outside wsrad rec)) ->
    exists d' : gmap Z SiteRecord,
      for_each (KumagaiCorrection.site_potentials s puredat defdat title) (map fst l) d = Ret d'
      /\ (forall i rec, In (i, rec) l ->
                        exists rec', d' !! i = Some rec' /\ sampled_record s puredat defdat wsrad rec rec')
      /\ forall i, ~ In i (map fst l) -> d' !! i = d !! i.
Proof.
  induction l as [| [i0 rec0] l IH]; intros Hnodup Hdiff d Hd.
  - exists d. split; [reflexivity |]. split; [intros i rec [] | reflexivity].
  - cbn [map fst] in *. apply NoDup_cons in Hnodup. destruct Hnodup as [Hnotin Hnodup].
    assert (Hnotin' : ~ In i0 (map fst l)).
    { intros Hin. apply Hnotin, list_elem_of_In. exact Hin. }
    cbn [for_each].
    assert (Hrest : forall d1 : gmap Z SiteRecord,
               (forall i, i <> i0 -> d1 !! i = d !! i) ->
               forall rec1, d1 !! i0 = Some rec1 -> sampled_record s puredat defdat wsrad rec0 rec1 ->
               exists d' : gmap Z SiteRecord,
                 for_each (KumagaiCorrection.site_potentials s puredat defdat title) (map fst l) d1
                 = Ret d'
                 /\ (forall i rec, (i0, rec0) = (i, rec) \/ In (i, rec) l ->
                                   exists rec', d' !! i = Some rec'
                                                /\ sampled_record s puredat defdat wsrad rec rec')
                 /\ forall i, ~ (i0 = i \/ In i (map fst l)) -> d' !! i = d !! i).
    { intros d1 Hsame rec1 Hrec1 Hsampled.
      destruct (IH Hnodup (fun i rec Hin => Hdiff i rec (or_intror Hin)) d1)
        as (d' & Hloop & Hin & Hout).
      { intros i rec Hin. rewrite Hsame; [exact (Hd i rec (or_intror Hin)) |].
        intros ->. apply Hnotin'. apply in_map_iff. exists (i0, rec). auto. }
      exists d'. split; [exact Hloop |]. split.
      - intros i rec [Heq | Hi]; [| exact (Hin i rec Hi)].
        inversion Heq; subst i rec. exists rec1.
        rewrite (Hout i0 Hnotin'). auto.
      - intros i Hi. rewrite Hout by tauto. apply Hsame. intros ->. tauto. }
    pose proof (Hd i0 rec0 (or_introl eq_refl)) as Hrec0.
    assert (Hmark : default false (OutsideWS (mark_outside wsrad rec0))
                    = Rgtb (dist rec0) wsrad) by reflexivity.
    destruct (bool_decide (title = true \/ Rgtb (dist rec0) wsrad = true)) eqn:Hrun.
    + apply bool_decide_eq_true in Hrun.
      destruct (Hdiff i0 rec0 (or_introl eq_refl) Hrun) as (v & Hv).
      destruct (site_potentials_computed d i0 (mark_outside wsrad rec0) v Hrec0)
        as (v_qb & v_pc & -> & ->).
      { rewrite Hmark. exact Hrun. }
      { exact Hv. }
      rewrite bind_Ret. eapply Hrest.
      * intros i Hne. apply lookup_insert_ne. congruence.
      * apply lookup_insert_eq.
      * split; [reflexivity |]. intros _.
        exists v_qb, v_pc. split; [reflexivity |]. split; [reflexivity | exact Hv].
    + apply bool_decide_eq_false in Hrun.
      assert (Htitle : title = false) by (destruct title; tauto).
      assert (Hin0 : Rgtb (dist rec0) wsrad = false)
        by (destruct (Rgtb (dist rec0) wsrad); tauto).
      rewrite (site_potentials_skipped d i0 (mark_outside wsrad rec0) Hrec0 Htitle)
        by (rewrite Hmark; exact Hin0).
      rewrite bind_Ret. eapply Hrest.
      * reflexivity.
      * exact Hrec0.
      * split; [reflexivity |]. intros Hc. rewrite Hin0 in Hc. discriminate Hc.
Qed.

Lemma collect_forcorrection_step (d' : gmap Z SiteRecord) (i : Z)
    (rec' : SiteRecord) (forcorrection : list R) :
  d' !! i = Some rec' ->
  KumagaiCorrection.collect_forcorrection title d' forcorrection i
  = if default false (OutsideWS rec') then
      v_qb ← dict_item (Vqb rec'); v_pc ← dict_item (Vpc rec');
      Ret (forcorrection ++ [v_qb - v_pc])
    else Ret forcorrection.
Proof.
  intros Hrec. unfold KumagaiCorrection.collect_forcorrection.
  rewrite Hrec. cbn [dict_item]. rewrite bind_Ret.
  destruct (default false (OutsideWS rec')), title; reflexivity.
Qed.

(** The third loop appends the differences of the records outside. *)
Lemma collect_forcorrection_sampled (d' : gmap Z SiteRecord)
    (l : list (Z * SiteRecord)) :
  (forall i rec, In (i, rec) l ->
                 exists rec', d' !! i = Some rec' /\ sampled_record s puredat defdat wsrad rec rec') ->
  forall forcorrection : list R,
    exists diffs : list R,
      for_each (KumagaiCorrection.collect_forcorrection title d') (map fst l)
               forcorrection
      = Ret (forcorrection ++ diffs)
      /\ Forall2 (fun rec v => sampled_difference s puredat defdat rec = Ret v)
           (filter (fun rec => Rgtb (dist rec) wsrad = true) (map snd l)) diffs.
Proof.
  induction l as [| [i0 rec0] l IH]; intros Hd' forcorrection.
  - exists []. cbn. rewrite app_nil_r. split; [reflexivity | constructor].
  - destruct (Hd' i0 rec0 (or_introl eq_refl)) as (rec' & Hrec' & Hmark & Hvals).
    cbn [map fst snd for_each].
    rewrite (collect_forcorrection_step d' i0 rec' forcorrection Hrec'), Hmark.
    cbn [default Datatypes.id]. rewrite filter_cons.
    destruct (Rgtb (dist rec0) wsrad) eqn:Hout0; cbn [negb].
    + destruct (Hvals eq_refl) as (v_qb & v_pc & -> & -> & Hv).
      cbn [dict_item]. rewrite !bind_Ret.
      destruct (IH (fun i rec Hin => Hd' i rec (or_intror Hin))
                   (forcorrection ++ [v_qb - v_pc])) as (diffs & -> & Hdiffs).
      exists ((v_qb - v_pc) :: diffs). split; [rewrite <- app_assoc; reflexivity |].
      destruct (decide (true = true)) as [_ | Hne]; [| contradiction].
      constructor; assumption.
    + rewrite bind_Ret.
      destruct (IH (fun i rec Hin => Hd' i rec (or_intror Hin)) forcorrection)
        as (diffs & -> & Hdiffs).
      exists diffs. split; [reflexivity |].
      destruct (decide (false = true)) as [Heq | _]; [discriminate | exact Hdiffs].
Qed.

End Sampling.

(** The three loops of [potalign] together, with or without a title,
    once the site potentials of the two cells have been read. *)
Lemma potalign_sampled
    (find_defect_pos : Structure -> Structure -> option vec * option vec)
    (closestsites : Structure -> Structure -> vec -> (Site * Z) * (Site * Z))
    (s : KumagaiCorrection.self) (title : bool)
    (potinddict : gmap Z SiteRecord) (wsrad : R) (puredat defdat : list R) :
  det3 (KumagaiCorrection.dieltens s) <> 0 ->
  disttrans find_defect_pos closestsites (KumagaiCorrection.structure s)
            (KumagaiCorrection.defstructure s) (KumagaiCorrection.dim s)
  = Ret (Some potinddict) ->
  wigner_seitz_radius (KumagaiCorrection.structure s) = Ret wsrad ->
  KumagaiCorrection.bulk_potential s = Ret puredat ->
  KumagaiCorrection.defect_potential s = Ret defdat ->
  (forall (i : Z) (rec : SiteRecord),
      potinddict !! i = Some rec -> title = true \/ dist rec > wsrad ->
      exists v : R, sampled_difference s puredat defdat rec = Ret v) ->
  exists forcorrection : list R,
    Forall2 (fun rec v => sampled_difference s puredat defdat rec = Ret v)
            (records_outside wsrad potinddict) forcorrection
    /\ KumagaiCorrection.potalign find_defect_pos closestsites s title
       = Ret (np_scale (- KumagaiCorrection.q s) (np_mean forcorrection)).
Proof.
  intros Hdet Hdist Hws Hpure Hdef Hdiff. unfold KumagaiCorrection.potalign.
  rewrite (kumagai_init_regular _ _ Hdet), bind_Ret, Hdist, bind_Ret, Hws, !bind_Ret.
  rewrite Hpure, bind_Ret, Hdef, bind_Ret.
  set (l := map_to_list potinddict).
  assert (Hl : forall i rec, In (i, rec) l -> potinddict !! i = Some rec).
  { intros i rec Hin. apply elem_of_map_to_list, list_elem_of_In. exact Hin. }
  destruct (site_potentials_sampled s puredat defdat title wsrad l) with
    (d := (fun rec => set_OutsideWS (Rgtb (dist rec) wsrad) rec) <$> potinddict)
    as (d' & -> & Hsampled & _).
  - apply NoDup_fst_map_to_list.
  - intros i rec Hin Hrun. apply (Hdiff i rec (Hl i rec Hin)).
    destruct Hrun as [Ht | Hout]; [left; exact Ht | right].
    unfold Rgtb in Hout. destruct (Rgt_dec (dist rec) wsrad); [assumption | discriminate].
  - intros i rec Hin. rewrite lookup_fmap, (Hl i rec Hin). reflexivity.
  - rewrite bind_Ret.
    destruct (collect_forcorrection_sampled s puredat defdat title wsrad d' l Hsampled [])
      as (diffs & -> & Hdiffs).
    exists diffs. split; [exact Hdiffs | reflexivity].
Qed.

(** X13.  [potalign] called without a title, on a table that [disttrans]
    has returned and with the site potentials of the bulk and of the
    defect cell read without an exception: if the site potentials and
    the Madelung potential can be computed for every site farther from
    the defect than the Wigner-Seitz radius, [potalign] returns minus
    the charge times the mean of the differences of those sites, each
    being minus the difference of the potentials of the site in the
    defect and in the bulk cell, less the Madelung potential at the
    site.  The sites within the radius contribute nothing and nothing
    is computed for them. *)
Theorem potalign_mean_of_sampled_differences
    (find_defect_pos : Structure -> Structure -> option vec * option vec)
    (closestsites : Structure -> Structure -> vec -> (Site * Z) * (Site * Z))
    (s : KumagaiCorrection.self) (potinddict : gmap Z SiteRecord) (wsrad : R)
    (puredat defdat : list R) :
  det3 (KumagaiCorrection.dieltens s) <> 0 ->
  disttrans find_defect_pos closestsites (KumagaiCorrection.structure s)
            (KumagaiCorrection.defstructure s) (KumagaiCorrection.dim s)
  = Ret (Some potinddict) ->
  wigner_seitz_radius (KumagaiCorrection.structure s) = Ret wsrad ->
  KumagaiCorrection.bulk_potential s = Ret puredat ->
  KumagaiCorrection.defect_potential s = Ret defdat ->
  (forall (i : Z) (rec : SiteRecord),
      potinddict !! i = Some rec -> dist rec > wsrad ->
      exists v : R, sampled_difference s puredat defdat rec = Ret v) ->
  exists forcorrection : list R,
    Forall2 (fun rec v => sampled_difference s puredat defdat rec = Ret v)
            (records_outside wsrad potinddict) forcorrection
    /\ KumagaiCorrection.potalign find_defect_pos closestsites s false
       = Ret (np_scale (- KumagaiCorrection.q s) (np_mean forcorrection)).
Proof.
  intros Hdet Hdist Hws Hpure Hdef Hdiff.
  apply (potalign_sampled find_defect_pos closestsites s false potinddict wsrad
           puredat defdat Hdet Hdist Hws Hpure Hdef).
  intros i rec Hrec [Htitle | Hout]; [discriminate Htitle |].
  exact (Hdiff i rec Hrec Hout).
Qed.

(** *** The example: the atom at the body centre is sampled *)

Lemma find_defect_pos_centre_vacancy :
  find_defect_pos_model cubic_bulk centre_vacancy = (Some (0, 0, 0), None).
Proof.
  unfold find_defect_pos_model, has_site_at, cubic_bulk, centre_vacancy,
    cubic_site, array_equal.
  cbn [sites coords find existsb negb orb].
  decide_reals; cbn; decide_reals; reflexivity.
Qed.

Lemma half_integer_component (n m : Z) :
  (-1 <= n <= 1)%Z ->
  1 / 12 <= (ang_to_bohr * IZR m - (1 / 2 - IZR n)) * (ang_to_bohr * IZR m - (1 / 2 - IZR n)).
Proof.
  intros Hn.
  assert (Hfar : ang_to_bohr * IZR m - (1 / 2 - IZR n) <= - (3 / 10)
                 \/ 3 / 10 <= ang_to_bohr * IZR m - (1 / 2 - IZR n)).
  { unfold ang_to_bohr.
    assert (Hcases : n = (-1)%Z \/ n = 0%Z \/ n = 1%Z) by lia.
    assert (Hm : IZR m <= -1 \/ m = 0%Z \/ m = 1%Z \/ 2 <= IZR m).
    { destruct (Z_lt_le_dec m 0) as [Hlow | Hhigh].
      - left. change (-1) with (IZR (-1)). apply IZR_le. lia.
      - destruct (Z.eq_dec m 0%Z) as [-> | H0]; [right; left; reflexivity |].
        destruct (Z.eq_dec m 1%Z) as [-> | H1]; [right; right; left; reflexivity |].
        right. right. right. apply IZR_le. lia. }
    destruct Hcases as [-> | [-> | ->]];
      [change (IZR (-1)) with (- (1)) | |];
      destruct Hm as [Hm | [-> | [-> | Hm]]]; lra. }
  set (x := ang_to_bohr * IZR m - (1 / 2 - IZR n)) in *.
  destruct Hfar; nra.
Qed.

Section NearCentre.

Variables n1 n2 n3 : Z.
Hypothesis Hn1 : (-1 <= n1 <= 1)%Z.
Hypothesis Hn2 : (-1 <= n2 <= 1)%Z.
Hypothesis Hn3 : (-1 <= n3 <= 1)%Z.

(** The displacement to the body centre from an image of the origin. *)
Let r : vec := (1 / 2 - IZR n1, 1 / 2 - IZR n2, 1 / 2 - IZR n3).

Lemma near_centre_translation_long (i j k : Z) :
  let '(a1, a2, a3) := bohr_rows cubic_bulk in
  1 / 2 * (1 / 2)
  <= dot (vsub (lattice_vector a1 a2 a3 i j k) r)
         (vsub (lattice_vector a1 a2 a3 i j k) r).
Proof.
  rewrite bohr_rows_cubic.
  unfold lattice_vector, r, vadd, vsub, smul, dot.
  pose proof (half_integer_component n1 i Hn1) as Hi.
  pose proof (half_integer_component n2 j Hn2) as Hj.
  pose proof (half_integer_component n3 k Hn3) as Hk.
  set (x := ang_to_bohr * IZR i - (1 / 2 - IZR n1)) in *.
  set (y := ang_to_bohr * IZR j - (1 / 2 - IZR n2)) in *.
  set (z := ang_to_bohr * IZR k - (1 / 2 - IZR n3)) in *.
  replace (IZR i * (ang_to_bohr * 1) + IZR j * (ang_to_bohr * 0)
           + IZR k * (ang_to_bohr * 0) - (1 / 2 - IZR n1)) with x by (unfold x; ring).
  replace (IZR i * (ang_to_bohr * 0) + IZR j * (ang_to_bohr * 1)
           + IZR k * (ang_to_bohr * 0) - (1 / 2 - IZR n2)) with y by (unfold y; ring).
  replace (IZR i * (ang_to_bohr * 0) + IZR j * (ang_to_bohr * 0)
           + IZR k * (ang_to_bohr * 1) - (1 / 2 - IZR n3)) with z by (unfold z; ring).
  nra.
Qed.

Lemma norm_near_centre : norm r <> 0.
Proof.
  unfold norm, r, dot.
  assert (Hc : forall n : Z, 1 / 4 <= (1 / 2 - IZR n) * (1 / 2 - IZR n)).
  { intros n. destruct (Z_lt_le_dec n 1) as [Hlow | Hhigh].
    - assert (IZR n <= 0) by (apply IZR_le; lia). nra.
    - assert (1 <= IZR n) by (apply IZR_le; lia). nra. }
  pose proof (Hc n1). pose proof (Hc n2). pose proof (Hc n3).
  assert (0 < sqrt ((1 / 2 - IZR n1) * (1 / 2 - IZR n1)
                    + (1 / 2 - IZR n2) * (1 / 2 - IZR n2)
                    + (1 / 2 - IZR n3) * (1 / 2 - IZR n3)))
    by (apply sqrt_lt_R0; lra).
  lra.
Qed.

Lemma getgridind_near_centre :
  getgridind cubic_bulk (2, 2, 2)%Z (get_fractional_coords (lattice cubic_bulk) r)
  = Ret (1, 1, 1)%Z.
Proof.
  unfold getgridind, r. cbn [lattice cubic_bulk cubic_lattice abc get_fractional_coords].
  assert (Haxis : forall n : Z, grid_index_axis 1 2 (1 / 2 - IZR n) = Ret 1%Z).
  { intros n. replace (1 / 2 - IZR n) with (1 / 2 + IZR (- n))
      by (rewrite opp_IZR; ring).
    rewrite grid_index_axis_periodic. apply grid_index_axis_half. }
  rewrite !Haxis. reflexivity.
Qed.

Lemma shell_sum_near_centre_bound (N : Z) :
  (0 <= N)%Z ->
  let '(a1, a2, a3) := bohr_rows cubic_bulk in
  Rabs (shell_sum a1 a2 a3 r I3 1 1 N) <= 4 * IZR ((2 * N + 1) ^ 3).
Proof.
  intros HN. pose proof near_centre_translation_long as Hlong.
  destruct (bohr_rows cubic_bulk) as [[a1 a2] a3].
  rewrite (shell_sum_nonzero_displacement _ _ _ _ _ _ _ _ norm_near_centre).
  apply triple_loop_bound; [exact HN |].
  intros acc i j k.
  replace (acc + _ - acc)
    with (real_summand I3 1 1 (vsub (lattice_vector a1 a2 a3 i j k) r))
    by ring.
  replace 4 with (/ (1 / 2) + 2 * 1) by field.
  apply real_summand_I3_bound_from; [lra | lra | apply Hlong].
Qed.

Lemma madelung_potential_near_centre_returns :
  exists v : R,
    anisotropic_madelung_potential cubic_bulk (2, 2, 2)%Z example_g_sum r
      I3 1 1 example_tolerance = Ret v.
Proof.
  pose proof (shell_sum_near_centre_bound 5 ltac:(lia)) as H5.
  pose proof (shell_sum_near_centre_bound 4 ltac:(lia)) as H4.
  unfold anisotropic_madelung_potential, get_g_sum_at_r.
  rewrite (kumagai_init_regular _ _ det3_I3_nonzero), getgridind_near_centre.
  destruct (bohr_rows cubic_bulk) as [[a1 a2] a3].
  rewrite !bind_Ret.
  change (array3_index example_g_sum 1 1 1) with (Ret (A := R) 0).
  rewrite !bind_Ret, (real_sum_regular _ _ _ _ _ _ _ _ det3_I3_nonzero).
  rewrite inv3_I3, det3_I3, sqrt_1.
  change (IZR ((2 * 5 + 1) ^ 3)) with 1331 in H5.
  change (IZR ((2 * 4 + 1) ^ 3)) with 729 in H4.
  set (shell := shell_sum a1 a2 a3 r I3 1 1) in *.
  rewrite first_accepted_fourth_pass.
  - rewrite bind_Ret. cbn [float_operand]. rewrite bind_Ret. eexists. reflexivity.
  - unfold shell_change, scaled_shell, example_tolerance, hart_to_ev.
    change (5 - 1)%Z with 4%Z.
    replace (1 / 1 * shell 5%Z) with (shell 5%Z) by field.
    replace (1 / 1 * shell 4%Z) with (shell 4%Z) by field.
    pose proof (Rabs_pos (shell 5%Z)). pose proof (Rabs_pos (shell 4%Z)).
    apply Rle_lt_trans with 5324; [apply Rabs_le; lra | lra].
Qed.

End NearCentre.

(** In the example every record of the table has a sampled difference. *)
Lemma centre_vacancy_sampled :
  exists potinddict : gmap Z SiteRecord,
    disttrans find_defect_pos_model closestsites_model cubic_bulk centre_vacancy
              (2, 2, 2)%Z = Ret (Some potinddict)
    /\ forall (i : Z) (rec : SiteRecord),
         potinddict !! i = Some rec ->
         exists v : R,
           sampled_difference centre_vacancy_correction [0; 0] [0] rec = Ret v.
Proof.
  unfold disttrans. rewrite find_defect_pos_centre_vacancy.
  destruct (disttrans_sites_records closestsites_model cubic_bulk centre_vacancy
              (0, 0, 0) (0, 0, 0)) as (d & Hd & Hrecs).
  exists d. rewrite Hd. split; [reflexivity |].
  intros key rec Hrec.
  destruct (Hrecs key rec Hrec)
    as (site & i & j & k & _ & _ & Hi & Hj & Hk & -> & Hkey & _).
  unfold sampled_difference.
  cbn [def_site_index bulk_site_index cart_reldef
       KumagaiCorrection.structure KumagaiCorrection.dim KumagaiCorrection.g_sum
       KumagaiCorrection.dieltens KumagaiCorrection.q KumagaiCorrection.gamma
       KumagaiCorrection.madetol centre_vacancy_correction].
  unfold paired_defect_site in *. unfold closestsites_model, closest_site in *.
  cbn [sites centre_vacancy cubic_bulk closest_site_from fst snd] in *.
  change (py_index [0] 0) with (Ret (A := R) 0). rewrite bind_Ret.
  assert (Hbulk : exists vk : R, py_index [0; 0] key = Ret vk).
  { rewrite <- Hkey.
    destruct (Rlt_dec _ _); cbn [snd]; eexists; reflexivity. }
  destruct Hbulk as (vk & ->). rewrite bind_Ret.
  assert (Hr : image_displacement centre_vacancy (0, 0, 0)
                 (coords (cubic_site (1 / 2) (1 / 2) (1 / 2))) i j k
               = (1 / 2 - IZR i, 1 / 2 - IZR j, 1 / 2 - IZR k)).
  { unfold image_displacement, centre_vacancy, cubic_lattice, I3, lattice_vector.
    cbn [lattice matrix vadd vsub smul cubic_site coords].
    f_equal; [f_equal |]; ring. }
  rewrite Hr.
  destruct (madelung_potential_near_centre_returns i j k Hi Hj Hk) as (v_pc & ->).
  rewrite bind_Ret. eexists. reflexivity.
Qed.

Lemma potalign_mean_of_sampled_differences_witness :
  exists (potinddict : gmap Z SiteRecord) (forcorrection : list R),
    disttrans find_defect_pos_model closestsites_model cubic_bulk centre_vacancy
              (2, 2, 2)%Z = Ret (Some potinddict)
    /\ Forall2 (fun rec v =>
                  sampled_difference centre_vacancy_correction [0; 0] [0] rec = Ret v)
         (records_outside (1 / 2) potinddict) forcorrection
    /\ KumagaiCorrection.potalign find_defect_pos_model closestsites_model
         centre_vacancy_correction false
       = Ret (np_scale (- KumagaiCorrection.q centre_vacancy_correction)
                (np_mean forcorrection)).
Proof.
  destruct centre_vacancy_sampled as (potinddict & Htable & Hsampled).
  destruct (potalign_mean_of_sampled_differences find_defect_pos_model
              closestsites_model centre_vacancy_correction potinddict (1 / 2)
              [0; 0] [0]
              det3_I3_nonzero Htable (wigner_seitz_radius_cubic _)
              eq_refl eq_refl
              (fun i rec Hrec _ => Hsampled i rec Hrec))
    as (forcorrection & Hdiffs & Hpot).
  exists potinddict, forcorrection.
  split; [exact Htable |]. split; [exact Hdiffs | exact Hpot].
Defined.

(** ** The parts of the correction *)

(** The error of rounding to the nearest integer, halves upwards. *)
Lemma round_half_up_error (y : R) : Rabs (IZR (Zfloor (y + / 2)) - y) <= / 2.
Proof.
  pose proof (Zfloor_bound (y + / 2)) as [Hlo Hhi].
  apply Rabs_le. lra.
Qed.

Lemma py_round5_error (x : R) : Rabs (py_round5 x - x) <= 5 / 1000000.
Proof.
  unfold py_round5. destruct (Rle_dec 0 x) as [Hx | Hx].
  - pose proof (round_half_up_error (x * 100000)) as H.
    apply Rabs_le_between in H. apply Rabs_le. lra.
  - pose proof (round_half_up_error (- x * 100000)) as H.
    apply Rabs_le_between in H. apply Rabs_le. lra.
Qed.

Lemma py_round5_grid (x : R) : exists k : Z, py_round5 x = IZR k / 100000.
Proof.
  unfold py_round5. destruct (Rle_dec 0 x).
  - eexists. reflexivity.
  - exists (- Zfloor (- x * 100000 + / 2))%Z. rewrite opp_IZR. lra.
Qed.

(** The two parts of the example can be computed. *)
Lemma centre_vacancy_pc_returns :
  exists e : R, KumagaiCorrection.pc centre_vacancy_correction = Ret e.
Proof.
  destruct pc_energy_cubic_negative as (e & He & _). exists e. exact He.
Qed.

Lemma centre_vacancy_potalign_returns :
  exists p : npfloat,
    KumagaiCorrection.potalign find_defect_pos_model closestsites_model
      centre_vacancy_correction false = Ret p.
Proof.
  destruct centre_vacancy_sampled as (potinddict & Htable & Hsampled).
  destruct (potalign_sampled find_defect_pos_model closestsites_model
              centre_vacancy_correction false potinddict (1 / 2) [0; 0] [0]
              det3_I3_nonzero Htable (wigner_seitz_radius_cubic _)
              eq_refl eq_refl
              (fun i rec Hrec _ => Hsampled i rec Hrec))
    as (forcorrection & _ & Hpot).
  eexists. exact Hpot.
Qed.

Lemma centre_vacancy_charged : KumagaiCorrection.q centre_vacancy_correction <> 0.
Proof. cbn. lra. Qed.

Lemma centre_vacancy_allsplit_returns :
  exists energy_pc potalign_v full : npfloat,
    KumagaiCorrection.correction find_defect_pos_model closestsites_model
      centre_vacancy_correction false "AllSplit"
    = Ret (Triple energy_pc potalign_v full).
Proof.
  destruct centre_vacancy_pc_returns as (e & He).
  destruct centre_vacancy_potalign_returns as (p & Hp).
  unfold KumagaiCorrection.correction, truthy.
  destruct (Req_dec_T (KumagaiCorrection.q centre_vacancy_correction) 0) as [Hz | _];
    [exfalso; exact (centre_vacancy_charged Hz) |].
  rewrite He, Hp. eexists _, _, _. reflexivity.
Qed.

(** X14.  The three numbers that [correction] returns for the part
    'AllSplit' are, in this order, what it returns for the parts 'pc',
    'potalign' and 'All': the third is the rounded sum of the two parts,
    not the sum of the two rounded parts. *)
Theorem correction_allsplit_components
    (find_defect_pos : Structure -> Structure -> option vec * option vec)
    (closestsites : Structure -> Structure -> vec -> (Site * Z) * (Site * Z))
    (s : KumagaiCorrection.self) (title : bool)
    (energy_pc potalign_v full : npfloat) :
  KumagaiCorrection.correction find_defect_pos closestsites s title "AllSplit"
  = Ret (Triple energy_pc potalign_v full) ->
  KumagaiCorrection.correction find_defect_pos closestsites s title "pc"
  = Ret (Scalar energy_pc)
  /\ KumagaiCorrection.correction find_defect_pos closestsites s title "potalign"
     = Ret (Scalar potalign_v)
  /\ KumagaiCorrection.correction find_defect_pos closestsites s title "All"
     = Ret (Scalar full).
Proof.
  unfold KumagaiCorrection.correction.
  destruct (truthy (KumagaiCorrection.q s)); cbn [negb].
  2:{ cbn. intros H. inversion H. auto. }
  change (String.eqb "AllSplit" "potalign") with false.
  change (String.eqb "AllSplit" "pc") with false.
  change (String.eqb "AllSplit" "All") with false.
  change (String.eqb "pc" "potalign") with false.
  change (String.eqb "pc" "pc") with true.
  change (String.eqb "potalign" "potalign") with true.
  change (String.eqb "potalign" "pc") with false.
  change (String.eqb "All" "potalign") with false.
  change (String.eqb "All" "pc") with false.
  change (String.eqb "All" "All") with true.
  cbn [negb].
  destruct (KumagaiCorrection.pc s) as [e | err]; [| discriminate].
  cbn [fmap result_fmap]. rewrite !bind_Ret.
  destruct (KumagaiCorrection.potalign find_defect_pos closestsites s title)
    as [p | err]; [| discriminate].
  cbn [fmap result_fmap local_var]. rewrite !bind_Ret.
  intros H. inversion H. auto.
Qed.

Lemma correction_allsplit_components_witness :
  exists energy_pc potalign_v full : npfloat,
    KumagaiCorrection.correction find_defect_pos_model closestsites_model
      centre_vacancy_correction false "AllSplit"
    = Ret (Triple energy_pc potalign_v full)
    /\ KumagaiCorrection.correction find_defect_pos_model closestsites_model
         centre_vacancy_correction false "pc" = Ret (Scalar energy_pc)
    /\ KumagaiCorrection.correction find_defect_pos_model closestsites_model
         centre_vacancy_correction false "potalign" = Ret (Scalar potalign_v)
    /\ KumagaiCorrection.correction find_defect_pos_model closestsites_model
         centre_vacancy_correction false "All" = Ret (Scalar full).
Proof.
  destruct centre_vacancy_allsplit_returns as (energy_pc & potalign_v & full & Hall).
  exists energy_pc, potalign_v, full. split; [exact Hall |].
  exact (correction_allsplit_components find_defect_pos_model closestsites_model
           centre_vacancy_correction false energy_pc potalign_v full Hall).
Defined.

(** X15.  A [partflag] that is none of 'pc', 'potalign', 'All' and
    'AllSplit' is not refused.  With a charge that is not zero
    [correction] treats it as 'AllSplit'; with the charge zero it
    returns the single number 0.0 for it, where 'AllSplit' gives the
    three zeros. *)
Theorem correction_unknown_partflag
    (find_defect_pos : Structure -> Structure -> option vec * option vec)
    (closestsites : Structure -> Structure -> vec -> (Site * Z) * (Site * Z))
    (s : KumagaiCorrection.self) (title : bool) (partflag : string) :
  partflag <> "pc"%string -> partflag <> "potalign"%string ->
  partflag <> "All"%string -> partflag <> "AllSplit"%string ->
  (KumagaiCorrection.q s <> 0 ->
   KumagaiCorrection.correction find_defect_pos closestsites s title partflag
   = KumagaiCorrection.correction find_defect_pos closestsites s title "AllSplit")
  /\ (KumagaiCorrection.q s = 0 ->
      KumagaiCorrection.correction find_defect_pos closestsites s title partflag
      = Ret (Scalar (Real 0))
      /\ KumagaiCorrection.correction find_defect_pos closestsites s title "AllSplit"
         = Ret (Triple (Real 0) (Real 0) (Real 0))).
Proof.
  intros Hpc Hpot Hall Hsplit.
  apply String.eqb_neq in Hpc, Hpot, Hall, Hsplit.
  unfold KumagaiCorrection.correction, truthy. split; intros Hq.
  - destruct (Req_dec_T (KumagaiCorrection.q s) 0) as [Hz | _]; [contradiction |].
    cbn [negb]. rewrite Hpc, Hpot, Hall. reflexivity.
  - destruct (Req_dec_T (KumagaiCorrection.q s) 0) as [_ | Hnz]; [| contradiction].
    cbn [negb]. rewrite Hsplit. split; reflexivity.
Qed.

Lemma correction_unknown_partflag_witness :
  (KumagaiCorrection.q centre_vacancy_correction <> 0 ->
   KumagaiCorrection.correction find_defect_pos_model closestsites_model
     centre_vacancy_correction false "Both"
   = KumagaiCorrection.correction find_defect_pos_model closestsites_model
       centre_vacancy_correction false "AllSplit")
  /\ (KumagaiCorrection.q centre_vacancy_correction = 0 ->
      KumagaiCorrection.correction find_defect_pos_model closestsites_model
        centre_vacancy_correction false "Both" = Ret (Scalar (Real 0))
      /\ KumagaiCorrection.correction find_defect_pos_model closestsites_model
           centre_vacancy_correction false "AllSplit"
         = Ret (Triple (Real 0) (Real 0) (Real 0))).
Proof.
  apply (correction_unknown_partflag find_defect_pos_model closestsites_model
           centre_vacancy_correction false "Both"); discriminate.
Defined.

(** X16.  For the part 'pc' and a charge that is not zero, [correction]
    returns the point-charge energy of [pc] rounded to five decimals: a
    multiple of 0.00001 at most 0.000005 away from the energy.
    [potalign] is not called, so that it cannot make the call fail. *)
Theorem correction_pc_rounded
    (find_defect_pos : Structure -> Structure -> option vec * option vec)
    (closestsites : Structure -> Structure -> vec -> (Site * Z) * (Site * Z))
    (s : KumagaiCorrection.self) (title : bool) (e : R) :
  KumagaiCorrection.q s <> 0 ->
  KumagaiCorrection.pc s = Ret e ->
  exists v : R,
    KumagaiCorrection.correction find_defect_pos closestsites s title "pc"
    = Ret (Scalar (Real v))
    /\ Rabs (v - e) <= 5 / 1000000
    /\ exists k : Z, v = IZR k / 100000.
Proof.
  intros Hq Hpc. exists (py_round5 e). split; [| split].
  - unfold KumagaiCorrection.correction, truthy.
    destruct (Req_dec_T (KumagaiCorrection.q s) 0) as [Hz | _]; [contradiction |].
    cbn [negb]. rewrite Hpc. reflexivity.
  - apply py_round5_error.
  - apply py_round5_grid.
Qed.

Lemma correction_pc_rounded_witness :
  exists e v : R,
    KumagaiCorrection.pc centre_vacancy_correction = Ret e
    /\ KumagaiCorrection.correction find_defect_pos_model closestsites_model
         centre_vacancy_correction false "pc" = Ret (Scalar (Real v))
    /\ Rabs (v - e) <= 5 / 1000000
    /\ exists k : Z, v = IZR k / 100000.
Proof.
  destruct centre_vacancy_pc_returns as (e & He).
  destruct (correction_pc_rounded find_defect_pos_model closestsites_model
              centre_vacancy_correction false e centre_vacancy_charged He)
    as (v & Hv).
  exists e, v. split; [exact He | exact Hv].
Defined.

(** X17.  With a dielectric tensor that has no inverse and a charge that
    is not zero nothing is computed: [pc], [potalign] and, for every
    [partflag], [correction] raise LinAlgError. *)
Theorem correction_singular_tensor
    (find_defect_pos : Structure -> Structure -> option vec * option vec)
    (closestsites : Structure -> Structure -> vec -> (Site * Z) * (Site * Z))
    (s : KumagaiCorrection.self) (title : bool) (partflag : string) :
  KumagaiCorrection.q s <> 0 ->
  det3 (KumagaiCorrection.dieltens s) = 0 ->
  KumagaiCorrection.pc s = Raise LinAlgError
  /\ KumagaiCorrection.potalign find_defect_pos closestsites s title
     = Raise LinAlgError
  /\ KumagaiCorrection.correction find_defect_pos closestsites s title partflag
     = Raise LinAlgError.
Proof.
  intros Hq Hdet.
  assert (Hpc : KumagaiCorrection.pc s = Raise LinAlgError).
  { unfold KumagaiCorrection.pc, anisotropic_pc_energy.
    rewrite (kumagai_init_singular _ _ Hdet). reflexivity. }
  assert (Hpot : KumagaiCorrection.potalign find_defect_pos closestsites s title
                 = Raise LinAlgError).
  { unfold KumagaiCorrection.potalign.
    rewrite (kumagai_init_singular _ _ Hdet). reflexivity. }
  split; [exact Hpc |]. split; [exact Hpot |].
  unfold KumagaiCorrection.correction, truthy.
  destruct (Req_dec_T (KumagaiCorrection.q s) 0) as [Hz | _]; [contradiction |].
  cbn [negb]. rewrite Hpc, Hpot.
  destruct (String.eqb partflag "potalign") eqn:Hp; cbn [negb].
  - apply String.eqb_eq in Hp. subst partflag. reflexivity.
  - reflexivity.
Qed.

Lemma singular_correction_charged : KumagaiCorrection.q singular_correction <> 0.
Proof. cbn. lra. Qed.

Lemma singular_correction_det :
  det3 (KumagaiCorrection.dieltens singular_correction) = 0.
Proof. unfold det3, dot, cross. cbn. ring. Qed.

Lemma correction_singular_tensor_witness :
  KumagaiCorrection.pc singular_correction = Raise LinAlgError
  /\ KumagaiCorrection.potalign find_defect_pos_model closestsites_model
       singular_correction false = Raise LinAlgError
  /\ KumagaiCorrection.correction find_defect_pos_model closestsites_model
       singular_correction false "All" = Raise LinAlgError.
Proof.
  exact (correction_singular_tensor find_defect_pos_model closestsites_model
           singular_correction false "All" singular_correction_charged
           singular_correction_det).
Defined.

(** ** The charge and the dielectric constant in the sums *)

Lemma shell_change_scaled (shell : Z -> R) (q realpre : R) (N : Z) :
  shell_change shell (q * realpre) N = Rabs q * shell_change shell realpre N.
Proof.
  unfold shell_change, scaled_shell.
  rewrite !Rmult_assoc, !(Rabs_mult q), <- Rmult_minus_distr_l, Rabs_mult, Rabs_Rabsolu.
  reflexivity.
Qed.

Lemma first_accepted_scaled (shell : Z -> R) (q realpre tolerance : R) (todo : nat) :
  q <> 0 ->
  first_accepted shell (q * realpre) tolerance todo
  = Rmult q <$> first_accepted shell realpre (tolerance / Rabs q) todo.
Proof.
  intros Hq. pose proof (Rabs_pos_lt q Hq) as Hpos.
  induction todo as [| todo IH]; [reflexivity |].
  cbn [first_accepted].
  destruct (_ =? _)%Z; [reflexivity |].
  rewrite shell_change_scaled.
  assert (Hcmp : forall x,
             Rltb (Rabs q * x) tolerance = Rltb x (tolerance / Rabs q)).
  { intros x. unfold Rltb.
    destruct (Rlt_dec (Rabs q * x) tolerance) as [H1 | H1];
      destruct (Rlt_dec x (tolerance / Rabs q)) as [H2 | H2]; try reflexivity; exfalso.
    - apply H2. apply Rmult_lt_reg_l with (Rabs q); [exact Hpos |].
      replace (Rabs q * (tolerance / Rabs q)) with tolerance by (field; lra). exact H1.
    - apply H1. apply Rmult_lt_compat_l with (r := Rabs q) in H2; [| exact Hpos].
      replace (Rabs q * (tolerance / Rabs q)) with tolerance in H2 by (field; lra).
      exact H2. }
  rewrite Hcmp.
  destruct (_ && _).
  - cbn. unfold scaled_shell. f_equal. ring.
  - exact IH.
Qed.

(** The real-space sum of a charge q is q times that of the unit charge
    at the tolerance divided by |q|. *)
Lemma real_sum_scaled (a1 a2 a3 r : vec) (q : R) (dieltens : mat3)
    (gamma tolerance : R) :
  q <> 0 ->
  real_sum a1 a2 a3 r q dieltens gamma tolerance
  = fmap (M := option) (Rmult q)
      <$> real_sum a1 a2 a3 r 1 dieltens gamma (tolerance / Rabs q).
Proof.
  intros Hq.
  destruct (Req_dec_T (det3 dieltens) 0) as [H | H].
  - rewrite !real_sum_singular by exact H. reflexivity.
  - rewrite !real_sum_regular by exact H.
    replace (q / sqrt (det3 dieltens)) with (q * (1 / sqrt (det3 dieltens)))
      by (unfold Rdiv; ring).
    rewrite first_accepted_scaled by exact Hq.
    replace (tolerance / Rabs q / hart_to_ev) with (tolerance / hart_to_ev / Rabs q).
    + reflexivity.
    + pose proof (Rabs_pos_lt q Hq). unfold hart_to_ev. field. lra.
Qed.

(** X18.  The point-charge energy scales with the square of the charge:
    for a charge q other than zero, [anisotropic_pc_energy] gives q^2
    times what it gives for the unit charge with the tolerance divided
    by |q|, and raises what that call raises. *)
Theorem pc_energy_charge_scaling (structure : Structure) (g_sum : array3 R)
    (dieltens : mat3) (q gamma tolerance : R) :
  q <> 0 ->
  anisotropic_pc_energy structure g_sum dieltens q gamma tolerance
  = Rmult (q * q)
      <$> anisotropic_pc_energy structure g_sum dieltens 1 gamma (tolerance / Rabs q).
Proof.
  intros Hq. unfold anisotropic_pc_energy.
  destruct (kumagai_init structure dieltens)
    as [[[[[angset [[a1 a2] a3]] vol] determ] invdiel] | e]; [| reflexivity].
  rewrite !bind_Ret.
  destruct (array3_index g_sum 0 0 0) as [g000 | e]; [| reflexivity].
  rewrite !bind_Ret, (real_sum_scaled a1 a2 a3 vzero q) by exact Hq.
  destruct (real_sum a1 a2 a3 vzero 1 dieltens gamma (tolerance / Rabs q))
    as [[r_part |] | e]; try reflexivity.
  cbn. f_equal. unfold Rdiv. ring.
Qed.

Lemma pc_energy_charge_scaling_witness :
  anisotropic_pc_energy cubic_bulk example_g_sum I3 2 1 example_tolerance
  = Rmult (2 * 2)
      <$> anisotropic_pc_energy cubic_bulk example_g_sum I3 1 1
            (example_tolerance / Rabs 2).
Proof.
  apply pc_energy_charge_scaling. lra.
Defined.

(** X19.  The Madelung potential is linear in the charge: for a charge q
    other than zero, [anisotropic_madelung_potential] gives q times
    what it gives for the unit charge with the tolerance divided by
    |q|, and raises what that call raises. *)
Theorem madelung_potential_charge_scaling (structure : Structure) (dim : Z * Z * Z)
    (g_sum : array3 R) (r : vec) (dieltens : mat3) (q gamma tolerance : R) :
  q <> 0 ->
  anisotropic_madelung_potential structure dim g_sum r dieltens q gamma tolerance
  = Rmult q
      <$> anisotropic_madelung_potential structure dim g_sum r dieltens 1 gamma
            (tolerance / Rabs q).
Proof.
  intros Hq. unfold anisotropic_madelung_potential.
  destruct (kumagai_init structure dieltens)
    as [[[[[angset [[a1 a2] a3]] vol] determ] invdiel] | e]; [| reflexivity].
  rewrite !bind_Ret.
  destruct (get_g_sum_at_r g_sum structure dim r) as [g_at_r | e]; [| reflexivity].
  rewrite !bind_Ret, (real_sum_scaled a1 a2 a3 r q) by exact Hq.
  destruct (real_sum a1 a2 a3 r 1 dieltens gamma (tolerance / Rabs q))
    as [[directpart |] | e]; try reflexivity.
  cbn. f_equal. unfold Rdiv. ring.
Qed.

Lemma madelung_potential_charge_scaling_witness :
  anisotropic_madelung_potential cubic_bulk (2, 2, 2)%Z example_g_sum
    (1 / 2, 1 / 2, 1 / 2) I3 2 1 example_tolerance
  = Rmult 2
      <$> anisotropic_madelung_potential cubic_bulk (2, 2, 2)%Z example_g_sum
            (1 / 2, 1 / 2, 1 / 2) I3 1 1 (example_tolerance / Rabs 2).
Proof.
  apply madelung_potential_charge_scaling. lra.
Defined.

Lemma det3_identity_times (c : R) : det3 (np_identity3_times c) = c * c * c.
Proof. unfold det3, np_identity3_times, dot, cross. ring. Qed.

Lemma quadratic_form_inverse_identity_times (c : R) (v : vec) :
  c <> 0 ->
  dot v (mat_vec (inv3 (np_identity3_times c)) v) = dot v v / c.
Proof.
  intros Hc. destruct v as [[x y] z].
  unfold mat_vec, inv3, np_identity3_times, det3, dot, cross. cbn [fst snd].
  field. exact Hc.
Qed.

(** X20.  A dielectric constant given to [KumagaiCorrection] as one
    positive number c is stored as c times the identity, and each
    summand of the real-space sum is then the screened Coulomb term
    erfc(gamma |r| / sqrt c) / (c |r|), and the tensor has an inverse. *)
Theorem isotropic_real_summand (c gamma : R) (r_vec : vec) :
  0 < c ->
  det3 (np_identity3_times c) <> 0
  /\ real_summand (inv3 (np_identity3_times c)) (det3 (np_identity3_times c))
       gamma r_vec
     = erfc (gamma * (norm r_vec / sqrt c)) / (c * norm r_vec).
Proof.
  intros Hc. rewrite det3_identity_times. split.
  - assert (0 < c * c * c) by (repeat apply Rmult_lt_0_compat; exact Hc). lra.
  - unfold real_summand.
    rewrite quadratic_form_inverse_identity_times by lra.
    assert (Hnn : 0 <= dot r_vec r_vec).
    { destruct r_vec as [[x y] z]. unfold dot. nra. }
    f_equal.
    + f_equal. f_equal. unfold norm. apply sqrt_div_alt. exact Hc.
    + replace (c * c * c * (dot r_vec r_vec / c)) with (c * c * dot r_vec r_vec)
        by (field; lra).
      rewrite sqrt_mult by nra. rewrite sqrt_square by lra. reflexivity.
Qed.

Lemma isotropic_real_summand_witness :
  det3 (np_identity3_times 2) <> 0
  /\ real_summand (inv3 (np_identity3_times 2)) (det3 (np_identity3_times 2))
       1 (1, 0, 0)
     = erfc (1 * (norm (1, 0, 0) / sqrt 2)) / (2 * norm (1, 0, 0)).
Proof.
  apply isotropic_real_summand. lra.
Defined.

(** ** The text that [read_ES_avg] reads *)

Lemma py_split_from_word (s : string) :
  forall word : list Ascii.ascii, word <> [] -> py_split_from s word <> [].
Proof.
  induction s as [| c s IH]; intros word Hword; cbn [py_split_from].
  - destruct word; [contradiction | discriminate].
  - destruct (py_isspace c).
    + destruct word; [contradiction | discriminate].
    + apply IH. discriminate.
Qed.

(** A line without a word holds no text that starts with a character
    other than whitespace. *)
Lemma blank_line_py_in (c : Ascii.ascii) (sub s : string) :
  py_isspace c = false -> py_split s = [] -> py_in (String c sub) s = false.
Proof.
  intros Hc. unfold py_split. induction s as [| a s IH]; intros Hs.
  - reflexivity.
  - cbn [py_split_from] in Hs. destruct (py_isspace a) eqn:Ha.
    + cbn [py_in String.prefix].
      destruct (Ascii.ascii_dec c a) as [-> | _]; [congruence |].
      apply IH. exact Hs.
    + exfalso. revert Hs. apply py_split_from_word. discriminate.
Qed.

Lemma blank_line_no_marker (line : string) :
  py_split line = [] ->
  py_in "dimension x,y,z NGXF" line = false
  /\ py_in "average (electrostatic) potential at core" line = false.
Proof.
  intros Hblank. split; apply blank_line_py_in; (reflexivity || exact Hblank).
Qed.

Lemma scan_lines_app (l1 l2 : list string) :
  forall (n : Z) (st : Z * Z * Z),
    scan_lines n (l1 ++ l2) st
    = scan_lines (n + Z.of_nat (length l1)) l2 (scan_lines n l1 st).
Proof.
  induction l1 as [| line l1 IH]; intros n st.
  - cbn. f_equal. lia.
  - cbn [app scan_lines length]. rewrite IH. f_equal. lia.
Qed.

Lemma scan_lines_one (n : Z) (line : string) (st : Z * Z * Z) :
  scan_lines n [line] st = scan_line st n line.
Proof. reflexivity. Qed.

(** Lines that start no block leave a block that is closed, or that
    never was opened, as it is. *)
Lemma scan_lines_closed (lines : list string) :
  Forall (fun line => potential_header line = false) lines ->
  forall (n start_line end_line ngxf_line : Z),
    start_line = 0%Z \/ end_line <> 0%Z ->
    exists ngxf_line' : Z,
      scan_lines n lines (start_line, end_line, ngxf_line)
      = (start_line, end_line, ngxf_line').
Proof.
  unfold potential_header.
  induction 1 as [| line lines Hline _ IH]; intros n s e g Hclosed.
  - exists g. reflexivity.
  - cbn [scan_lines scan_line].
    destruct (py_in "dimension x,y,z NGXF" line); [apply IH; exact Hclosed |].
    cbn [negb andb] in Hline. rewrite Hline.
    assert (Hno : negb (s =? 0)%Z && (e =? 0)%Z = false).
    { destruct Hclosed as [-> | He]; [reflexivity |].
      apply Z.eqb_neq in He. rewrite He. apply andb_false_r. }
    rewrite Hno. cbn [andb]. apply IH. exact Hclosed.
Qed.

(** Lines with words that start no block leave every block as it is. *)
Lemma scan_lines_words (lines : list string) :
  Forall (fun line => potential_header line = false /\ py_split line <> []) lines ->
  forall (n start_line end_line ngxf_line : Z),
    exists ngxf_line' : Z,
      scan_lines n lines (start_line, end_line, ngxf_line)
      = (start_line, end_line, ngxf_line').
Proof.
  unfold potential_header.
  induction 1 as [| line lines [Hline Hwords] _ IH]; intros n s e g.
  - exists g. reflexivity.
  - cbn [scan_lines scan_line].
    destruct (py_in "dimension x,y,z NGXF" line); [apply IH |].
    cbn [negb andb] in Hline. rewrite Hline.
    destruct (py_split line) eqn:Hsplit; [contradiction |].
    cbn [length Nat.eqb]. rewrite andb_false_r. apply IH.
Qed.

(** The line that the dimensions are read from. *)
Lemma scan_lines_ngxf (lines : list string) :
  forall (n : Z) (st : Z * Z * Z),
    (Forall (fun line => py_in "dimension x,y,z NGXF" line = false) lines
     /\ snd (scan_lines n lines st) = snd st)
    \/ exists (pre : list string) (line : string) (post : list string),
         lines = pre ++ line :: post
         /\ py_in "dimension x,y,z NGXF" line = true
         /\ Forall (fun line => py_in "dimension x,y,z NGXF" line = false) post
         /\ snd (scan_lines n lines st) = (n + Z.of_nat (length pre))%Z.
Proof.
  induction lines as [| line lines IH]; intros n st.
  - left. split; [constructor | reflexivity].
  - cbn [scan_lines].
    destruct (IH (n + 1)%Z (scan_line st n line))
      as [[Hnone Hg] | (pre & l & post & -> & Hl & Hpost & Hg)].
    + destruct (py_in "dimension x,y,z NGXF" line) eqn:Hline.
      * right. exists [], line, lines. split; [reflexivity |].
        split; [exact Hline |]. split; [exact Hnone |].
        rewrite Hg. destruct st as [[s e] g]. cbn [scan_line]. rewrite Hline.
        cbn. lia.
      * left. split; [constructor; assumption |].
        rewrite Hg. destruct st as [[s e] g]. cbn [scan_line]. rewrite Hline.
        destruct (py_in "average (electrostatic) potential at core" line);
          [reflexivity |].
        destruct (_ && _); reflexivity.
    + right. exists (line :: pre), l, post. split; [reflexivity |].
      split; [exact Hl |]. split; [exact Hpost |].
      rewrite Hg. cbn [length]. lia.
Qed.

Lemma scan_lines_last_ngxf (out_dat : list string) :
  last_ngxf_line out_dat (snd (scan_lines 0 out_dat (0, 0, 0)%Z)).
Proof.
  destruct (scan_lines_ngxf out_dat 0 (0, 0, 0)%Z)
    as [[Hnone Hg] | (pre & l & post & Heq & Hl & Hpost & Hg)].
  - left. split; [exact Hnone | exact Hg].
  - right. exists pre, l, post. rewrite Hg. auto.
Qed.

Lemma py_index_middle {A : Type} (pre : list A) (x : A) (post : list A) (n : Z) :
  n = Z.of_nat (length pre) -> py_index (pre ++ x :: post) n = Ret x.
Proof.
  intros ->. apply py_index_nonneg.
  rewrite lookup_app_r by lia. rewrite Nat.sub_diag. reflexivity.
Qed.

(** The lines of the examples. *)
Lemma example_outcar_lines :
  py_split_on newline example_outcar
  = [outcar_ngxf_line] ++ outcar_header_line :: outcar_radii_line
      :: outcar_norm_line :: [outcar_potential_line] ++ " "%string :: [EmptyString].
Proof. vm_compute. reflexivity. Qed.

Lemma truncated_outcar_lines :
  py_split_on newline truncated_outcar
  = [outcar_ngxf_line] ++ outcar_header_line
      :: [outcar_radii_line; outcar_norm_line; outcar_potential_line].
Proof. vm_compute. reflexivity. Qed.

Lemma example_block_words :
  Forall (fun line => potential_header line = false /\ py_split line <> [])
         [outcar_radii_line; outcar_norm_line; outcar_potential_line].
Proof. repeat constructor; (vm_compute; (reflexivity || discriminate)). Qed.

(** The loop over the lines of a block. *)
Lemma block_loop (py_float : string -> result R) (out_dat body : list string) :
  forall (before after : list string) (lo : Z) (acc : list R),
    out_dat = before ++ body ++ after ->
    lo = Z.of_nat (length before) ->
    for_each (fun pot line_num =>
                l ← py_index out_dat line_num;
                avg_es ← py_map py_float (every_second (drop 1 (py_split l)));
                Ret (pot ++ avg_es))
             (py_range lo (lo + Z.of_nat (length body))) acc
    = (pot ← block_potentials py_float body; Ret (acc ++ pot)).
Proof.
  induction body as [| line body IH]; intros before after lo acc Hout Hlo.
  - rewrite py_range_nil by (cbn; lia). cbn. rewrite app_nil_r. reflexivity.
  - rewrite py_range_cons by (cbn [length]; lia).
    cbn [for_each block_potentials].
    assert (Hline : py_index out_dat lo = Ret line).
    { rewrite Hout. cbn [app]. apply py_index_middle. exact Hlo. }
    rewrite Hline, bind_Ret. unfold line_potentials.
    destruct (py_map py_float (every_second (drop 1 (py_split line))))
      as [avg_es | e]; [| reflexivity].
    rewrite !bind_Ret.
    replace (lo + Z.of_nat (length (line :: body)))%Z
      with (lo + 1 + Z.of_nat (length body))%Z by (cbn [length]; lia).
    rewrite (IH (before ++ [line]) after (lo + 1)%Z (acc ++ avg_es)).
    + destruct (block_potentials py_float body) as [pot | e]; [| reflexivity].
      rewrite !bind_Ret, app_assoc. reflexivity.
    + rewrite Hout, <- app_assoc. reflexivity.
    + rewrite length_app. cbn [length]. lia.
Qed.

(** [read_ES_avg] once the lines are numbered. *)
Lemma read_ES_avg_scanned (py_int : string -> result Z) (py_float : string -> result R)
    (tmp_out_dat : string) (start_line end_line ngxf_line : Z) :
  scan_lines 0 (py_split_on newline tmp_out_dat) (0, 0, 0)%Z
  = (start_line, end_line, ngxf_line) ->
  last_ngxf_line (py_split_on newline tmp_out_dat) ngxf_line
  /\ read_ES_avg py_int py_float tmp_out_dat
     = (let out_dat := py_split_on newline tmp_out_dat in
        ngxf ← py_index out_dat ngxf_line;
        ngxf_dims ← py_map py_int (every_second (take 5 (drop 3 (py_split ngxf))));
        rad ← py_index out_dat (start_line + 1);
        radii ← py_map py_float (drop 5 (py_split rad));
        pot ← for_each (fun pot line_num =>
                          l ← py_index out_dat line_num;
                          avg_es ← py_map py_float
                                     (every_second (drop 1 (py_split l)));
                          Ret (pot ++ avg_es))
                       (py_range (start_line + 3) end_line) [];
        Ret {| outcar_sampling_radii := radii; outcar_ngxf_dims := ngxf_dims;
               outcar_potential := pot |}).
Proof.
  intros Hscan. split.
  - pose proof (scan_lines_last_ngxf (py_split_on newline tmp_out_dat)) as H.
    rewrite Hscan in H. exact H.
  - unfold read_ES_avg. cbv zeta. rewrite Hscan. reflexivity.
Qed.

(** X21.  [read_ES_avg] on a text whose last block of site potentials is
    complete: the header of the block is not the first line, it is
    followed by the line of the radii, one more line and the lines of
    the potentials, all with words on them, and then by a line without
    a word; no later line starts a block.  Then the grid dimensions are
    the 4th, 6th and 8th word of the last line with the dimensions (of
    the first line of the text when there is none), the radii are the
    words from the 6th on of the line after the header, and the
    potentials are every second word of the lines of the block, in the
    order of the lines.  What precedes the header, earlier blocks
    included, does not count. *)
Theorem read_ES_avg_last_block
    (py_int : string -> result Z) (py_float : string -> result R)
    (tmp_out_dat : string) (pre : list string) (header radline normline : string)
    (body : list string) (blank : string) (post : list string) :
  py_split_on newline tmp_out_dat
  = pre ++ header :: radline :: normline :: body ++ blank :: post ->
  pre <> [] ->
  potential_header header = true ->
  Forall (fun line => potential_header line = false /\ py_split line <> [])
         (radline :: normline :: body) ->
  py_split blank = [] ->
  Forall (fun line => potential_header line = false) post ->
  exists ngxf_line : Z,
    last_ngxf_line (py_split_on newline tmp_out_dat) ngxf_line
    /\ read_ES_avg py_int py_float tmp_out_dat
       = (ngxf ← py_index (py_split_on newline tmp_out_dat) ngxf_line;
          ngxf_dims ← py_map py_int (every_second (take 5 (drop 3 (py_split ngxf))));
          radii ← py_map py_float (drop 5 (py_split radline));
          pot ← block_potentials py_float body;
          Ret {| outcar_sampling_radii := radii; outcar_ngxf_dims := ngxf_dims;
                 outcar_potential := pot |}).
Proof.
  intros Hlines Hpre Hheader Hwords Hblank Hpost.
  set (n := Z.of_nat (length pre)).
  assert (Hn : (n <> 0)%Z) by (destruct pre; [contradiction | cbn in n; lia]).
  assert (Hscan : exists ngxf_line : Z,
             scan_lines 0 (py_split_on newline tmp_out_dat) (0, 0, 0)%Z
             = (n, (n + 3 + Z.of_nat (length body))%Z, ngxf_line)).
  { replace (py_split_on newline tmp_out_dat)
      with (pre ++ [header] ++ (radline :: normline :: body) ++ [blank] ++ post)
      by (rewrite Hlines; reflexivity).
    rewrite !scan_lines_app, !scan_lines_one.
    destruct (scan_lines 0 pre (0, 0, 0)%Z) as [[s1 e1] g1].
    change (0 + Z.of_nat (length pre))%Z with n.
    assert (Hhead : scan_line (s1, e1, g1) n header = (n, 0%Z, g1)).
    { unfold potential_header in Hheader. apply andb_true_iff in Hheader.
      destruct Hheader as [Hng Hpot]. apply negb_true_iff in Hng.
      cbn [scan_line]. rewrite Hng, Hpot. reflexivity. }
    rewrite Hhead.
    destruct (scan_lines_words _ Hwords (n + Z.of_nat (length [header]))%Z n 0%Z g1)
      as (g2 & ->).
    destruct (blank_line_no_marker blank Hblank) as [Hng Hpot].
    cbn [scan_line]. rewrite Hng, Hpot, Hblank.
    apply Z.eqb_neq in Hn. rewrite Hn. cbn [negb andb length Nat.eqb Z.eqb].
    match goal with
    | |- context [scan_lines ?m post (?s, ?e, ?g)] =>
        destruct (scan_lines_closed post Hpost m s e g) as (g3 & ->); [right; lia |]
    end.
    exists g3. f_equal. f_equal. lia. }
  destruct Hscan as (ngxf_line & Hscan). exists ngxf_line.
  destruct (read_ES_avg_scanned py_int py_float tmp_out_dat _ _ _ Hscan) as [Hngxf ->].
  split; [exact Hngxf |]. cbv zeta.
  destruct (py_index (py_split_on newline tmp_out_dat) ngxf_line) as [ngxf | e];
    [| reflexivity].
  rewrite !bind_Ret.
  destruct (py_map py_int _) as [ngxf_dims | e]; [| reflexivity].
  rewrite !bind_Ret.
  assert (Hrad : py_index (py_split_on newline tmp_out_dat) (n + 1) = Ret radline).
  { rewrite Hlines.
    change (pre ++ header :: radline :: normline :: body ++ blank :: post)
      with (pre ++ [header] ++ radline :: normline :: body ++ blank :: post).
    rewrite app_assoc. apply py_index_middle.
    rewrite length_app. cbn [length]. lia. }
  rewrite Hrad, !bind_Ret.
  destruct (py_map py_float (drop 5 (py_split radline))) as [radii | e];
    [| reflexivity].
  rewrite !bind_Ret.
  rewrite (block_loop py_float (py_split_on newline tmp_out_dat) body
             (pre ++ [header; radline; normline]) (blank :: post) (n + 3)%Z []).
  - destruct (block_potentials py_float body) as [pot | e]; reflexivity.
  - rewrite Hlines, <- app_assoc. reflexivity.
  - rewrite length_app. cbn [length]. lia.
Qed.

Lemma read_ES_avg_last_block_witness :
  exists ngxf_line : Z,
    last_ngxf_line (py_split_on newline example_outcar) ngxf_line
    /\ read_ES_avg decimal_int decimal_float example_outcar
       = (ngxf ← py_index (py_split_on newline example_outcar) ngxf_line;
          ngxf_dims ← py_map decimal_int
                        (every_second (take 5 (drop 3 (py_split ngxf))));
          radii ← py_map decimal_float (drop 5 (py_split outcar_radii_line));
          pot ← block_potentials decimal_float [outcar_potential_line];
          Ret {| outcar_sampling_radii := radii; outcar_ngxf_dims := ngxf_dims;
                 outcar_potential := pot |}).
Proof.
  apply (read_ES_avg_last_block decimal_int decimal_float example_outcar
           [outcar_ngxf_line] outcar_header_line outcar_radii_line outcar_norm_line
           [outcar_potential_line] " "%string [EmptyString]).
  - exact example_outcar_lines.
  - discriminate.
  - reflexivity.
  - exact example_block_words.
  - reflexivity.
  - repeat constructor.
Defined.

(** X22.  When no line after the first starts a block of site
    potentials (the text has no block, or the header of its only block
    is the first line), [read_ES_avg] does not report that: the radii
    are read from the second line of the text, with an IndexError when
    the text has one line only, and the list of potentials returned is
    empty. *)
Theorem read_ES_avg_no_block
    (py_int : string -> result Z) (py_float : string -> result R)
    (tmp_out_dat first : string) (rest : list string) :
  py_split_on newline tmp_out_dat = first :: rest ->
  Forall (fun line => potential_header line = false) rest ->
  exists ngxf_line : Z,
    last_ngxf_line (py_split_on newline tmp_out_dat) ngxf_line
    /\ read_ES_avg py_int py_float tmp_out_dat
       = (ngxf ← py_index (py_split_on newline tmp_out_dat) ngxf_line;
          ngxf_dims ← py_map py_int (every_second (take 5 (drop 3 (py_split ngxf))));
          rad ← match rest with
                | [] => Raise IndexError
                | rad :: _ => Ret rad
                end;
          radii ← py_map py_float (drop 5 (py_split rad));
          Ret {| outcar_sampling_radii := radii; outcar_ngxf_dims := ngxf_dims;
                 outcar_potential := [] |}).
Proof.
  intros Hlines Hrest.
  assert (Hscan : exists ngxf_line : Z,
             scan_lines 0 (py_split_on newline tmp_out_dat) (0, 0, 0)%Z
             = (0%Z, 0%Z, ngxf_line)).
  { rewrite Hlines. cbn [scan_lines].
    assert (Hfirst : exists g : Z, scan_line (0, 0, 0)%Z 0 first = (0%Z, 0%Z, g)).
    { cbn [scan_line].
      destruct (py_in "dimension x,y,z NGXF" first); [eexists; reflexivity |].
      destruct (py_in "average (electrostatic) potential at core" first);
        eexists; reflexivity. }
    destruct Hfirst as (g & ->).
    apply scan_lines_closed; [exact Hrest | left; reflexivity]. }
  destruct Hscan as (ngxf_line & Hscan). exists ngxf_line.
  destruct (read_ES_avg_scanned py_int py_float tmp_out_dat _ _ _ Hscan) as [Hngxf ->].
  split; [exact Hngxf |]. cbv zeta.
  destruct (py_index (py_split_on newline tmp_out_dat) ngxf_line) as [ngxf | e];
    [| reflexivity].
  rewrite !bind_Ret.
  destruct (py_map py_int _) as [ngxf_dims | e]; [| reflexivity].
  rewrite !bind_Ret, Hlines.
  destruct rest as [| rad rest']; [reflexivity |].
  change (py_index (first :: rad :: rest') (0 + 1)) with (Ret (A := string) rad).
  rewrite !bind_Ret.
  destruct (py_map py_float _) as [radii | e]; reflexivity.
Qed.

Lemma read_ES_avg_no_block_witness :
  exists ngxf_line : Z,
    last_ngxf_line (py_split_on newline EmptyString) ngxf_line
    /\ read_ES_avg decimal_int decimal_float EmptyString
       = (ngxf ← py_index (py_split_on newline EmptyString) ngxf_line;
          ngxf_dims ← py_map decimal_int
                        (every_second (take 5 (drop 3 (py_split ngxf))));
          rad ← Raise IndexError;
          radii ← py_map decimal_float (drop 5 (py_split rad));
          Ret {| outcar_sampling_radii := radii; outcar_ngxf_dims := ngxf_dims;
                 outcar_potential := [] |}).
Proof.
  apply (read_ES_avg_no_block decimal_int decimal_float EmptyString EmptyString []).
  - reflexivity.
  - constructor.
Defined.

(** X23.  A block of site potentials that no line without a word
    follows is not read: when the lines after the last header all have
    words on them, [read_ES_avg] reads the radii from the line after
    the header (IndexError when there is none) and returns an empty
    list of potentials. *)
Theorem read_ES_avg_unterminated_block
    (py_int : string -> result Z) (py_float : string -> result R)
    (tmp_out_dat : string) (pre : list string) (header : string)
    (rest : list string) :
  py_split_on newline tmp_out_dat = pre ++ header :: rest ->
  pre <> [] ->
  potential_header header = true ->
  Forall (fun line => potential_header line = false /\ py_split line <> []) rest ->
  exists ngxf_line : Z,
    last_ngxf_line (py_split_on newline tmp_out_dat) ngxf_line
    /\ read_ES_avg py_int py_float tmp_out_dat
       = (ngxf ← py_index (py_split_on newline tmp_out_dat) ngxf_line;
          ngxf_dims ← py_map py_int (every_second (take 5 (drop 3 (py_split ngxf))));
          rad ← match rest with
                | [] => Raise IndexError
                | rad :: _ => Ret rad
                end;
          radii ← py_map py_float (drop 5 (py_split rad));
          Ret {| outcar_sampling_radii := radii; outcar_ngxf_dims := ngxf_dims;
                 outcar_potential := [] |}).
Proof.
  intros Hlines Hpre Hheader Hwords.
  set (n := Z.of_nat (length pre)).
  assert (Hscan : exists ngxf_line : Z,
             scan_lines 0 (py_split_on newline tmp_out_dat) (0, 0, 0)%Z
             = (n, 0%Z, ngxf_line)).
  { replace (py_split_on newline tmp_out_dat) with (pre ++ [header] ++ rest)
      by (rewrite Hlines; reflexivity).
    rewrite !scan_lines_app, !scan_lines_one.
    destruct (scan_lines 0 pre (0, 0, 0)%Z) as [[s1 e1] g1].
    change (0 + Z.of_nat (length pre))%Z with n.
    assert (Hhead : scan_line (s1, e1, g1) n header = (n, 0%Z, g1)).
    { unfold potential_header in Hheader. apply andb_true_iff in Hheader.
      destruct Hheader as [Hng Hpot]. apply negb_true_iff in Hng.
      cbn [scan_line]. rewrite Hng, Hpot. reflexivity. }
    rewrite Hhead. apply scan_lines_words. exact Hwords. }
  destruct Hscan as (ngxf_line & Hscan). exists ngxf_line.
  destruct (read_ES_avg_scanned py_int py_float tmp_out_dat _ _ _ Hscan) as [Hngxf ->].
  split; [exact Hngxf |]. cbv zeta.
  destruct (py_index (py_split_on newline tmp_out_dat) ngxf_line) as [ngxf | e];
    [| reflexivity].
  rewrite !bind_Ret.
  destruct (py_map py_int _) as [ngxf_dims | e]; [| reflexivity].
  rewrite !bind_Ret.
  rewrite (py_range_nil (n + 3) 0) by lia. cbn [for_each].
  destruct rest as [| rad rest'].
  - assert (Hrad : py_index (py_split_on newline tmp_out_dat) (n + 1)
                   = Raise IndexError).
    { rewrite Hlines. unfold py_index.
      destruct (Z.ltb_spec (n + 1) 0); [lia |].
      destruct (Z.ltb_spec (n + 1) 0); [lia |].
      rewrite lookup_ge_None_2; [reflexivity |].
      rewrite length_app. cbn [length]. lia. }
    rewrite Hrad. reflexivity.
  - assert (Hrad : py_index (py_split_on newline tmp_out_dat) (n + 1) = Ret rad).
    { rewrite Hlines.
      change (pre ++ header :: rad :: rest') with (pre ++ [header] ++ rad :: rest').
      rewrite app_assoc. apply py_index_middle.
      rewrite length_app. cbn [length]. lia. }
    rewrite Hrad, !bind_Ret.
    destruct (py_map py_float _) as [radii | e]; reflexivity.
Qed.

Lemma read_ES_avg_unterminated_block_witness :
  exists ngxf_line : Z,
    last_ngxf_line (py_split_on newline truncated_outcar) ngxf_line
    /\ read_ES_avg decimal_int decimal_float truncated_outcar
       = (ngxf ← py_index (py_split_on newline truncated_outcar) ngxf_line;
          ngxf_dims ← py_map decimal_int
                        (every_second (take 5 (drop 3 (py_split ngxf))));
          rad ← Ret outcar_radii_line;
          radii ← py_map decimal_float (drop 5 (py_split rad));
          Ret {| outcar_sampling_radii := radii; outcar_ngxf_dims := ngxf_dims;
                 outcar_potential := [] |}).
Proof.
  apply (read_ES_avg_unterminated_block decimal_int decimal_float truncated_outcar
           [outcar_ngxf_line] outcar_header_line
           [outcar_radii_line; outcar_norm_line; outcar_potential_line]).
  - exact truncated_outcar_lines.
  - discriminate.
  - reflexivity.
  - exact example_block_words.
Defined.

(** ** A tolerance that cannot be met *)

(** X24.  A tolerance of zero or less cannot be met.  With a dielectric
    tensor that has an inverse, [real_sum] then goes through all the
    shells and returns None, for every cell and displacement; the
    point-charge energy and the Madelung potential, which add to what
    it returns, raise TypeError. *)
Theorem nonpositive_tolerance_raises (structure : Structure) (dim : Z * Z * Z)
    (g_sum : array3 R) (r : vec) (dieltens : mat3) (q gamma tolerance g000 g_at_r : R) :
  det3 dieltens <> 0 -> tolerance <= 0 ->
  array3_index g_sum 0 0 0 = Ret g000 ->
  get_g_sum_at_r g_sum structure dim r = Ret g_at_r ->
  (forall a1 a2 a3 r' : vec,
      real_sum a1 a2 a3 r' q dieltens gamma tolerance = Ret None)
  /\ anisotropic_pc_energy structure g_sum dieltens q gamma tolerance
     = Raise TypeError
  /\ anisotropic_madelung_potential structure dim g_sum r dieltens q gamma tolerance
     = Raise TypeError.
Proof.
  intros Hdet Htol Hg Hgr.
  assert (Hreal : forall a1 a2 a3 r' : vec,
             real_sum a1 a2 a3 r' q dieltens gamma tolerance = Ret None).
  { intros a1 a2 a3 r'. apply real_sum_cap_reached; assumption. }
  split; [exact Hreal |]. split.
  - unfold anisotropic_pc_energy.
    rewrite (kumagai_init_regular _ _ Hdet).
    destruct (bohr_rows structure) as [[a1 a2] a3].
    rewrite !bind_Ret, Hg, !bind_Ret, Hreal. reflexivity.
  - unfold anisotropic_madelung_potential.
    rewrite (kumagai_init_regular _ _ Hdet).
    destruct (bohr_rows structure) as [[a1 a2] a3].
    rewrite !bind_Ret, Hgr, !bind_Ret, Hreal. reflexivity.
Qed.

Lemma get_g_sum_at_body_centre :
  get_g_sum_at_r example_g_sum cubic_bulk (2, 2, 2)%Z body_centre = Ret 0.
Proof.
  unfold get_g_sum_at_r. rewrite getgridind_body_centre. reflexivity.
Qed.

Lemma nonpositive_tolerance_raises_witness :
  (forall a1 a2 a3 r' : vec, real_sum a1 a2 a3 r' 1 I3 1 0 = Ret None)
  /\ anisotropic_pc_energy cubic_bulk example_g_sum I3 1 1 0 = Raise TypeError
  /\ anisotropic_madelung_potential cubic_bulk (2, 2, 2)%Z example_g_sum
       body_centre I3 1 1 0 = Raise TypeError.
Proof.
  apply (nonpositive_tolerance_raises cubic_bulk (2, 2, 2)%Z example_g_sum
           body_centre I3 1 1 0 5000 0).
  - exact det3_I3_nonzero.
  - lra.
  - reflexivity.
  - exact get_g_sum_at_body_centre.
Defined.

(** ** The point-charge energy and the Madelung potential at the defect *)

Lemma grid_index_axis_origin (abc_i : R) (num_pts : Z) :
  0 < abc_i -> (2 <= num_pts)%Z -> grid_index_axis abc_i num_pts 0 = Ret 0%Z.
Proof.
  intros Habc Hn.
  destruct (grid_index_axis_returns abc_i num_pts 0 ltac:(lra) Hn) as (ind & Hind).
  rewrite Hind. f_equal.
  destruct (grid_index_axis_nearest _ _ _ _ Hind) as [Hrange Hnear].
  specialize (Hnear 0%Z ltac:(lia)).
  rewrite wrap_unit_frac, (Zfloor_eq 0 0) in Hnear by lra.
  assert (Hpos : 0 < IZR num_pts) by (apply IZR_lt; lia).
  replace (0 / IZR num_pts * abc_i - (0 - 0) * abc_i) with 0 in Hnear
    by (unfold Rdiv; ring).
  replace (IZR ind / IZR num_pts * abc_i - (0 - 0) * abc_i)
    with (IZR ind * (abc_i / IZR num_pts)) in Hnear by (field; lra).
  rewrite Rabs_R0 in Hnear.
  assert (Hzero : IZR ind * (abc_i / IZR num_pts) = 0).
  { pose proof (Rabs_pos (IZR ind * (abc_i / IZR num_pts))) as Hnn.
    destruct (Req_dec_T (IZR ind * (abc_i / IZR num_pts)) 0) as [Hz | Hnz];
      [exact Hz |].
    pose proof (Rabs_pos_lt _ Hnz). lra. }
  assert (Hstep : 0 < abc_i / IZR num_pts) by (apply Rdiv_lt_0_compat; lra).
  apply Rmult_integral in Hzero. destruct Hzero as [Hz | Hz]; [| lra].
  apply eq_IZR. exact Hz.
Qed.

Lemma getgridind_origin (structure : Structure) (dim : Z * Z * Z) :
  positive_lengths structure -> two_points_per_axis dim ->
  getgridind structure dim vzero = Ret (0, 0, 0)%Z.
Proof.
  unfold positive_lengths, two_points_per_axis, getgridind, vzero.
  destruct (abc (lattice structure)) as [[abc1 abc2] abc3].
  destruct dim as [[dim1 dim2] dim3].
  intros (H1 & H2 & H3) (Hd1 & Hd2 & Hd3).
  rewrite !grid_index_axis_origin by assumption. reflexivity.
Qed.

(** X25.  The point-charge energy is the Madelung potential at the
    defect itself, less the surface term, times -q/2.  On a cell of
    positive lengths whose origin has the fractional coordinates zero,
    and a grid with at least two points along every axis,
    [anisotropic_pc_energy] returns
    -q/2 (V - 27.2114 * 2 gamma q / sqrt(pi det)) for the V that
    [anisotropic_madelung_potential] returns at r = 0, and raises what
    that call raises. *)
Theorem pc_energy_from_madelung_potential (structure : Structure) (dim : Z * Z * Z)
    (g_sum : array3 R) (dieltens : mat3) (q gamma tolerance : R) :
  positive_lengths structure -> two_points_per_axis dim ->
  get_fractional_coords (lattice structure) vzero = vzero ->
  anisotropic_pc_energy structure g_sum dieltens q gamma tolerance
  = (pot ← anisotropic_madelung_potential structure dim g_sum vzero dieltens q
             gamma tolerance;
     Ret (- q * (1 / 2)
          * (pot - hart_to_ev * (2 * gamma * q / sqrt (PI * det3 dieltens))))).
Proof.
  intros Habc Hdim Hfrac.
  unfold anisotropic_pc_energy, anisotropic_madelung_potential, get_g_sum_at_r.
  rewrite Hfrac, (getgridind_origin structure dim Habc Hdim).
  destruct (Req_dec_T (det3 dieltens) 0) as [Hdet | Hdet].
  - rewrite (kumagai_init_singular _ _ Hdet). reflexivity.
  - rewrite (kumagai_init_regular _ _ Hdet).
    destruct (bohr_rows structure) as [[a1 a2] a3].
    rewrite !bind_Ret.
    destruct (array3_index g_sum 0 0 0) as [g000 | e]; [| reflexivity].
    rewrite !bind_Ret.
    destruct (real_sum a1 a2 a3 vzero q dieltens gamma tolerance)
      as [[r_part |] | e]; try reflexivity.
    cbn [float_operand]. unfold mbind, result_bind. f_equal. ring.
Qed.

Lemma pc_energy_from_madelung_potential_witness :
  anisotropic_pc_energy cubic_bulk example_g_sum I3 1 1 example_tolerance
  = (pot ← anisotropic_madelung_potential cubic_bulk (2, 2, 2)%Z example_g_sum vzero
             I3 1 1 example_tolerance;
     Ret (- 1 * (1 / 2) * (pot - hart_to_ev * (2 * 1 * 1 / sqrt (PI * det3 I3))))).
Proof.
  apply pc_energy_from_madelung_potential.
  - apply positive_lengths_cubic.
  - exact two_points_example.
  - reflexivity.
Defined.

(** ** The real-space sum under inversion *)

Lemma fold_left_ext_R {A : Type} (f g : R -> A -> R) (l : list A) :
  (forall acc x, f acc x = g acc x) ->
  forall acc, fold_left f l acc = fold_left g l acc.
Proof.
  intros H. induction l as [| x l IH]; intros acc; [reflexivity |].
  cbn [fold_left]. rewrite H. apply IH.
Qed.

(** A loop that adds a term to the accumulator adds the sum of the terms. *)
Lemma fold_left_adds {A : Type} (f : A -> R) (l : list A) :
  forall acc, fold_left (fun acc x => acc + f x) l acc
              = acc + fold_right Rplus 0 (map f l).
Proof.
  induction l as [| x l IH]; intros acc; cbn [fold_left map fold_right].
  - ring.
  - rewrite IH. ring.
Qed.

Lemma sum_app (l1 l2 : list R) :
  fold_right Rplus 0 (l1 ++ l2) = fold_right Rplus 0 l1 + fold_right Rplus 0 l2.
Proof.
  induction l1 as [| x l1 IH]; cbn [app fold_right]; [ring |]. rewrite IH. ring.
Qed.

Lemma py_range_snoc (lo hi : Z) :
  (lo <= hi)%Z -> py_range lo (hi + 1) = py_range lo hi ++ [hi].
Proof.
  intros H. unfold py_range.
  replace (Z.to_nat (hi + 1 - lo)) with (Z.to_nat (hi - lo) + 1)%nat by lia.
  rewrite seq_app, map_app. cbn [seq map]. f_equal. f_equal. lia.
Qed.

(** The sum over [range(-N, N + 1)] does not change when the index is
    negated. *)
Lemma symmetric_range_sum (f : Z -> R) (n : nat) :
  fold_right Rplus 0 (map (fun i => f (- i)%Z)
                          (py_range (- Z.of_nat n) (Z.of_nat n + 1)))
  = fold_right Rplus 0 (map f (py_range (- Z.of_nat n) (Z.of_nat n + 1))).
Proof.
  induction n as [| n IH].
  - reflexivity.
  - replace (- Z.of_nat (S n))%Z with (- Z.of_nat n - 1)%Z by lia.
    replace (Z.of_nat (S n) + 1)%Z with (Z.of_nat n + 1 + 1)%Z by lia.
    rewrite py_range_cons by lia.
    rewrite py_range_snoc by lia.
    replace (- Z.of_nat n - 1 + 1)%Z with (- Z.of_nat n)%Z by lia.
    cbn [map fold_right]. rewrite !map_app, !sum_app, IH.
    cbn [map fold_right].
    replace (- (- Z.of_nat n - 1))%Z with (Z.of_nat n + 1)%Z by lia.
    replace (- (Z.of_nat n + 1))%Z with (- Z.of_nat n - 1)%Z by lia.
    ring.
Qed.

Lemma symmetric_range_sum_Z (f : Z -> R) (N : Z) :
  fold_right Rplus 0 (map (fun i => f (- i)%Z) (py_range (- N) (N + 1)))
  = fold_right Rplus 0 (map f (py_range (- N) (N + 1))).
Proof.
  destruct (Z_lt_le_dec N 0) as [Hneg | Hnn].
  - rewrite py_range_nil by lia. reflexivity.
  - rewrite <- (Z2Nat.id N Hnn). apply symmetric_range_sum.
Qed.

(** The three loops that add a term add the sum of the terms over the
    cube of indices. *)
Lemma triple_loop_adds (N : Z) (t : Z -> Z -> Z -> R) :
  triple_loop N (fun acc i j k => acc + t i j k)
  = fold_right Rplus 0
      (map (fun i => fold_right Rplus 0
         (map (fun j => fold_right Rplus 0
            (map (fun k => t i j k) (py_range (- N) (N + 1))))
            (py_range (- N) (N + 1))))
         (py_range (- N) (N + 1))).
Proof.
  unfold triple_loop. set (rng := py_range (- N) (N + 1)).
  rewrite (fold_left_ext_R _
             (fun acc i => acc + fold_right Rplus 0
                (map (fun j => fold_right Rplus 0 (map (fun k => t i j k) rng)) rng))).
  - rewrite fold_left_adds. ring.
  - intros acc i.
    rewrite (fold_left_ext_R _
               (fun acc j => acc + fold_right Rplus 0 (map (fun k => t i j k) rng))).
    + apply fold_left_adds.
    + intros acc' j. apply fold_left_adds.
Qed.

Lemma triple_loop_negated (N : Z) (t : Z -> Z -> Z -> R) :
  triple_loop N (fun acc i j k => acc + t (- i)%Z (- j)%Z (- k)%Z)
  = triple_loop N (fun acc i j k => acc + t i j k).
Proof.
  rewrite (triple_loop_adds N (fun i j k => t (- i)%Z (- j)%Z (- k)%Z)).
  rewrite (triple_loop_adds N t).
  rewrite (symmetric_range_sum_Z
             (fun i => fold_right Rplus 0
                (map (fun j => fold_right Rplus 0
                   (map (fun k => t i (- j)%Z (- k)%Z) (py_range (- N) (N + 1))))
                   (py_range (- N) (N + 1)))) N).
  apply fold_right_Rplus_ext. intros i _.
  rewrite (symmetric_range_sum_Z
             (fun j => fold_right Rplus 0
                (map (fun k => t i j (- k)%Z) (py_range (- N) (N + 1)))) N).
  apply fold_right_Rplus_ext. intros j _.
  apply (symmetric_range_sum_Z (fun k => t i j k) N).
Qed.

Lemma triple_loop_ext (N : Z) (b1 b2 : R -> Z -> Z -> Z -> R) :
  (forall acc i j k, b1 acc i j k = b2 acc i j k) ->
  triple_loop N b1 = triple_loop N b2.
Proof.
  intros H. unfold triple_loop.
  apply fold_left_ext_R. intros acc i.
  apply fold_left_ext_R. intros acc' j.
  apply fold_left_ext_R. intros acc'' k. apply H.
Qed.

Lemma dot_vopp (u v : vec) : dot (vopp u) (vopp v) = dot u v.
Proof. destruct u as [[u1 u2] u3], v as [[v1 v2] v3]. unfold dot, vopp. ring. Qed.

Lemma norm_vopp (v : vec) : norm (vopp v) = norm v.
Proof. unfold norm. rewrite dot_vopp. reflexivity. Qed.

Lemma mat_vec_vopp (M : mat3) (v : vec) : mat_vec M (vopp v) = vopp (mat_vec M v).
Proof.
  destruct M as [[r1 r2] r3], v as [[v1 v2] v3].
  destruct r1 as [[a b] c], r2 as [[d e] f], r3 as [[g h] i].
  unfold mat_vec, vopp, dot. f_equal; [f_equal |]; ring.
Qed.

(** A summand depends on its vector up to the sign. *)
Lemma real_summand_vopp (invdiel : mat3) (determ gamma : R) (v : vec) :
  real_summand invdiel determ gamma (vopp v) = real_summand invdiel determ gamma v.
Proof. unfold real_summand. rewrite mat_vec_vopp, dot_vopp. reflexivity. Qed.

Lemma displacement_vopp (a1 a2 a3 r : vec) (i j k : Z) :
  vsub (lattice_vector a1 a2 a3 i j k) (vopp r)
  = vopp (vsub (lattice_vector a1 a2 a3 (- i) (- j) (- k)) r).
Proof.
  destruct a1 as [[x1 y1] z1], a2 as [[x2 y2] z2], a3 as [[x3 y3] z3],
    r as [[rx ry] rz].
  unfold lattice_vector, vsub, vadd, smul, vopp. rewrite !opp_IZR.
  f_equal; [f_equal |]; ring.
Qed.

Lemma shell_sum_vopp (a1 a2 a3 r : vec) (invdiel : mat3) (determ gamma : R) (N : Z) :
  shell_sum a1 a2 a3 (vopp r) invdiel determ gamma N
  = shell_sum a1 a2 a3 r invdiel determ gamma N.
Proof.
  unfold shell_sum. rewrite norm_vopp.
  destruct (truthy (norm r)); [| reflexivity].
  rewrite <- (triple_loop_negated N
    (fun i j k => real_summand invdiel determ gamma
                    (vsub (lattice_vector a1 a2 a3 i j k) r))).
  apply triple_loop_ext. intros acc i j k.
  rewrite displacement_vopp, real_summand_vopp. reflexivity.
Qed.

Lemma first_accepted_ext (shell1 shell2 : Z -> R) (realpre tolerance : R)
    (todo : nat) :
  (forall N, shell1 N = shell2 N) ->
  first_accepted shell1 realpre tolerance todo
  = first_accepted shell2 realpre tolerance todo.
Proof.
  intros H. induction todo as [| todo IH]; [reflexivity |].
  cbn [first_accepted]. unfold shell_change, scaled_shell.
  rewrite !H, IH. reflexivity.
Qed.

(** X26.  The real-space sum is even in the displacement: [real_sum]
    called with -r returns what it returns for r, the same sum or the
    same None, and raises what it raises for r. *)
Theorem real_sum_inversion (a1 a2 a3 r : vec) (q : R) (dieltens : mat3)
    (gamma tolerance : R) :
  real_sum a1 a2 a3 (vopp r) q dieltens gamma tolerance
  = real_sum a1 a2 a3 r q dieltens gamma tolerance.
Proof.
  destruct (Req_dec_T (det3 dieltens) 0) as [Hdet | Hdet].
  - rewrite !real_sum_singular by exact Hdet. reflexivity.
  - rewrite !real_sum_regular by exact Hdet.
    rewrite (first_accepted_ext
               (shell_sum a1 a2 a3 (vopp r) (inv3 dieltens) (det3 dieltens) gamma)
               (shell_sum a1 a2 a3 r (inv3 dieltens) (det3 dieltens) gamma)).
    + reflexivity.
    + intros N. apply shell_sum_vopp.
Qed.

(** ** The grid of [reciprocal_sum] under inversion *)

Lemma py_index_map_seq_neg {A : Type} (f : nat -> A) (n p : nat) :
  (p < n)%nat ->
  py_index (map f (seq 0 n)) (- Z.of_nat p) = Ret (f (mirror n p)).
Proof.
  intros Hp. unfold mirror. destruct (Nat.eqb_spec p 0) as [-> | Hne].
  - apply (py_index_nonneg _ 0%nat). rewrite lookup_map_seq.
    destruct (Nat.ltb_spec 0 n); [reflexivity | lia].
  - unfold py_index. rewrite length_map, length_seq.
    destruct (Z.ltb_spec (- Z.of_nat p) 0) as [_ | Hge]; [| lia].
    destruct (Z.ltb_spec (- Z.of_nat p + Z.of_nat n) 0) as [Hlt | _]; [lia |].
    replace (Z.to_nat (- Z.of_nat p + Z.of_nat n)) with (n - p)%nat by lia.
    rewrite lookup_map_seq.
    destruct (Nat.ltb_spec (n - p) n); [reflexivity | lia].
Qed.

Lemma array3_index_tabulate_neg {A : Type} (n1 n2 n3 : nat)
    (f : nat -> nat -> nat -> A) (p q r : nat) :
  (p < n1)%nat -> (q < n2)%nat -> (r < n3)%nat ->
  array3_index (array3_tabulate n1 n2 n3 f)
               (- Z.of_nat p) (- Z.of_nat q) (- Z.of_nat r)
  = Ret (f (mirror n1 p) (mirror n2 q) (mirror n3 r)).
Proof.
  intros Hp Hq Hr. unfold array3_index, array3_tabulate.
  rewrite py_index_map_seq_neg, bind_Ret by exact Hp.
  rewrite py_index_map_seq_neg, bind_Ret by exact Hq.
  apply py_index_map_seq_neg. exact Hr.
Qed.

(** The real part of the Fourier sum of real entries. *)
Lemma Cre_fourier_sum_real (n1 n2 n3 : nat) (f : nat -> nat -> nat -> C)
    (p q r : nat) :
  (forall a b c, Cim (f a b c) = 0) ->
  Cre (fourier_sum n1 n2 n3 f p q r)
  = grid_sum n1 n2 n3 (fun a b c =>
      Cre (f a b c) * cos (2 * PI * (INR p * INR a / INR n1
                                     + INR q * INR b / INR n2
                                     + INR r * INR c / INR n3))).
Proof.
  intros Hreal. unfold fourier_sum, grid_sum.
  rewrite Cre_Csum_map. apply fold_right_Rplus_ext. intros a _.
  rewrite Cre_Csum_map. apply fold_right_Rplus_ext. intros b _.
  rewrite Cre_Csum_map. apply fold_right_Rplus_ext. intros c _.
  specialize (Hreal a b c). unfold Cim in Hreal.
  unfold Cmul, cis, Cre. cbn [fst snd]. rewrite Hreal, cos_neg. ring.
Qed.

(** Along one axis the phase of the mirrored position is a whole number
    of turns less the phase of the position. *)
Lemma mirror_phase (n p a : nat) :
  (p < n)%nat ->
  exists k : nat,
    INR (mirror n p) * INR a / INR n = INR k - INR p * INR a / INR n.
Proof.
  intros Hp. unfold mirror. destruct (Nat.eqb_spec p 0) as [-> | Hne].
  - exists 0%nat. cbn [INR]. unfold Rdiv. ring.
  - exists a. rewrite minus_INR by lia.
    assert (0 < INR n) by (apply lt_0_INR; lia). field. lra.
Qed.

Lemma cos_mirror (n1 n2 n3 p q r a b c : nat) :
  (p < n1)%nat -> (q < n2)%nat -> (r < n3)%nat ->
  cos (2 * PI * (INR (mirror n1 p) * INR a / INR n1
                 + INR (mirror n2 q) * INR b / INR n2
                 + INR (mirror n3 r) * INR c / INR n3))
  = cos (2 * PI * (INR p * INR a / INR n1 + INR q * INR b / INR n2
                   + INR r * INR c / INR n3)).
Proof.
  intros Hp Hq Hr.
  destruct (mirror_phase n1 p a Hp) as (k1 & ->).
  destruct (mirror_phase n2 q b Hq) as (k2 & ->).
  destruct (mirror_phase n3 r c Hr) as (k3 & ->).
  set (phi := 2 * PI * (INR p * INR a / INR n1 + INR q * INR b / INR n2
                        + INR r * INR c / INR n3)).
  replace (2 * PI * (INR k1 - INR p * INR a / INR n1
                     + (INR k2 - INR q * INR b / INR n2)
                     + (INR k3 - INR r * INR c / INR n3)))
    with (- phi + 2 * INR (k1 + k2 + k3) * PI)
    by (unfold phi; rewrite !plus_INR; ring).
  rewrite cos_period, cos_neg. reflexivity.
Qed.

Lemma grid_sum_ext (n1 n2 n3 : nat) (f g : nat -> nat -> nat -> R) :
  (forall a b c, f a b c = g a b c) -> grid_sum n1 n2 n3 f = grid_sum n1 n2 n3 g.
Proof.
  intros H. unfold grid_sum.
  apply fold_right_Rplus_ext. intros a _.
  apply fold_right_Rplus_ext. intros b _.
  apply fold_right_Rplus_ext. intros c _. apply H.
Qed.

Lemma reciprocal_entry_real (s : KumagaiBulkInit.self) (gamma : R) (a b c : nat) :
  Cim (reciprocal_entry s gamma a b c) = 0.
Proof.
  unfold reciprocal_entry.
  destruct (KumagaiBulkInit.dim s) as [[nx ny] nz].
  destruct (reciprocal_lattice _) as [[b1 b2] b3].
  cbv zeta. destruct (_ && _); reflexivity.
Qed.

(** X27.  On a grid with a point along every axis and terms that are
    finite (gamma and the volume not zero, g.D.g positive on the grid
    vectors other than zero), the grid that [reciprocal_sum] returns has
    inversion symmetry: for every index triple of the grid, the entry at
    [-i, -j, -k], negative indices counting from the end of the axis, is
    the entry at [i, j, k]. *)
Theorem reciprocal_sum_inversion_symmetry (s : KumagaiBulkInit.self) (gamma : R)
    (nx ny nz : Z) :
  KumagaiBulkInit.dim s = (nx, ny, nz) ->
  (1 <= nx)%Z -> (1 <= ny)%Z -> (1 <= nz)%Z ->
  KumagaiBulkInit.gamma s = Some gamma ->
  finite_reciprocal_terms s gamma ->
  exists g_sum : array3 R,
    KumagaiBulkInit.reciprocal_sum s = Ret g_sum
    /\ forall i j k : Z,
         in_grid (nx, ny, nz) (i, j, k) ->
         exists v : R,
           array3_index g_sum i j k = Ret v
           /\ array3_index g_sum (- i) (- j) (- k) = Ret v.
Proof.
  intros Hdim Hx Hy Hz Hgamma _.
  eexists. split.
  - apply (reciprocal_sum_entries s gamma nx ny nz); (assumption || lia).
  - intros i j k (Hi & Hj & Hk).
    assert (Hp : i = Z.of_nat (Z.to_nat i)) by lia.
    assert (Hq : j = Z.of_nat (Z.to_nat j)) by lia.
    assert (Hr : k = Z.of_nat (Z.to_nat k)) by lia.
    revert Hp Hq Hr Hi Hj Hk.
    generalize (Z.to_nat i), (Z.to_nat j), (Z.to_nat k).
    intros p q r -> -> -> Hi Hj Hk.
    eexists. split.
    + rewrite array3_index_tabulate by lia. rewrite !Nat2Z.id. reflexivity.
    + rewrite array3_index_tabulate_neg by lia. f_equal.
      unfold Cscale, Cre. cbn [fst]. f_equal.
      change (fst ?z) with (Cre z).
      rewrite !Cre_fourier_sum_real by apply reciprocal_entry_real.
      apply grid_sum_ext. intros a b c. f_equal.
      apply cos_mirror; lia.
Qed.

Lemma reciprocal_sum_inversion_symmetry_witness :
  exists g_sum : array3 R,
    KumagaiBulkInit.reciprocal_sum cubic_bulk_wide_grid = Ret g_sum
    /\ (forall i j k : Z,
          in_grid (4, 5, 3)%Z (i, j, k) ->
          exists v : R,
            array3_index g_sum i j k = Ret v
            /\ array3_index g_sum (- i) (- j) (- k) = Ret v)
    /\ exists v : R,
         array3_index g_sum 1 2 1 = Ret v
         /\ array3_index g_sum (-1) (-2) (-1) = Ret v
         /\ array3_index g_sum 3 3 2 = Ret v.
Proof.
  destruct (reciprocal_sum_inversion_symmetry cubic_bulk_wide_grid 1 4 5 3 eq_refl
              ltac:(lia) ltac:(lia) ltac:(lia) eq_refl
              (cubic_finite_reciprocal_terms cubic_bulk_wide_grid 1 eq_refl eq_refl
                 R1_neq_R0))
    as (g_sum & Hsum & Hsym).
  exists g_sum. split; [exact Hsum |]. split; [exact Hsym |].
  destruct (Hsym 1%Z 2%Z 1%Z ltac:(cbn; lia)) as (v & Hv & Hneg).
  exists v. split; [exact Hv |]. split; [exact Hneg |].
  rewrite <- Hneg.
  rewrite (reciprocal_sum_entries cubic_bulk_wide_grid 1 4 5 3 eq_refl
             ltac:(lia) ltac:(lia) ltac:(lia) eq_refl) in Hsum.
  inversion Hsum; subst g_sum. reflexivity.
Defined.

(** ** No grid point is sampled twice *)

Lemma NoDup_flat_map_keys {A B : Type} (f : A -> list B) (l : list A) :
  NoDup l ->
  (forall a, In a l -> NoDup (f a)) ->
  (forall a a' b, In a l -> In a' l -> In b (f a) -> In b (f a') -> a = a') ->
  NoDup (flat_map f l).
Proof.
  induction l as [| a l IH]; intros Hl Hf Hkey; cbn [flat_map].
  - constructor.
  - apply NoDup_cons in Hl. destruct Hl as [Ha Hl].
    apply NoDup_app. split; [apply Hf; left; reflexivity |]. split.
    + intros b Hb Hb'. apply list_elem_of_In in Hb, Hb'.
      apply in_flat_map in Hb'. destruct Hb' as (a' & Ha' & Hb').
      assert (a = a') by (apply (Hkey a a' b); auto using in_eq, in_cons).
      subst a'. apply Ha, list_elem_of_In. exact Ha'.
    + apply IH; [exact Hl | |].
      * intros a' Ha'. apply Hf. right. exact Ha'.
      * intros a1 a2 b H1 H2. apply Hkey; right; assumption.
Qed.

Lemma NoDup_py_range (lo hi : Z) : NoDup (py_range lo hi).
Proof.
  unfold py_range.
  assert (Hinj : Inj eq eq (fun n : nat => (lo + Z.of_nat n)%Z))
    by (intros m n H; lia).
  apply (NoDup_fmap_2 _). apply NoDup_seq.
Qed.

(** Wrapping into the grid keeps the offsets apart. *)
Lemma wrapped_offsets_apart (rad ind dim i i' : Z) :
  (2 * rad + 1 <= dim)%Z ->
  (- rad <= i < rad + 1)%Z -> (- rad <= i' < rad + 1)%Z ->
  ((i + ind) mod dim = (i' + ind) mod dim)%Z -> i = i'.
Proof.
  intros Hfit Hi Hi' Hmod.
  assert (Hdim : (0 < dim)%Z) by lia.
  pose proof (Z.div_mod (i + ind) dim ltac:(lia)) as H1.
  pose proof (Z.div_mod (i' + ind) dim ltac:(lia)) as H2.
  rewrite Hmod in H1.
  assert (Hq : ((i + ind) / dim = (i' + ind) / dim)%Z) by nia.
  rewrite Hq in H1. lia.
Qed.

Lemma NoDup_indices_within (gridavg : R) (dim grdind radvals : Z * Z * Z)
    (dxvals : vec) :
  (let '(dim0, dim1, dim2) := dim in
   let '(rad0, rad1, rad2) := radvals in
   (2 * rad0 + 1 <= dim0 /\ 2 * rad1 + 1 <= dim1 /\ 2 * rad2 + 1 <= dim2)%Z) ->
  NoDup (indices_within gridavg dim grdind radvals dxvals).
Proof.
  destruct dim as [[dim0 dim1] dim2]. destruct grdind as [[i0 j0] k0].
  destruct radvals as [[rad0 rad1] rad2]. destruct dxvals as [[dx0 dx1] dx2].
  intros (H0 & H1 & H2). unfold indices_within.
  assert (Hinner : forall i j b,
             In b (flat_map (fun k =>
                     if Rlt_dec (norm (IZR i * dx0, IZR j * dx1, IZR k * dx2)) gridavg
                     then [((i + i0) mod dim0, (j + j0) mod dim1,
                            (k + k0) mod dim2)%Z]
                     else []) (py_range (- rad2) (rad2 + 1))) ->
             exists k, (- rad2 <= k < rad2 + 1)%Z
                       /\ b = ((i + i0) mod dim0, (j + j0) mod dim1,
                               (k + k0) mod dim2)%Z).
  { intros i j b Hb. apply in_flat_map in Hb. destruct Hb as (k & Hk & Hb).
    apply in_py_range in Hk.
    destruct (Rlt_dec _ gridavg); [| destruct Hb].
    destruct Hb as [<- | []]. exists k. auto. }
  apply NoDup_flat_map_keys; [apply NoDup_py_range | |].
  - intros i _. apply NoDup_flat_map_keys; [apply NoDup_py_range | |].
    + intros j _. apply NoDup_flat_map_keys; [apply NoDup_py_range | |].
      * intros k _. destruct (Rlt_dec _ gridavg); repeat constructor.
        intros H. apply elem_of_nil in H. exact H.
      * intros k k' b Hk Hk' Hb Hb'. apply in_py_range in Hk, Hk'.
        destruct (Rlt_dec _ gridavg); [| destruct Hb].
        destruct (Rlt_dec _ gridavg); [| destruct Hb'].
        destruct Hb as [<- | []]. destruct Hb' as [Heq | []].
        inversion Heq as [Hmod].
        apply (wrapped_offsets_apart rad2 k0 dim2); auto.
    + intros j j' b Hj Hj' Hb Hb'. apply in_py_range in Hj, Hj'.
      destruct (Hinner i j b Hb) as (k & _ & ->).
      destruct (Hinner i j' _ Hb') as (k' & _ & Heq).
      inversion Heq as [[Hmod Hmod']].
      apply (wrapped_offsets_apart rad1 j0 dim1); auto.
  - intros i i' b Hi Hi' Hb Hb'. apply in_py_range in Hi, Hi'.
    apply in_flat_map in Hb. destruct Hb as (j & _ & Hb).
    apply in_flat_map in Hb'. destruct Hb' as (j' & _ & Hb').
    destruct (Hinner i j b Hb) as (k & _ & ->).
    destruct (Hinner i' j' _ Hb') as (k' & _ & Heq).
    inversion Heq as [[Hmod Hmod' Hmod'']].
    apply (wrapped_offsets_apart rad0 i0 dim0); auto.
Qed.

(** X28.  [getgridind] with a sampling radius samples no grid point
    twice when the sphere fits into the cell: on a cell of positive
    lengths and a grid with at least two points along every axis, if
    along every axis the offsets from -rad to rad that are tried,
    rad = int(np.ceil(gridavg / dx)), are not more than the grid points,
    the index triples of the list returned are all different. *)
Theorem getgridind_gridavg_no_repeats (structure : Structure) (dim : Z * Z * Z)
    (r : vec) (gridavg : R) :
  positive_lengths structure -> two_points_per_axis dim -> 0 < gridavg ->
  sphere_fits gridavg structure dim ->
  exists l : list (Z * Z * Z),
    getgridind_gridavg structure dim r gridavg = Returns (GridIndices l)
    /\ NoDup l.
Proof.
  unfold positive_lengths, two_points_per_axis, sphere_fits, getgridind_gridavg.
  destruct (abc (lattice structure)) as [[abc1 abc2] abc3].
  destruct dim as [[dim1 dim2] dim3]. destruct r as [[r1 r2] r3].
  intros (H1 & H2 & H3) (Hd1 & Hd2 & Hd3) Hg Hfits.
  destruct (grid_axis_sampled gridavg abc1 dim1 r1 H1 Hd1 ltac:(lra))
    as (i & _ & _ & ->).
  destruct (grid_axis_sampled gridavg abc2 dim2 r2 H2 Hd2 ltac:(lra))
    as (j & _ & _ & ->).
  destruct (grid_axis_sampled gridavg abc3 dim3 r3 H3 Hd3 ltac:(lra))
    as (k & _ & _ & ->).
  eexists. split; [reflexivity |].
  apply NoDup_indices_within. exact Hfits.
Qed.

(** An offset within the radius gives a member of the list. *)
Lemma indices_within_member (gridavg : R) (dim grdind radvals : Z * Z * Z)
    (dxvals : vec) (i j k : Z) :
  let '(dim0, dim1, dim2) := dim in
  let '(ind0, ind1, ind2) := grdind in
  let '(rad0, rad1, rad2) := radvals in
  let '(dx0, dx1, dx2) := dxvals in
  (- rad0 <= i <= rad0)%Z -> (- rad1 <= j <= rad1)%Z -> (- rad2 <= k <= rad2)%Z ->
  norm (IZR i * dx0, IZR j * dx1, IZR k * dx2) < gridavg ->
  In ((i + ind0) mod dim0, (j + ind1) mod dim1, (k + ind2) mod dim2)%Z
     (indices_within gridavg dim grdind radvals dxvals).
Proof.
  destruct dim as [[dim0 dim1] dim2]. destruct grdind as [[i0 j0] k0].
  destruct radvals as [[rad0 rad1] rad2]. destruct dxvals as [[dx0 dx1] dx2].
  intros Hi Hj Hk Hnorm. unfold indices_within.
  apply in_flat_map. exists i. split; [apply in_py_range; lia |].
  apply in_flat_map. exists j. split; [apply in_py_range; lia |].
  apply in_flat_map. exists k. split; [apply in_py_range; lia |].
  destruct (Rlt_dec _ gridavg) as [_ | Hno]; [left; reflexivity | contradiction].
Qed.

Lemma sphere_fits_example : sphere_fits (1 / 4) cubic_bulk (5, 5, 5)%Z.
Proof.
  unfold sphere_fits. cbn [lattice cubic_bulk cubic_lattice abc].
  rewrite (Zceil_eq 2 (1 / 4 / (1 / 5))) by lra. lia.
Qed.

(** In the cubic example with five points along every axis and a radius
    of a quarter of an angstrom, the grid point next to the centre
    along the first axis is sampled beside the centre. *)
Lemma sampled_sphere_example :
  exists i j k : Z,
    (0 <= i < 5)%Z
    /\ getgridind_gridavg cubic_bulk (5, 5, 5)%Z body_centre (1 / 4)
       = Returns (GridIndices
                    (indices_within (1 / 4) (5, 5, 5)%Z (i, j, k) (2, 2, 2)%Z
                       (1 / 5, 1 / 5, 1 / 5)))
    /\ In (i, j, k)
         (indices_within (1 / 4) (5, 5, 5)%Z (i, j, k) (2, 2, 2)%Z
            (1 / 5, 1 / 5, 1 / 5))
    /\ In (((1 + i) mod 5)%Z, j, k)
         (indices_within (1 / 4) (5, 5, 5)%Z (i, j, k) (2, 2, 2)%Z
            (1 / 5, 1 / 5, 1 / 5)).
Proof.
  unfold getgridind_gridavg, body_centre.
  cbn [lattice cubic_bulk cubic_lattice abc].
  destruct (grid_axis_sampled (1 / 4) 1 5 (1 / 2) ltac:(lra) ltac:(lia) ltac:(lra))
    as (i & _ & Hi & ->).
  rewrite (Zceil_eq 2 (1 / 4 / (1 / 5))) by lra.
  exists i, i, i. split; [exact Hi |]. split; [reflexivity |]. split.
  - apply indices_within_centre; [lra | cbn; lia | cbn; lia].
  - pose proof (indices_within_member (1 / 4) (5, 5, 5)%Z (i, i, i) (2, 2, 2)%Z
                  (1 / 5, 1 / 5, 1 / 5) 1 0 0) as Hin.
    cbv beta iota in Hin. rewrite !Z.add_0_l in Hin.
    rewrite !(Z.mod_small i 5) in Hin by lia.
    apply Hin; try lia.
    unfold norm, dot.
    replace (1 * (1 / 5) * (1 * (1 / 5)) + 0 * (1 / 5) * (0 * (1 / 5))
             + 0 * (1 / 5) * (0 * (1 / 5))) with ((1 / 5) * (1 / 5)) by lra.
    rewrite sqrt_square by lra. lra.
Qed.

Lemma getgridind_gridavg_no_repeats_witness :
  exists l : list (Z * Z * Z),
    getgridind_gridavg cubic_bulk (5, 5, 5)%Z body_centre (1 / 4)
    = Returns (GridIndices l)
    /\ NoDup l
    /\ exists ind ind' : Z * Z * Z, In ind l /\ In ind' l /\ ind <> ind'.
Proof.
  destruct (getgridind_gridavg_no_repeats cubic_bulk (5, 5, 5)%Z body_centre (1 / 4))
    as (l & Hl & Hnodup).
  - apply positive_lengths_cubic.
  - unfold two_points_per_axis. lia.
  - lra.
  - exact sphere_fits_example.
  - exists l. split; [exact Hl |]. split; [exact Hnodup |].
    destruct sampled_sphere_example as (i & j & k & Hi & Hret & Hc & Hn).
    rewrite Hl in Hret. inversion Hret as [Heq].
    exists (i, j, k), (((1 + i) mod 5)%Z, j, k).
    split; [exact Hc |]. split; [exact Hn |].
    intros Hsame. inversion Hsame as [Hmod].
    assert (Hcases : (i = 0 \/ i = 1 \/ i = 2 \/ i = 3 \/ i = 4)%Z) by lia.
    destruct Hcases as [-> | [-> | [-> | [-> | ->]]]]; discriminate Hmod.
Defined.

(** ** The shells that [real_sum] goes through *)














